(** * Markdown-to-HTML converter and anchor-link checker

    A shallow embedding of [scripts/md_to_html.py] and
    [scripts/check_links.py], and the properties their specification
    states about them.

    Conventions of the embedding.
    - A Python [str] is a [list ascii]; a character of type [ascii] stands
      for the code point of the same number (0..255).
    - A compiled pattern of the [re] module is a value of type [regex],
      run by a backtracking matcher with the priorities of [re]: greedy
      quantifiers try the longest repetition first, lazy ones the shortest.
    - A Python [dict] is an association list (insertion order matters for
      the placeholder table, which is iterated).
    - An external library call that may raise is a function into [outcome]. *)

From Stdlib Require Import Ascii String.
From Stdlib Require Import List Bool Arith Lia NArith DecimalString DecimalNat.
From Stdlib Require Import Permutation.
Import ListNotations.

Local Open Scope char_scope.
Local Open Scope nat_scope.
Local Open Scope list_scope.

(** ** Strings *)

Definition str := list ascii.

(** A string literal of the source. *)
Definition lit (s : string) : str := list_ascii_of_string s.

Definition dquote : ascii := "034".
Definition newline : ascii := "010".

Definition str_eqb (a b : str) : bool :=
  if list_eq_dec ascii_dec a b then true else false.

(** [s.startswith(p)] *)
Fixpoint startswith (p s : str) : bool :=
  match p, s with
  | [], _ => true
  | _ :: _, [] => false
  | a :: p', b :: s' => Ascii.eqb a b && startswith p' s'
  end.

(** [needle in s]: the needle occurs as a contiguous slice of [s]. *)
Fixpoint occurs (needle s : str) : bool :=
  startswith needle s ||
  match s with
  | [] => false
  | _ :: s' => occurs needle s'
  end.

(** [s.count(needle)] for a non-empty needle: the number of
    non-overlapping occurrences, scanning from the left.  [skip] is the
    number of characters still covered by the occurrence just counted. *)
Fixpoint count_from (needle : str) (skip : nat) (s : str) : nat :=
  match s with
  | [] => 0
  | _ :: s' =>
      match skip with
      | S n => count_from needle n s'
      | O => if startswith needle s
             then S (count_from needle (Nat.pred (length needle)) s')
             else count_from needle 0 s'
      end
  end.

Definition count (needle s : str) : nat := count_from needle 0 s.

(** [s.replace(old, new)] for a non-empty [old]: every non-overlapping
    occurrence, scanning from the left, is replaced. *)
Fixpoint replace_from (old new : str) (skip : nat) (s : str) : str :=
  match s with
  | [] => []
  | c :: s' =>
      match skip with
      | S n => replace_from old new n s'
      | O => if startswith old s
             then new ++ replace_from old new (Nat.pred (length old)) s'
             else c :: replace_from old new 0 s'
      end
  end.

Definition replace (old new s : str) : str := replace_from old new 0 s.

(** [s.lstrip(chars)], [s.rstrip(chars)], [s.strip(chars)], the set of
    characters given as a predicate. *)
Fixpoint lstrip (p : ascii -> bool) (s : str) : str :=
  match s with
  | [] => []
  | c :: s' => if p c then lstrip p s' else s
  end.

Definition rstrip (p : ascii -> bool) (s : str) : str :=
  rev (lstrip p (rev s)).

Definition strip (p : ascii -> bool) (s : str) : str :=
  rstrip p (lstrip p s).

(** [s.split(sep)[0]] for a one-character separator: the text before the
    first separator, the whole string when there is none. *)
Fixpoint split_head (sep : ascii) (s : str) : str :=
  match s with
  | [] => []
  | c :: s' => if Ascii.eqb c sep then [] else c :: split_head sep s'
  end.

(** ** Character classes *)

Definition is_hyphen (c : ascii) : bool := Ascii.eqb c "-".
Definition not_dquote (c : ascii) : bool := negb (Ascii.eqb c dquote).
Definition not_gt (c : ascii) : bool := negb (Ascii.eqb c ">").
Definition not_dquote_hash (c : ascii) : bool :=
  negb (Ascii.eqb c dquote) && negb (Ascii.eqb c "#").
Definition not_newline (c : ascii) : bool := negb (Ascii.eqb c newline).
Definition any_char (_ : ascii) : bool := true.

(** [str.isspace] on a single character, which is also the class [\s] of
    a [str] pattern: TAB..CR, FS..US, space, NEL and NBSP. *)
Definition is_space (c : ascii) : bool :=
  let n := nat_of_ascii c in
  (((9 <=? n) && (n <=? 13)) || ((28 <=? n) && (n <=? 32))
   || (n =? 133) || (n =? 160))%nat.

(** ** Regular expressions of the [re] module *)

(** The constructs the two scripts use.  [Rep cls min greedy] is a
    character class under a quantifier with no upper bound:
    [cls*] is [Rep cls 0 true], [cls+?] is [Rep cls 1 false],
    [cls{2,}] is [Rep cls 2 true]. *)
Inductive regex : Type :=
| Lit (s : str)
| Rep (cls : ascii -> bool) (min : nat) (greedy : bool)
| Grp (n : nat) (r : regex)
| Opt (greedy : bool) (r : regex)
| Seq (r1 r2 : regex)
| BolM                     (* [^] under re.MULTILINE *)
| EolM.                    (* [$] under re.MULTILINE *)

(** Capture groups that took part in the match, most recent binding
    first. *)
Definition caps := list (nat * str).

Fixpoint group (n : nat) (c : caps) : option str :=
  match c with
  | [] => None
  | (i, t) :: c' => if Nat.eqb i n then Some t else group n c'
  end.

(** A match: the matched text, [m.group(0)], and the groups. *)
Definition mres := (str * caps)%type.

Definition orelse (a b : option mres) : option mres :=
  match a with
  | Some x => Some x
  | None => b
  end.

(** Continuations receive the text the node consumed, the remaining
    input and the groups. *)
Definition kont := str -> str -> caps -> option mres.

Fixpoint rep_greedy (cls : ascii -> bool) (min : nat)
         (k : str -> str -> option mres) (s : str) : option mres :=
  let stop := if Nat.eqb min 0 then k [] s else None in
  match s with
  | c :: s' =>
      if cls c
      then orelse (rep_greedy cls (Nat.pred min) (fun t r => k (c :: t) r) s')
                  stop
      else stop
  | [] => stop
  end.

Fixpoint rep_lazy (cls : ascii -> bool) (min : nat)
         (k : str -> str -> option mres) (s : str) : option mres :=
  let stop := if Nat.eqb min 0 then k [] s else None in
  orelse stop
    match s with
    | c :: s' =>
        if cls c
        then rep_lazy cls (Nat.pred min) (fun t r => k (c :: t) r) s'
        else None
    | [] => None
    end.

(** The character before the current position once [t] has been
    consumed. *)
Definition advance (prev : option ascii) (t : str) : option ascii :=
  match rev t with
  | c :: _ => Some c
  | [] => prev
  end.

Definition at_bol (prev : option ascii) : bool :=
  match prev with
  | None => true
  | Some c => Ascii.eqb c newline
  end.

Definition at_eol (s : str) : bool :=
  match s with
  | [] => true
  | c :: _ => Ascii.eqb c newline
  end.

(** The backtracking matcher, anchored at the current position.  [prev]
    is the character before the position ([None] at the start of the
    subject). *)
Fixpoint rmatch (r : regex) (k : kont) (prev : option ascii) (s : str)
         (c : caps) : option mres :=
  match r with
  | Lit l =>
      if startswith l s then k l (skipn (length l) s) c else None
  | Rep cls min true => rep_greedy cls min (fun t s' => k t s' c) s
  | Rep cls min false => rep_lazy cls min (fun t s' => k t s' c) s
  | Grp n r1 => rmatch r1 (fun t s' c' => k t s' ((n, t) :: c')) prev s c
  | Opt true r1 => orelse (rmatch r1 k prev s c) (k [] s c)
  | Opt false r1 => orelse (k [] s c) (rmatch r1 k prev s c)
  | Seq r1 r2 =>
      rmatch r1
        (fun t1 s1 c1 =>
           rmatch r2 (fun t2 s2 c2 => k (t1 ++ t2) s2 c2)
                  (advance prev t1) s1 c1)
        prev s c
  | BolM => if at_bol prev then k [] s c else None
  | EolM => if at_eol s then k [] s c else None
  end.

(** [pattern.match(s, pos)] *)
Definition match_at (r : regex) (prev : option ascii) (s : str)
  : option mres :=
  rmatch r (fun t _ c => Some (t, c)) prev s [].

(** The scanner behind [re.sub], [re.findall] and [re.search]: the
    subject cut into the characters no match covers and the successive
    non-overlapping matches, left to right.  [skip] counts the characters
    still covered by the last match.  No pattern of the scripts matches
    the empty string; after an empty match the scanner here copies one
    character and moves on. *)
Inductive piece : Type :=
| Copy (c : ascii)
| Hit (whole : str) (groups : caps).

Fixpoint scan (r : regex) (skip : nat) (prev : option ascii) (s : str)
         {struct s} : list piece :=
  match skip with
  | S n =>
      match s with
      | [] => []
      | c :: s' => scan r n (Some c) s'
      end
  | O =>
      match match_at r prev s with
      | Some (t, g) =>
          Hit t g ::
          match s with
          | [] => []
          | c :: s' =>
              match t with
              | [] => Copy c :: scan r 0 (Some c) s'
              | _ :: t' => scan r (length t') (Some c) s'
              end
          end
      | None =>
          match s with
          | [] => []
          | c :: s' => Copy c :: scan r 0 (Some c) s'
          end
      end
  end.

(** [re.sub(pattern, repl, s)] with a function [repl] of the match. *)
Definition emit (repl : str -> caps -> str) (p : piece) : str :=
  match p with
  | Copy c => [c]
  | Hit t g => repl t g
  end.

Definition re_sub (r : regex) (repl : str -> caps -> str) (s : str) : str :=
  flat_map (emit repl) (scan r 0 None s).

(** The matches alone, as [re.finditer] yields them. *)
Fixpoint hits (ps : list piece) : list mres :=
  match ps with
  | [] => []
  | Copy _ :: ps' => hits ps'
  | Hit t g :: ps' => (t, g) :: hits ps'
  end.

Definition re_finditer (r : regex) (s : str) : list mres :=
  hits (scan r 0 None s).

(** [re.search(pattern, s)] *)
Definition re_search (r : regex) (s : str) : option mres :=
  hd_error (re_finditer r s).

(** [m.group(n)] where the group is known to take part, and
    [m.group(n) or ""]. *)
Definition group_or_empty (n : nat) (g : caps) : str :=
  match group n g with
  | Some t => t
  | None => []
  end.

(** A pattern written as a concatenation of items. *)
Fixpoint seqs (l : list regex) : regex :=
  match l with
  | [] => Lit []
  | [r] => r
  | r :: l' => Seq r (seqs l')
  end.

(** ** Dictionaries *)

(** A [dict] with string keys, in insertion order. *)
Definition dict (V : Type) := list (str * V).

Fixpoint dict_get {V : Type} (d : dict V) (key : str) : option V :=
  match d with
  | [] => None
  | (k, v) :: d' => if str_eqb k key then Some v else dict_get d' key
  end.

(** [d[key] = v]: an existing key keeps its place, a new one goes last. *)
Fixpoint dict_set {V : Type} (d : dict V) (key : str) (v : V) : dict V :=
  match d with
  | [] => [(key, v)]
  | (k, w) :: d' =>
      if str_eqb k key then (k, v) :: d' else (k, w) :: dict_set d' key v
  end.

(** ** Bytes, UTF-8, percent-encoding and base64 *)

(** A byte is a number below 256. *)
Definition byte := N.

(** [s.encode("utf-8")] on code points below 256. *)
Definition utf8_char (c : ascii) : list byte :=
  let n := N_of_ascii c in
  if (n <? 128)%N then [n]
  else [N.lor 192 (N.shiftr n 6); N.lor 128 (N.land n 63)].

Definition utf8_encode (s : str) : list byte := flat_map utf8_char s.

Definition hex_digit (n : N) : ascii :=
  nth (N.to_nat n) (lit "0123456789ABCDEF") "0".

(** [urllib.parse.quote]: the characters never quoted. *)
Definition always_safe (c : ascii) : bool :=
  let n := nat_of_ascii c in
  (((65 <=? n) && (n <=? 90)) || ((97 <=? n) && (n <=? 122))
   || ((48 <=? n) && (n <=? 57)))%nat
  || Ascii.eqb c "_" || Ascii.eqb c "." || Ascii.eqb c "-" || Ascii.eqb c "~".

Definition quote_byte (safe : ascii -> bool) (b : byte) : str :=
  let c := ascii_of_N b in
  if ((b <? 128)%N && (always_safe c || safe c))%bool then [c]
  else ["%"; hex_digit (N.shiftr b 4); hex_digit (N.land b 15)].

(** [urllib.parse.quote(s, safe=...)] *)
Definition quote (safe : ascii -> bool) (s : str) : str :=
  flat_map (quote_byte safe) (utf8_encode s).

Definition b64_alphabet : str :=
  lit "ABCDEFGHIJKLMNOPQRSTUVWXYZabcdefghijklmnopqrstuvwxyz0123456789-_".

Definition b64_char (n : N) : ascii := nth (N.to_nat n) b64_alphabet "=".

(** [base64.urlsafe_b64encode(bs).decode("ascii")] *)
Fixpoint urlsafe_b64encode (bs : list byte) : str :=
  match bs with
  | [] => []
  | [a] =>
      [b64_char (N.shiftr a 2); b64_char (N.shiftl (N.land a 3) 4); "="; "="]
  | [a; b] =>
      [b64_char (N.shiftr a 2);
       b64_char (N.lor (N.shiftl (N.land a 3) 4) (N.shiftr b 4));
       b64_char (N.shiftl (N.land b 15) 2); "="]
  | a :: b :: c :: bs' =>
      [b64_char (N.shiftr a 2);
       b64_char (N.lor (N.shiftl (N.land a 3) 4) (N.shiftr b 4));
       b64_char (N.lor (N.shiftl (N.land b 15) 2) (N.shiftr c 6));
       b64_char (N.land c 63)] ++ urlsafe_b64encode bs'
  end.

(** [str(n)] for a natural number. *)
Definition str_of_nat (n : nat) : str :=
  lit (NilEmpty.string_of_uint (Nat.to_uint n)).

(** ** md_to_html.py *)

Definition CONFLUENCE_BASE : str := lit "https://rezolvetech.atlassian.net".
Definition CONFLUENCE_SPACE : str := lit "RAIL".

(** The [safe] argument of [confluence_page_url]: hyphen, underscore,
    dot and space. *)
Definition url_safe (c : ascii) : bool :=
  Ascii.eqb c "-" || Ascii.eqb c "_" || Ascii.eqb c "." || Ascii.eqb c " ".

(** [confluence_page_url(title)] *)
Definition confluence_page_url (title : str) : str :=
  let slug := quote url_safe title in
  let slug := replace (lit " ") (lit "+") slug in
  CONFLUENCE_BASE ++ lit "/wiki/display/" ++ CONFLUENCE_SPACE ++ lit "/"
  ++ slug.

(** [^#\s+(.+)$] under re.MULTILINE *)
Definition re_title : regex :=
  seqs [BolM; Lit (lit "#"); Rep is_space 1 true;
        Grp 1 (Rep not_newline 1 true); EolM].

(** [extract_title(md_text)] *)
Definition extract_title (md_text : str) : str :=
  match re_search re_title md_text with
  | Some (_, g) => strip is_space (group_or_empty 1 g)
  | None => lit "Document"
  end.

(** [build_page_url_map(src_dir)], the directory given as the stems and
    texts of its [*.md] files in the order [glob] yields them. *)
Fixpoint build_page_url_map (files : list (str * str)) (mapping : dict str)
  : dict str :=
  match files with
  | [] => mapping
  | (stem, md_text) :: files' =>
      build_page_url_map files'
        (dict_set mapping (stem ++ lit ".html")
                  (confluence_page_url (extract_title md_text)))
  end.

(** [_mermaid_ink_url(diagram_code)] *)
Definition _mermaid_ink_url (diagram_code : str) : str :=
  let encoded := urlsafe_b64encode (utf8_encode diagram_code) in
  lit "https://mermaid.ink/img/" ++ encoded ++ lit "?theme=neutral".

(** The pattern of [preprocess_mermaid], under re.DOTALL: the fence
    opener with its newline, the shortest text, the fence closer. *)
Definition fence_open : str := lit "```mermaid" ++ [newline].
Definition fence_close : str := lit "```".

Definition re_mermaid : regex :=
  seqs [Lit fence_open; Grp 1 (Rep any_char 0 false); Lit fence_close].

Definition placeholder_key (n : nat) : str :=
  lit "MERMAID_PLACEHOLDER_" ++ str_of_nat n ++ lit "_END".

Definition mermaid_block (diagram_code : str) : str :=
  lit "<img class=" ++ [dquote] ++ lit "mermaid-img" ++ [dquote]
  ++ lit " src=" ++ [dquote] ++ _mermaid_ink_url diagram_code ++ [dquote]
  ++ lit " alt=" ++ [dquote] ++ lit "Mermaid diagram" ++ [dquote]
  ++ lit " />".

(** The closure [replacer] of [preprocess_mermaid]: its state is the
    counter and the placeholder table. *)
Definition replacer (g : caps) (st : nat * dict str)
  : str * (nat * dict str) :=
  let '(counter, placeholders) := st in
  let diagram_code := strip is_space (group_or_empty 1 g) in
  let key := placeholder_key counter in
  let block := mermaid_block diagram_code in
  (key, (S counter, dict_set placeholders key block)).

(** [pattern.sub(replacer, md_text)] with the effects of [replacer]
    threaded from left to right. *)
Fixpoint sub_replacer (ps : list piece) (st : nat * dict str)
  : str * (nat * dict str) :=
  match ps with
  | [] => ([], st)
  | Copy c :: ps' =>
      let '(out, st') := sub_replacer ps' st in (c :: out, st')
  | Hit _ g :: ps' =>
      let '(key, st1) := replacer g st in
      let '(out, st2) := sub_replacer ps' st1 in
      (key ++ out, st2)
  end.

(** [preprocess_mermaid(md_text)]: the processed text and the table. *)
Definition preprocess_mermaid (md_text : str) : str * dict str :=
  let '(processed, (_, placeholders)) :=
    sub_replacer (scan re_mermaid 0 None md_text) (0, []) in
  (processed, placeholders).

(** [postprocess_placeholders(html, placeholders)] *)
Fixpoint postprocess_placeholders (html : str) (placeholders : dict str)
  : str :=
  match placeholders with
  | [] => html
  | (key, block) :: rest =>
      let html := replace (lit "<p>" ++ key ++ lit "</p>") block html in
      let html := replace key block html in
      postprocess_placeholders html rest
  end.

(** [_normalize_anchor(anchor)], with its pattern [-{2,}] *)
Definition re_hyphens : regex := Rep is_hyphen 2 true.

Definition _normalize_anchor (anchor : str) : str :=
  strip is_hyphen (re_sub re_hyphens (fun _ _ => lit "-") anchor).

(** The pattern of [rewrite_md_links].  Writing Q for the double quote,
    it is [href=Q] [([^Q]+?)] [\.md] [(#[^Q]*  )??] [Q]: the shortest
    non-empty quote-free path, the extension, lazily a fragment, the
    closing quote. *)
Definition href_open : str := lit "href=" ++ [dquote].

Definition re_md_link : regex :=
  seqs [Lit href_open;
        Grp 1 (Rep not_dquote 1 false);
        Lit (lit ".md");
        Opt false (Grp 2 (Seq (Lit (lit "#")) (Rep not_dquote 0 true)));
        Lit [dquote]].

(** The inner function [_fix] of [rewrite_md_links]. *)
Definition _fix (whole : str) (g : caps) : str :=
  let path := group_or_empty 1 g in
  let anchor := group_or_empty 2 g in
  let anchor :=
    match anchor with
    | [] => anchor
    | _ :: rest => lit "#" ++ _normalize_anchor rest
    end in
  href_open ++ path ++ lit ".html" ++ anchor ++ [dquote].

(** [rewrite_md_links(html)] *)
Definition rewrite_md_links (html : str) : str :=
  re_sub re_md_link _fix html.

(** The pattern of [rewrite_cross_page_links], under re.DOTALL.  Writing
    Q for the double quote, it is [<a] [\s+] [href=Q] [([^Q]*  )] [Q]
    [[^>]*] [>] [(.*?)] [</a>]. *)
Definition re_a_tag : regex :=
  seqs [Lit (lit "<a");
        Rep is_space 1 true;
        Lit href_open;
        Grp 1 (Rep not_dquote 0 true);
        Lit [dquote];
        Rep not_gt 0 true;
        Lit (lit ">");
        Grp 2 (Rep any_char 0 false);
        Lit (lit "</a>")].

(** The inner function [_replace] of [rewrite_cross_page_links]. *)
Definition _replace (page_url_map : dict str) (whole : str) (g : caps)
  : str :=
  let href := group_or_empty 1 g in
  let inner := group_or_empty 2 g in
  if startswith (lit "#") href || startswith (lit "http") href then whole
  else
    let filename := split_head "#" href in
    match dict_get page_url_map filename with
    | Some url =>
        lit "<a " ++ href_open ++ url ++ [dquote] ++ lit ">" ++ inner
        ++ lit "</a>"
    | None => lit "<strong>" ++ inner ++ lit "</strong>"
    end.

(** [rewrite_cross_page_links(html, page_url_map)] *)
Definition rewrite_cross_page_links (html : str) (page_url_map : dict str)
  : str :=
  re_sub re_a_tag (_replace page_url_map) html.

(** *** The external Markdown library *)

(** What a call can raise: an instance of [Exception], which
    [except Exception] catches, or another [BaseException]
    (KeyboardInterrupt, SystemExit), which it does not. *)
Inductive exn : Type :=
| Exc (name : string)
| BaseExc (name : string).

Inductive outcome (A : Type) : Type :=
| Ok (a : A)
| Raise (e : exn).

Arguments Ok {A} a.
Arguments Raise {A} e.

(** A computation that calls the library: the extension lists of the
    calls made, in order, and how it ended. *)
Definition traced (A : Type) : Type := (list (list string) * outcome A)%type.

Definition extensions : list string :=
  ["tables"; "fenced_code"; "toc"; "nl2br"; "pymdownx.superfences"]%string.

Definition safe_extensions : list string :=
  ["tables"; "fenced_code"; "toc"; "sane_lists"]%string.

Section Converter.

(** [markdown.markdown(text, extensions=...)] *)
Variable markdown : str -> list string -> outcome str.

Definition call_markdown (text : str) (exts : list string) : traced str :=
  ([exts], markdown text exts).

(** [try: body except Exception: handler] *)
Definition try_except {A : Type} (body handler : traced A) : traced A :=
  match body with
  | (log, Raise (Exc _)) => (log ++ fst handler, snd handler)
  | _ => body
  end.

(** [md_to_html(md_text)] *)
Definition md_to_html (md_text : str) : traced str :=
  try_except (call_markdown md_text extensions)
             (call_markdown md_text safe_extensions).

(** The first steps of [convert_file] on the text read: the diagrams
    are taken out, the text is converted, the diagrams are put back. *)
Definition convert_diagrams (md_text : str) : traced str :=
  let '(preprocessed, placeholders) := preprocess_mermaid md_text in
  match md_to_html preprocessed with
  | (log, Ok body_html) =>
      (log, Ok (postprocess_placeholders body_html placeholders))
  | (log, Raise e) => (log, Raise e)
  end.

(** The body of [convert_file] between reading the source and filling
    the page template: the title and the body of the page. *)
Definition convert_text (md_text : str) (page_url_map : dict str)
  : traced (str * str) :=
  let title := extract_title md_text in
  match convert_diagrams md_text with
  | (log, Ok body_html) =>
      let body_html := rewrite_md_links body_html in
      let body_html := rewrite_cross_page_links body_html page_url_map in
      (log, Ok (title, body_html))
  | (log, Raise e) => (log, Raise e)
  end.

End Converter.

(** ** check_links.py *)

(** [a < b] on strings: by code points, a proper prefix first. *)
Fixpoint str_ltb (a b : str) : bool :=
  match a, b with
  | _, [] => false
  | [], _ :: _ => true
  | x :: a', y :: b' =>
      (nat_of_ascii x <? nat_of_ascii y)%nat
      || (Ascii.eqb x y && str_ltb a' b')
  end.

(** A [set] of strings is kept as the list of its elements in increasing
    order, which is what [sorted] returns for it. *)
Fixpoint set_add (x : str) (s : list str) : list str :=
  match s with
  | [] => [x]
  | y :: s' =>
      if str_eqb x y then s
      else if str_ltb x y then x :: s
      else y :: set_add x s'
  end.

Definition set_of_list (l : list str) : list str :=
  fold_left (fun s x => set_add x s) l [].

Definition set_mem (x : str) (s : list str) : bool :=
  existsb (str_eqb x) s.

(** [sorted(files)] by name. *)
Fixpoint insert_file (f : str * str) (l : list (str * str))
  : list (str * str) :=
  match l with
  | [] => [f]
  | g :: l' => if str_ltb (fst g) (fst f) then g :: insert_file f l'
               else f :: l
  end.

Definition sorted_files (l : list (str * str)) : list (str * str) :=
  fold_right insert_file [] l.

(** [id=Q([^Q]+)Q], Q the double quote *)
Definition re_id : regex :=
  seqs [Lit (lit "id=" ++ [dquote]); Grp 1 (Rep not_dquote 1 true);
        Lit [dquote]].

(** [href=Q([^Q#]+\.html)#([^Q]+)Q], Q the double quote *)
Definition re_anchored_link : regex :=
  seqs [Lit href_open;
        Grp 1 (Seq (Rep not_dquote_hash 1 true) (Lit (lit ".html")));
        Lit (lit "#");
        Grp 2 (Rep not_dquote 1 true);
        Lit [dquote]].

(** [re.findall] with one group and with two. *)
Definition findall1 (r : regex) (s : str) : list str :=
  map (fun m => group_or_empty 1 (snd m)) (re_finditer r s).

Definition findall2 (r : regex) (s : str) : list (str * str) :=
  map (fun m => (group_or_empty 1 (snd m), group_or_empty 2 (snd m)))
      (re_finditer r s).

(** The first loop: the ids each page defines. *)
Fixpoint collect_ids (files : list (str * str)) (ids_by_file : dict (list str))
  : dict (list str) :=
  match files with
  | [] => ids_by_file
  | (name, content) :: files' =>
      collect_ids files'
        (dict_set ids_by_file name (set_of_list (findall1 re_id content)))
  end.

(** [ids_by_file.get(target_file, set())] *)
Definition ids_of (ids_by_file : dict (list str)) (target_file : str)
  : list str :=
  match dict_get ids_by_file target_file with
  | Some s => s
  | None => []
  end.

(** A link record: source page, target page, anchor. *)
Definition link := (str * str * str)%type.

Record tally : Type := mkTally {
  total : nat;
  ok : list link;
  broken : list link
}.

(** The inner loop over the links of one page. *)
Fixpoint check_page (ids_by_file : dict (list str)) (src_name : str)
         (links : list (str * str)) (t : tally) : tally :=
  match links with
  | [] => t
  | (target_file, anchor) :: links' =>
      let t := mkTally (S (total t)) (ok t) (broken t) in
      let t :=
        if set_mem anchor (ids_of ids_by_file target_file)
        then mkTally (total t) (ok t ++ [(src_name, target_file, anchor)])
                     (broken t)
        else mkTally (total t) (ok t)
                     (broken t ++ [(src_name, target_file, anchor)]) in
      check_page ids_by_file src_name links' t
  end.

(** The second loop, over the pages in sorted order. *)
Fixpoint check_files (ids_by_file : dict (list str))
         (files : list (str * str)) (t : tally) : tally :=
  match files with
  | [] => t
  | (name, content) :: files' =>
      check_files ids_by_file files'
        (check_page ids_by_file name (findall2 re_anchored_link content) t)
  end.

(** The counting part of the script on a directory given as the names
    and contents of its [*.html] files. *)
Definition check_links (files : list (str * str)) : tally :=
  let ids_by_file := collect_ids files [] in
  check_files ids_by_file (sorted_files files) (mkTally 0 [] []).

(** The lines the script prints.  The list of close matches is kept as
    a list instead of its [repr]. *)
Inductive line : Type :=
| Text (s : str)
| Close (token : str) (close : list str).

Definition broken_lines (ids_by_file : dict (list str)) (l : link)
  : list line :=
  let '(src, tgt, anchor) := l in
  let actual_ids := ids_of ids_by_file tgt in
  let token := split_head "-" anchor in
  let close := firstn 3 (filter (startswith token) actual_ids) in
  Text (lit "  [" ++ src ++ lit "] -> " ++ tgt ++ lit "#" ++ anchor)
  :: match close with
     | [] => []
     | _ :: _ => [Close token close]
     end.

Definition report (files : list (str * str)) : list line :=
  let ids_by_file := collect_ids files [] in
  let t := check_links files in
  [Text (lit "Total anchored links checked: " ++ str_of_nat (total t));
   Text (lit "  OK:     " ++ str_of_nat (length (ok t)));
   Text (lit "  Broken: " ++ str_of_nat (length (broken t)))]
  ++ match broken t with
     | [] => [Text (newline :: lit "All anchored links resolve correctly.")]
     | _ :: _ =>
         Text (newline :: lit "BROKEN links:")
         :: flat_map (broken_lines ids_by_file) (broken t)
     end.

(** * Specification-side notions *)

(** [s.endswith(p)] *)
Definition endswith (p s : str) : bool := startswith (rev p) (rev s).

(** The anchor rule in the words of the specification: of every run of
    hyphens only the last one is kept. *)
Fixpoint collapse_runs (s : str) : str :=
  match s with
  | [] => []
  | c :: s' =>
      if is_hyphen c && match s' with
                        | d :: _ => is_hyphen d
                        | [] => false
                        end
      then collapse_runs s'
      else c :: collapse_runs s'
  end.

(** No two hyphens next to each other. *)
Fixpoint no_double (s : str) : bool :=
  match s with
  | [] => true
  | c :: s' =>
      negb (is_hyphen c && match s' with
                           | d :: _ => is_hyphen d
                           | [] => false
                           end)
      && no_double s'
  end.

(** A pattern that does not look behind the current position. *)
Fixpoint bol_free (r : regex) : bool :=
  match r with
  | BolM => false
  | Grp _ r1 | Opt _ r1 => bol_free r1
  | Seq r1 r2 => bol_free r1 && bol_free r2
  | _ => true
  end.

(** Free of double quotes, of ['#'], of ['>']. *)
Definition quote_free (s : str) : bool := forallb not_dquote s.
Definition hash_free (s : str) : bool :=
  forallb (fun c => negb (Ascii.eqb c "#")) s.
Definition gt_free (s : str) : bool := forallb not_gt s.

(** The value of an [href] attribute read at the extension: the text is
    [.md] and then either ends, or goes on with ['#'] and a fragment. *)
Definition md_tail (u : str) : option (option str) :=
  if startswith (lit ".md") u then
    match skipn 3 u with
    | [] => Some None
    | c :: f => if Ascii.eqb c "#" then Some (Some f) else None
    end
  else None.

(** The first place of [v], after [a], where the extension can be read. *)
Fixpoint md_find (a v : str) : option (str * option str) :=
  match md_tail v with
  | Some fr => Some (a, fr)
  | None =>
      match v with
      | [] => None
      | c :: v' => md_find (a ++ [c]) v'
      end
  end.

(** The shortest non-empty path of [v] followed by the extension, with
    the fragment when there is one. *)
Definition md_split (v : str) : option (str * option str) :=
  match v with
  | [] => None
  | c :: v' => md_find [c] v'
  end.

(** The [href] value the link rewrite produces for the value [v]. *)
Definition retarget (v : str) : str :=
  match md_split v with
  | Some (path, None) => path ++ lit ".html"
  | Some (path, Some f) => path ++ lit ".html" ++ lit "#" ++ _normalize_anchor f
  | None => v
  end.

(** An [href] attribute with the value [v]. *)
Definition href_attr (v : str) : str := href_open ++ v ++ [dquote].

(** The pattern of [rewrite_md_links] after the path. *)
Definition md_rest : regex :=
  seqs [Lit (lit ".md");
        Opt false (Grp 2 (Seq (Lit (lit "#")) (Rep not_dquote 0 true)));
        Lit [dquote]].

(** What [md_rest] yields once [path] has been read into group 1. *)
Definition md_result (path : str) (fr : option str) : mres :=
  match fr with
  | None => (href_open ++ path ++ lit ".md" ++ [dquote], [(1, path)])
  | Some f =>
      (href_open ++ path ++ lit ".md" ++ (lit "#" ++ f) ++ [dquote],
       [(2, lit "#" ++ f); (1, path)])
  end.

(** The match of the whole pattern for a split of the value. *)
Definition md_out (r : option (str * option str)) : option mres :=
  match r with
  | Some (path, fr) => Some (md_result path fr)
  | None => None
  end.

(** The first character, if any, is in the class. *)
Definition head_is (p : ascii -> bool) (s : str) : bool :=
  match s with
  | c :: _ => p c
  | [] => false
  end.

(** An anchor tag whose first attribute is [href]: the white space after
    the tag name, the target, the text of the further attributes, the
    inner text. *)
Definition a_tag (ws h attrs inner : str) : str :=
  lit "<a" ++ ws ++ href_open ++ h ++ [dquote] ++ attrs ++ lit ">"
  ++ inner ++ lit "</a>".

(** No anchor tag opens in the text: nowhere [<a] and a white space
    character after it. *)
Fixpoint anchor_free (s : str) : bool :=
  match s with
  | [] => true
  | _ :: s' =>
      negb (startswith (lit "<a") s && head_is is_space (skipn 2 s))
      && anchor_free s'
  end.

(** The target begins with the scheme of an external link. *)
Definition has_scheme (h : str) : bool :=
  startswith (lit "http://") h || startswith (lit "https://") h.

(** The anchor tag the cross-document rewrite writes for a page found in
    the map, and its fallback for a page not found. *)
Definition mapped_link (url inner : str) : str :=
  lit "<a " ++ href_open ++ url ++ [dquote] ++ lit ">" ++ inner ++ lit "</a>".

Definition strong_text (inner : str) : str :=
  lit "<strong>" ++ inner ++ lit "</strong>".

(** The path segment of the page URL, character by character: a space
    is written ['+'], any other character as [quote] writes it. *)
Definition slug_char (c : ascii) : str :=
  if Ascii.eqb c " " then lit "+" else quote url_safe [c].

(** The fixed part of the page URL. *)
Definition url_prefix : str :=
  lit "https://rezolvetech.atlassian.net/wiki/display/RAIL/".

(** No place of the piece reads "%20", and a ['%'] has two characters of
    the piece after it. *)
Fixpoint safe_piece (t : str) : bool :=
  match t with
  | [] => true
  | c :: t' =>
      negb (startswith (lit "%20") t)
      && negb (Ascii.eqb "%" c && (length t <? 3))
      && safe_piece t'
  end.

(** Every link record of the generated pages, in the order the checker
    meets them. *)
Definition page_links (f : str * str) : list link :=
  map (fun l => (fst f, fst l, snd l)) (findall2 re_anchored_link (snd f)).

Definition all_links (files : list (str * str)) : list link :=
  flat_map page_links (sorted_files files).

(** The anchor of the link is among the ids of its target page. *)
Definition link_ok (ids_by_file : dict (list str)) (l : link) : bool :=
  set_mem (snd l) (ids_of ids_by_file (snd (fst l))).

(** The two pages of the end-to-end example. *)
Definition page_A : str * str :=
  (lit "A.html",
   lit "<p><a " ++ href_open ++ lit "B.html#missing-id" ++ [dquote]
   ++ lit ">see B</a></p>").

Definition page_B : str * str :=
  (lit "B.html",
   lit "<h2 id=" ++ [dquote] ++ lit "other-id" ++ [dquote]
   ++ lit ">Other</h2>").

(** No proper end of the needle is also a beginning of it, so two
    occurrences cannot overlap. *)
Definition unbordered (n : str) : bool :=
  forallb (fun i => negb (startswith (skipn i n) n)) (seq 1 (length n - 1)).

(** The token that stands for the first diagram of a document. *)
Definition key0 : str := lit "MERMAID_PLACEHOLDER_0_END".

(** The bytes UTF-8 has for code points below 256: a byte below 192, or
    one of the lead bytes 194 and 195. *)
Definition okb (b : byte) : bool :=
  ((b <? 192) || (b =? 194) || (b =? 195))%N.

Definition r256 : list N := map N.of_nat (seq 0 256).

(** The four characters base64 writes for three bytes. *)
Definition enc3 (a b c : byte) : str :=
  [b64_char (N.shiftr a 2);
   b64_char (N.lor (N.shiftl (N.land a 3) 4) (N.shiftr b 4));
   b64_char (N.lor (N.shiftl (N.land b 15) 2) (N.shiftr c 6));
   b64_char (N.land c 63)].

(** The shape of a base64 text of such bytes: full groups, then nothing
    or one last group of four characters. *)
Inductive b64_text : str -> Prop :=
| b64_end : b64_text []
| b64_last (t : str) : length t = 4 -> b64_text t
| b64_group (a b c : byte) (s : str) :
    okb a = true -> okb b = true -> okb c = true ->
    b64_text s -> b64_text (enc3 a b c ++ s).

(** The image block around the base64 text, and the text by which an
    image block is recognized. *)
Definition img_open : str :=
  lit "<img class=" ++ [dquote] ++ lit "mermaid-img" ++ [dquote].

Definition img_head : str :=
  img_open ++ lit " src=" ++ [dquote] ++ lit "https://mermaid.ink/img/".

Definition img_tail : str :=
  lit "?theme=neutral" ++ [dquote] ++ lit " alt=" ++ [dquote]
  ++ lit "Mermaid diagram" ++ [dquote] ++ lit " /".

(** The token as the converter may wrap it. *)
Definition wrapped_key : str := lit "<p>" ++ key0 ++ lit "</p>".

(** A converter for trying the statements out: it puts its input in
    one paragraph. *)
Definition paragraph_converter (text : str) (_ : list string) : outcome str :=
  Ok (lit "<p>" ++ text ++ lit "</p>").

(** The part of the subject a piece of the scan stands for. *)
Definition piece_text (p : piece) : str :=
  match p with
  | Copy c => [c]
  | Hit t _ => t
  end.

(** The target of a matched anchor tag is a same-page anchor or starts
    as [_replace] expects of an external link. *)
Definition passes_through (m : mres) : bool :=
  startswith (lit "#") (group_or_empty 1 (snd m))
  || startswith (lit "http") (group_or_empty 1 (snd m)).

(** A character other than the hyphen. *)
Definition not_hyphen (c : ascii) : bool := negb (is_hyphen c).

(** No string of the list occurs in it twice. *)
Fixpoint distinct (l : list str) : bool :=
  match l with
  | [] => true
  | x :: l' => negb (existsb (str_eqb x) l') && distinct l'
  end.

(** No line of the text begins with ['#'] and a white space character
    after it; [bol] tells whether the text starts at the beginning of a
    line. *)
Fixpoint no_heading_mark (bol : bool) (s : str) : bool :=
  match s with
  | [] => true
  | c :: s' =>
      negb (bol && startswith (lit "#") s && head_is is_space s')
      && no_heading_mark (Ascii.eqb c newline) s'
  end.

(** A link record as the checker takes it from an [href]: the target
    is a non-empty name free of ['#'] and of double quotes followed by
    [.html], the anchor is non-empty and free of double quotes. *)
Definition link_shape (l : link) : bool :=
  let '(_, tgt, anchor) := l in
  endswith (lit ".html") tgt && (5 <? length tgt)
  && forallb not_dquote_hash tgt
  && (0 <? length anchor) && quote_free anchor.

(** The directory has the target page of the link, and the text of that
    page sets the anchor of the link as an [id]. *)
Definition resolves (files : list (str * str)) (l : link) : bool :=
  existsb (fun f => str_eqb (fst f) (snd (fst l))
                    && existsb (str_eqb (snd l)) (findall1 re_id (snd f)))
          files.

(** One of the two texts begins with the other. *)
Definition comparable (a b : str) : bool := startswith a b || startswith b a.

(** The 256 characters. *)
Definition all_ascii : list ascii := map ascii_of_nat (seq 0 256).

(** A character that can stand in a double-quoted attribute value and in
    a URL as it is: a letter, a digit, or one of [- _ = : / . ?]. *)
Definition plain_url_char (c : ascii) : bool :=
  let n := nat_of_ascii c in
  (((65 <=? n) && (n <=? 90)) || ((97 <=? n) && (n <=? 122))
   || ((48 <=? n) && (n <=? 57)))%nat
  || existsb (Ascii.eqb c) (lit "-_=:/.?").

(** The text every token begins with. *)
Definition key_prefix : str := lit "MERMAID_PLACEHOLDER_".

Definition is_digit (c : ascii) : bool :=
  let n := nat_of_ascii c in ((48 <=? n) && (n <=? 57))%nat.

(** The characters a token is made of. *)
Definition key_char (c : ascii) : bool :=
  is_digit c || existsb (Ascii.eqb c) (lit "MERAID_PLCHON").

(** The text begins as a token does: with "ME", or with an ['M'] at its
    end. *)
Definition begins_ME (s : str) : bool :=
  match s with
  | c :: s' => Ascii.eqb c "M" && match s' with
                                  | [] => true
                                  | d :: _ => Ascii.eqb d "E"
                                  end
  | [] => false
  end.

(** Nowhere in the text does a token begin. *)
Fixpoint no_ME (s : str) : bool :=
  match s with
  | [] => true
  | _ :: s' => negb (begins_ME s) && no_ME s'
  end.

(** A document with fenced diagrams: each item is the text before a
    fence and the diagram source in the fence; [tail] is the text after
    the last fence. *)
Fixpoint fenced (blocks : list (str * str)) (tail : str) : str :=
  match blocks with
  | [] => tail
  | (pre, code) :: bs =>
      pre ++ fence_open ++ code ++ fence_close ++ fenced bs tail
  end.

(** The same document with the tokens of diagram [n] and the following
    ones where the fences stood, and the table of these tokens. *)
Fixpoint tokens_for (n : nat) (blocks : list (str * str)) (tail : str)
  : str :=
  match blocks with
  | [] => tail
  | (pre, _) :: bs => pre ++ placeholder_key n ++ tokens_for (S n) bs tail
  end.

Fixpoint key_table (n : nat) (blocks : list (str * str)) : dict str :=
  match blocks with
  | [] => []
  | (_, code) :: bs =>
      (placeholder_key n, mermaid_block (strip is_space code))
      :: key_table (S n) bs
  end.

(** No fence opens in the text before the fence, and the closing fence
    is the first one after the opener. *)
Definition well_fenced (b : str * str) : bool :=
  negb (occurs fence_open (fst b))
  && negb (occurs fence_close (snd b ++ lit "``")).

(** The token of diagram [n] as the converter returns it: wrapped in a
    paragraph of its own, or bare. *)
Definition token (n : nat) (wrapped : bool) : str :=
  if wrapped then lit "<p>" ++ placeholder_key n ++ lit "</p>"
  else placeholder_key n.

(** HTML with the tokens of diagram [n] and the following ones in their
    order: each item is the HTML before a token and the form of the
    token; [tail] is the HTML after the last token. *)
Fixpoint html_tokens (n : nat) (items : list (str * bool)) (tail : str)
  : str :=
  match items with
  | [] => tail
  | (h, w) :: its => h ++ token n w ++ html_tokens (S n) its tail
  end.

(** The same HTML with the image blocks of the diagrams. *)
Fixpoint html_images (items : list (str * bool)) (blocks : list (str * str))
         (tail : str) : str :=
  match items, blocks with
  | (h, _) :: its, (_, code) :: bs =>
      h ++ mermaid_block (strip is_space code) ++ html_images its bs tail
  | _, _ => tail
  end.

(** The HTML before a token holds no token text, and a bare token does
    not stand right after the opening of a paragraph. *)
Definition token_place (it : str * bool) : bool :=
  negb (occurs key_prefix (fst it))
  && (snd it || negb (endswith (lit "<p>") (fst it))).

(** * The matcher and the scanner *)

Section Engine.

Lemma rep_greedy_ext cls (k k' : str -> str -> option mres) :
  (forall t s, k t s = k' t s) ->
  forall s min, rep_greedy cls min k s = rep_greedy cls min k' s.
Proof.
  intros E s. revert k k' E.
  induction s as [|c s IH]; intros k k' E min; simpl.
  - now rewrite E.
  - rewrite (IH (fun t r => k (c :: t) r) (fun t r => k' (c :: t) r))
      by (intros; apply E).
    now rewrite E.
Qed.

Lemma rep_lazy_ext cls (k k' : str -> str -> option mres) :
  (forall t s, k t s = k' t s) ->
  forall s min, rep_lazy cls min k s = rep_lazy cls min k' s.
Proof.
  intros E s. revert k k' E.
  induction s as [|c s IH]; intros k k' E min; simpl.
  - now rewrite E.
  - rewrite (IH (fun t r => k (c :: t) r) (fun t r => k' (c :: t) r))
      by (intros; apply E).
    now rewrite E.
Qed.

(** A pattern without [^] gives the same result whatever precedes the
    position, and the matcher respects equal continuations. *)
Lemma rmatch_ext r :
  bol_free r = true ->
  forall (k k' : kont) p p' s c,
    (forall t s' c', k t s' c' = k' t s' c') ->
    rmatch r k p s c = rmatch r k' p' s c.
Proof.
  induction r as [l|cls min g|n r IH|g r IH|r1 IH1 r2 IH2| |];
    simpl; intros B k k' p p' s c E; try discriminate.
  - now rewrite E.
  - destruct g; [apply rep_greedy_ext | apply rep_lazy_ext];
      intros; apply E.
  - apply IH; [assumption|]. intros; apply E.
  - destruct g; rewrite (IH B k k' p p' s c E), E; reflexivity.
  - apply andb_prop in B as [B1 B2].
    apply IH1; [assumption|]. intros t1 s1 c1.
    apply IH2; [assumption|]. intros; apply E.
  - now rewrite E.
Qed.

Lemma match_at_prev r p p' s :
  bol_free r = true -> match_at r p s = match_at r p' s.
Proof. intros B. unfold match_at. now apply rmatch_ext. Qed.

Lemma scan_prev r :
  bol_free r = true ->
  forall s n p p', scan r n p s = scan r n p' s.
Proof.
  intros B. induction s as [|c s IH]; intros n p p'.
  - destruct n; simpl; [|reflexivity].
    now rewrite (match_at_prev r p p' [] B).
  - destruct n; simpl; [|reflexivity].
    now rewrite (match_at_prev r p p' (c :: s) B).
Qed.

(** Skipping the characters a match covers. *)
Lemma scan_skip r t rest :
  forall p, exists p', scan r (length t) p (t ++ rest) = scan r 0 p' rest.
Proof.
  induction t as [|c t IH]; intros p; simpl.
  - now exists p.
  - apply IH.
Qed.

Lemma scan_hit r p c t rest g :
  bol_free r = true ->
  match_at r p (c :: t ++ rest) = Some (c :: t, g) ->
  scan r 0 p (c :: t ++ rest) = Hit (c :: t) g :: scan r 0 None rest.
Proof.
  intros B H. simpl. rewrite H. f_equal.
  destruct (scan_skip r t rest (Some c)) as [p' ->].
  now apply scan_prev.
Qed.

Lemma scan_miss r p c s :
  bol_free r = true ->
  match_at r p (c :: s) = None ->
  scan r 0 p (c :: s) = Copy c :: scan r 0 None s.
Proof.
  intros B H. simpl. rewrite H. f_equal. now apply scan_prev.
Qed.

Lemma re_sub_nil r f :
  match_at r None [] = None -> re_sub r f [] = [].
Proof. unfold re_sub. simpl. now intros ->. Qed.

Lemma re_sub_hit r f c t rest g :
  bol_free r = true ->
  match_at r None (c :: t ++ rest) = Some (c :: t, g) ->
  re_sub r f (c :: t ++ rest) = f (c :: t) g ++ re_sub r f rest.
Proof.
  intros B H. unfold re_sub. now rewrite (scan_hit r None c t rest g B H).
Qed.

Lemma re_sub_miss r f c s :
  bol_free r = true ->
  match_at r None (c :: s) = None ->
  re_sub r f (c :: s) = c :: re_sub r f s.
Proof.
  intros B H. unfold re_sub. now rewrite (scan_miss r None c s B H).
Qed.

(** Text in which no match starts is copied. *)
Lemma re_sub_copy r f pre rest :
  bol_free r = true ->
  (forall a b, pre = a ++ b -> b <> [] ->
               match_at r None (b ++ rest) = None) ->
  re_sub r f (pre ++ rest) = pre ++ re_sub r f rest.
Proof.
  intros B. induction pre as [|c pre IH]; intros H; [reflexivity|].
  simpl. rewrite re_sub_miss; [|assumption|].
  - f_equal. apply IH. intros a b -> Hb.
    apply (H (c :: a) b); [reflexivity|assumption].
  - apply (H [] (c :: pre)); [reflexivity|discriminate].
Qed.

End Engine.

(** * Anchor normalization *)

Section Anchors.

Lemma is_hyphen_eq c : is_hyphen c = true -> c = "-".
Proof. unfold is_hyphen. now rewrite Ascii.eqb_eq. Qed.

Lemma lstrip_head p s : head_is p (lstrip p s) = false.
Proof.
  induction s as [|c s IH]; simpl; [reflexivity|].
  destruct (p c) eqn:E; [assumption|]. simpl. exact E.
Qed.

Lemma lstrip_hyphen_split s :
  exists n, s = repeat "-" n ++ lstrip is_hyphen s.
Proof.
  induction s as [|c s [n IH]]; simpl.
  - now exists 0.
  - destruct (is_hyphen c) eqn:E.
    + apply is_hyphen_eq in E. subst c. exists (S n). simpl. now f_equal.
    + now exists 0.
Qed.

Lemma rep_greedy_hyphens n :
  forall min (f : str -> str) rest,
    head_is is_hyphen rest = false ->
    rep_greedy is_hyphen min (fun t _ => Some (f t, [])) (repeat "-" n ++ rest)
    = if min <=? n then Some (f (repeat "-" n), []) else None.
Proof.
  induction n as [|n IH]; intros min f rest H; simpl.
  - destruct rest as [|c rest]; simpl in *.
    + now destruct min.
    + rewrite H. now destruct min.
  - pose proof (IH (Nat.pred min) (fun t => f ("-" :: t)) rest H) as E.
    cbv beta in E. rewrite E. clear E.
    destruct min as [|min]; simpl; [reflexivity|].
    now destruct (min <=? n).
Qed.

Lemma match_hyphens p n rest :
  head_is is_hyphen rest = false ->
  match_at re_hyphens p (repeat "-" n ++ rest)
  = if 2 <=? n then Some (repeat "-" n, []) else None.
Proof.
  intros H. unfold match_at, re_hyphens. simpl rmatch.
  exact (rep_greedy_hyphens n 2 (fun t => t) rest H).
Qed.

Lemma collapse_run n rest :
  head_is is_hyphen rest = false ->
  collapse_runs (repeat "-" (S n) ++ rest) = "-" :: collapse_runs rest.
Proof.
  intros H. induction n as [|n IH].
  - simpl. destruct rest as [|c rest]; [reflexivity|].
    simpl in H. now rewrite H.
  - change (repeat "-" (S (S n)) ++ rest)
      with ("-" :: repeat "-" (S n) ++ rest).
    remember (repeat "-" (S n) ++ rest) as u.
    simpl. rewrite Hequ at 1. simpl. now rewrite <- IH.
Qed.

(** The substitution of the pattern is the rule of the specification. *)
Lemma sub_hyphens_collapse s :
  re_sub re_hyphens (fun _ _ => lit "-") s = collapse_runs s.
Proof.
  remember (length s) as n eqn:Hn.
  assert (Hle : length s <= n) by lia. clear Hn.
  revert s Hle. induction n as [|n IH]; intros s Hle.
  - destruct s; [|simpl in Hle; lia].
    apply re_sub_nil. reflexivity.
  - destruct s as [|c s]; [apply re_sub_nil; reflexivity|].
    simpl in Hle.
    destruct (is_hyphen c) eqn:Ec.
    + apply is_hyphen_eq in Ec. subst c.
      destruct (lstrip_hyphen_split s) as [m Hm].
      pose proof (lstrip_head is_hyphen s) as Hh.
      set (rest := lstrip is_hyphen s) in *.
      assert (Hlen : length rest <= n).
      { rewrite Hm in Hle. rewrite length_app in Hle. lia. }
      rewrite Hm.
      change ("-" :: repeat "-" m ++ rest)
        with (repeat "-" (S m) ++ rest).
      rewrite (collapse_run m rest Hh).
      pose proof (match_hyphens None (S m) rest Hh) as M.
      destruct m as [|m].
      * simpl in M. simpl app.
        rewrite (re_sub_miss re_hyphens _ "-" rest eq_refl M).
        f_equal. now apply IH.
      * simpl Nat.leb in M.
        change (repeat "-" (S (S m)) ++ rest)
          with ("-" :: repeat "-" (S m) ++ rest) in *.
        rewrite (re_sub_hit re_hyphens _ "-" (repeat "-" (S m)) rest []
                            eq_refl M).
        simpl. f_equal. now apply IH.
    + rewrite re_sub_miss.
      * simpl. rewrite Ec. simpl. f_equal. apply IH. lia.
      * reflexivity.
      * unfold match_at, re_hyphens. simpl. now rewrite Ec.
Qed.

Lemma normalize_collapse s :
  _normalize_anchor s = strip is_hyphen (collapse_runs s).
Proof. unfold _normalize_anchor. now rewrite sub_hyphens_collapse. Qed.

(** [no_double] says that the two-hyphen text does not occur. *)
Lemma no_double_spec s :
  no_double s = true <-> forall a b, s <> a ++ "-" :: "-" :: b.
Proof.
  induction s as [|c s IH]; simpl.
  - split; [|reflexivity]. intros _ [|? ?] b; discriminate.
  - rewrite andb_true_iff, negb_true_iff, IH. split.
    + intros [H1 H2] [|x a] b E.
      * injection E as -> ->. simpl in H1. discriminate.
      * injection E as -> E. now apply (H2 a b).
    + intros H. split.
      * destruct (is_hyphen c) eqn:Ec; [|reflexivity].
        destruct s as [|d s]; [reflexivity|]. simpl.
        destruct (is_hyphen d) eqn:Ed; [|reflexivity].
        apply is_hyphen_eq in Ec, Ed. subst.
        now destruct (H [] s).
      * intros a b ->. now apply (H (c :: a) b).
Qed.

Lemma no_double_rev s : no_double s = true -> no_double (rev s) = true.
Proof.
  rewrite !no_double_spec. intros H a b E.
  apply (H (rev b) (rev a)).
  rewrite <- (rev_involutive s), E, rev_app_distr. simpl.
  now rewrite <- !app_assoc.
Qed.

Lemma lstrip_suffix p s : exists a, s = a ++ lstrip p s.
Proof.
  induction s as [|c s [a IH]]; simpl.
  - now exists [].
  - destruct (p c); [|now exists []].
    exists (c :: a). simpl. now f_equal.
Qed.

Lemma rstrip_prefix p s : exists b, s = rstrip p s ++ b.
Proof.
  unfold rstrip. destruct (lstrip_suffix p (rev s)) as [a E].
  exists (rev a). rewrite <- rev_app_distr, <- E. now rewrite rev_involutive.
Qed.

Lemma no_double_lstrip p s :
  no_double s = true -> no_double (lstrip p s) = true.
Proof.
  rewrite !no_double_spec. intros H a b E.
  destruct (lstrip_suffix p s) as [x Hx].
  apply (H (x ++ a) b). rewrite Hx at 1. rewrite E.
  now rewrite <- app_assoc.
Qed.

Lemma no_double_strip p s :
  no_double s = true -> no_double (strip p s) = true.
Proof.
  intros H. unfold strip, rstrip.
  now apply no_double_rev, no_double_lstrip, no_double_rev,
    no_double_lstrip.
Qed.

Lemma strip_last p s : head_is p (rev (strip p s)) = false.
Proof.
  unfold strip, rstrip. rewrite rev_involutive. apply lstrip_head.
Qed.

Lemma strip_head p s : head_is p (strip p s) = false.
Proof.
  unfold strip. pose proof (lstrip_head p s) as H.
  destruct (rstrip_prefix p (lstrip p s)) as [b E].
  destruct (rstrip p (lstrip p s)) as [|c t]; [reflexivity|].
  rewrite E in H. exact H.
Qed.

Lemma lstrip_id p s : head_is p s = false -> lstrip p s = s.
Proof. destruct s as [|c s]; simpl; [reflexivity|]. now intros ->. Qed.

Lemma strip_id p s :
  head_is p s = false -> head_is p (rev s) = false -> strip p s = s.
Proof.
  intros H1 H2. unfold strip, rstrip.
  now rewrite (lstrip_id p s H1), (lstrip_id p (rev s) H2), rev_involutive.
Qed.

Lemma collapse_head s :
  head_is is_hyphen (collapse_runs s) = head_is is_hyphen s.
Proof.
  induction s as [|c s IH]; [reflexivity|].
  change (collapse_runs (c :: s))
    with (if is_hyphen c && head_is is_hyphen s
          then collapse_runs s else c :: collapse_runs s).
  destruct (is_hyphen c) eqn:Ec, (head_is is_hyphen s) eqn:Es; simpl;
    congruence.
Qed.

Lemma collapse_no_double s : no_double (collapse_runs s) = true.
Proof.
  induction s as [|c s IH]; [reflexivity|].
  change (collapse_runs (c :: s))
    with (if is_hyphen c && head_is is_hyphen s
          then collapse_runs s else c :: collapse_runs s).
  destruct (is_hyphen c && head_is is_hyphen s) eqn:E; [assumption|].
  change (no_double (c :: collapse_runs s))
    with (negb (is_hyphen c && head_is is_hyphen (collapse_runs s))
          && no_double (collapse_runs s)).
  now rewrite collapse_head, E, IH.
Qed.

Lemma collapse_id s : no_double s = true -> collapse_runs s = s.
Proof.
  induction s as [|c s IH]; simpl; [reflexivity|].
  rewrite andb_true_iff, negb_true_iff. intros [-> H].
  now rewrite IH.
Qed.

Lemma no_double_occurs s :
  no_double s = true -> occurs (lit "--") s = false.
Proof.
  change (lit "--") with ["-"; "-"].
  induction s as [|c s IH]; [reflexivity|].
  change (occurs ["-"; "-"] (c :: s))
    with (startswith ["-"; "-"] (c :: s) || occurs ["-"; "-"] s).
  change (no_double (c :: s))
    with (negb (is_hyphen c && head_is is_hyphen s) && no_double s).
  rewrite andb_true_iff, negb_true_iff. intros [H1 H2].
  rewrite (IH H2), orb_false_r.
  change (startswith ["-"; "-"] (c :: s))
    with (Ascii.eqb "-" c && startswith ["-"] s).
  rewrite (Ascii.eqb_sym "-" c). fold (is_hyphen c).
  destruct (is_hyphen c); [|reflexivity].
  destruct s as [|d s]; [reflexivity|].
  change (startswith ["-"] (d :: s)) with (Ascii.eqb "-" d && true).
  rewrite (Ascii.eqb_sym "-" d). fold (is_hyphen d).
  simpl in H1. now rewrite H1.
Qed.

Lemma head_startswith s :
  head_is is_hyphen s = false -> startswith (lit "-") s = false.
Proof.
  destruct s as [|c s]; [reflexivity|].
  change (startswith (lit "-") (c :: s)) with (Ascii.eqb "-" c && true).
  rewrite (Ascii.eqb_sym "-" c). fold (is_hyphen c). simpl.
  now intros ->.
Qed.

End Anchors.

(** C1.  Anchor normalization is idempotent: normalizing an already
    normalized anchor changes nothing, for every input string. *)
Theorem normalize_anchor_idempotent (s : str) :
  _normalize_anchor (_normalize_anchor s) = _normalize_anchor s.
Proof.
  rewrite (normalize_collapse (_normalize_anchor s)).
  rewrite (normalize_collapse s).
  set (t := strip is_hyphen (collapse_runs s)).
  assert (D : no_double t = true)
    by apply no_double_strip, collapse_no_double.
  rewrite (collapse_id t D).
  apply strip_id; [apply strip_head | apply strip_last].
Qed.

(** C2.  Anchor normalization collapses every run of two or more hyphens
    into one hyphen and trims the hyphens at both ends: it is the rule
    [collapse_runs] followed by the trimming; "a----b" becomes "a-b" and
    "-lead-trail-" becomes "lead-trail"; and for every input the output
    has no two hyphens in a row and neither starts nor ends with one. *)
Theorem normalize_anchor_collapses :
  _normalize_anchor (lit "a----b") = lit "a-b" /\
  _normalize_anchor (lit "-lead-trail-") = lit "lead-trail" /\
  forall s : str,
    _normalize_anchor s = strip is_hyphen (collapse_runs s) /\
    occurs (lit "--") (_normalize_anchor s) = false /\
    startswith (lit "-") (_normalize_anchor s) = false /\
    endswith (lit "-") (_normalize_anchor s) = false.
Proof.
  split; [reflexivity|]. split; [reflexivity|]. intros s.
  split; [apply normalize_collapse|].
  rewrite (normalize_collapse s).
  split; [|split].
  - apply no_double_occurs, no_double_strip, collapse_no_double.
  - apply head_startswith, strip_head.
  - unfold endswith. apply head_startswith, strip_last.
Qed.

(** * Strings *)

Section Strings.

Lemma startswith_app p r : startswith p (p ++ r) = true.
Proof.
  induction p as [|a p IH]; simpl; [reflexivity|].
  now rewrite Ascii.eqb_refl.
Qed.

Lemma startswith_elim p s :
  startswith p s = true -> s = p ++ skipn (length p) s.
Proof.
  revert s. induction p as [|a p IH]; intros [|b s]; simpl;
    try reflexivity; try discriminate.
  rewrite andb_true_iff, Ascii.eqb_eq. intros [-> H].
  f_equal. now apply IH.
Qed.

Lemma skipn_app_len (p r : str) : skipn (length p) (p ++ r) = r.
Proof. induction p; simpl; auto. Qed.

(** The place of the first character outside a class is determined. *)
Lemma split_unique cls c (a a' b b' : str) :
  forallb cls a = true -> forallb cls a' = true -> cls c = false ->
  a ++ c :: b = a' ++ c :: b' -> a = a' /\ b = b'.
Proof.
  intros Ha Ha' Hc. revert a' Ha'.
  induction a as [|x a IH]; intros [|y a'] Ha' E; simpl in *.
  - injection E as E. now split.
  - injection E as -> E. apply andb_prop in Ha' as [F _]. congruence.
  - injection E as -> E. apply andb_prop in Ha as [F _]. congruence.
  - injection E as -> E.
    apply andb_prop in Ha as [_ Ha]. apply andb_prop in Ha' as [_ Ha'].
    destruct (IH Ha a' Ha' E) as [-> ->]. now split.
Qed.

(** A literal free of [c] is read before [c] or not at all. *)
Lemma startswith_before l c (u post : str) :
  ~ In c l -> startswith l (u ++ c :: post) = startswith l u.
Proof.
  revert u. induction l as [|a l IH]; intros u H; [reflexivity|].
  destruct u as [|b u]; simpl.
  - destruct (Ascii.eqb a c) eqn:E; [|reflexivity].
    apply Ascii.eqb_eq in E. subst. destruct H. now left.
  - rewrite IH; [reflexivity|]. intros F. apply H. now right.
Qed.

Lemma rep_greedy_max cls c (f post : str) x :
  forallb cls f = true -> cls c = false ->
  forall (k : str -> str -> option mres) min,
    min <= length f ->
    k f (c :: post) = Some x ->
    rep_greedy cls min k (f ++ c :: post) = Some x.
Proof.
  intros Hf Hc. induction f as [|a f IH]; intros k min Hm Hk; simpl in *.
  - rewrite Hc. replace min with 0 by lia. exact Hk.
  - apply andb_prop in Hf as [-> Hf].
    rewrite (IH Hf (fun t r => k (a :: t) r) (Nat.pred min));
      [reflexivity|lia|exact Hk].
Qed.

Lemma occurs_suffix needle (a b : str) :
  occurs needle (a ++ b) = false -> occurs needle b = false.
Proof.
  induction a as [|x a IH]; [trivial|].
  change ((x :: a) ++ b) with (x :: a ++ b). cbn [occurs].
  intros H. apply orb_false_elim in H as [_ H]. now apply IH.
Qed.

Lemma occurs_head needle (s : str) :
  occurs needle s = false -> startswith needle s = false.
Proof.
  destruct s; cbn [occurs]; intros H; now apply orb_false_elim in H as [H _].
Qed.

Lemma endswith_app p a : endswith p (a ++ p) = true.
Proof. unfold endswith. rewrite rev_app_distr. apply startswith_app. Qed.

End Strings.

(** * Occurrences of a text, [str.replace] *)

Section Needles.

Lemma occurs_iff n s :
  occurs n s = true <-> exists l r, s = l ++ n ++ r.
Proof.
  split.
  - induction s as [|c s IH]; cbn [occurs]; rewrite orb_true_iff.
    + intros [H|H]; [|discriminate].
      apply startswith_elim in H. now exists [], (skipn (length n) []).
    + intros [H|H].
      * apply startswith_elim in H. now exists [], (skipn (length n) (c :: s)).
      * destruct (IH H) as [l [r ->]]. now exists (c :: l), r.
  - intros [l [r ->]]. induction l as [|c l IH].
    + pose proof (startswith_app n r) as H. simpl app.
      destruct (n ++ r); cbn [occurs]; now rewrite H.
    + change ((c :: l) ++ n ++ r) with (c :: l ++ n ++ r). cbn [occurs].
      now rewrite IH, orb_true_r.
Qed.

Lemma occurs_app_copy n (a b : str) :
  (forall a1 a2, a = a1 ++ a2 -> a2 <> [] ->
                 startswith n (a2 ++ b) = false) ->
  occurs n (a ++ b) = occurs n b.
Proof.
  induction a as [|c a IH]; intros H; [reflexivity|].
  change ((c :: a) ++ b) with (c :: a ++ b). cbn [occurs].
  change (c :: a ++ b) with ((c :: a) ++ b).
  rewrite (H [] (c :: a) eq_refl) by discriminate.
  apply IH. intros a1 a2 -> Ha. now apply (H (c :: a1) a2).
Qed.

Lemma replace_from_skip old new (t b : str) :
  replace_from old new (length t) (t ++ b) = replace_from old new 0 b.
Proof. induction t as [|c t IH]; [reflexivity|exact IH]. Qed.

Lemma replace_copy old new (a b : str) :
  (forall a1 a2, a = a1 ++ a2 -> a2 <> [] ->
                 startswith old (a2 ++ b) = false) ->
  replace old new (a ++ b) = a ++ replace old new b.
Proof.
  unfold replace. induction a as [|c a IH]; intros H; [reflexivity|].
  change ((c :: a) ++ b) with (c :: a ++ b). cbn [replace_from].
  change (c :: a ++ b) with ((c :: a) ++ b).
  rewrite (H [] (c :: a) eq_refl) by discriminate.
  cbn [app]. f_equal. apply IH.
  intros a1 a2 -> Ha. now apply (H (c :: a1) a2).
Qed.

Lemma replace_hit old new (b : str) :
  old <> [] -> replace old new (old ++ b) = new ++ replace old new b.
Proof.
  intros H. unfold replace. destruct old as [|c old]; [congruence|].
  change ((c :: old) ++ b) with (c :: old ++ b). cbn [replace_from].
  change (c :: old ++ b) with ((c :: old) ++ b).
  rewrite startswith_app. cbn [length Nat.pred].
  now rewrite replace_from_skip.
Qed.

Lemma no_start_free n (s : str) :
  occurs n s = false ->
  forall a1 a2, s = a1 ++ a2 -> startswith n a2 = false.
Proof.
  intros O a1 a2 ->. now apply occurs_head, (occurs_suffix n a1).
Qed.

Lemma replace_none old new (s : str) :
  occurs old s = false -> replace old new s = s.
Proof.
  intros O. rewrite <- (app_nil_r s) at 1.
  rewrite replace_copy; [now rewrite app_nil_r|].
  intros a1 a2 E _. rewrite app_nil_r. exact (no_start_free old s O a1 a2 E).
Qed.

(** Before a character foreign to the needle no occurrence begins. *)
Lemma no_start_char n c (a b : str) :
  occurs n a = false -> ~ In c n ->
  forall a1 a2, a = a1 ++ a2 -> a2 <> [] ->
                startswith n (a2 ++ c :: b) = false.
Proof.
  intros O H a1 a2 E _. rewrite startswith_before by exact H.
  exact (no_start_free n a O a1 a2 E).
Qed.

(** In a text free of the first character of the needle no occurrence
    begins. *)
Lemma no_start_first x n (a b : str) :
  forallb (fun c => negb (Ascii.eqb x c)) a = true ->
  forall a1 a2, a = a1 ++ a2 -> a2 <> [] ->
                startswith (x :: n) (a2 ++ b) = false.
Proof.
  intros F a1 a2 -> Ha. rewrite forallb_app in F.
  apply andb_prop in F as [_ F]. destruct a2 as [|c a2]; [congruence|].
  simpl in F. apply andb_prop in F as [F _]. apply negb_true_iff in F.
  change ((c :: a2) ++ b) with (c :: a2 ++ b). cbn [startswith].
  now rewrite F.
Qed.

Lemma unbordered_spec n i :
  unbordered n = true -> 1 <= i -> i < length n ->
  startswith (skipn i n) n = false.
Proof.
  unfold unbordered. rewrite forallb_forall. intros U H1 H2.
  apply negb_true_iff, (U i), in_seq. lia.
Qed.

(** A second occurrence of an unbordered needle begins after the end
    of the first. *)
Lemma second_occurrence n (l x y : str) :
  unbordered n = true -> l <> [] -> n ++ x = l ++ n ++ y ->
  exists l', l = n ++ l'.
Proof.
  intros U Hl E. apply app_eq_app in E as [m [[E1 E2]|[E1 E2]]];
    [|now exists m].
  destruct m as [|c m].
  { rewrite app_nil_r in E1. subst l. exists []. now rewrite app_nil_r. }
  exfalso.
  assert (Ln : length n = length l + length (c :: m))
    by (rewrite E1 at 1; apply length_app).
  apply app_eq_app in E2 as [m' [[F1 F2]|[F1 F2]]].
  - assert (S1 : startswith (c :: m) n = true)
      by (rewrite F1; apply startswith_app).
    assert (S2 : skipn (length l) n = c :: m)
      by (rewrite E1 at 1; apply skipn_app_len).
    rewrite <- S2 in S1.
    rewrite unbordered_spec in S1; [discriminate|exact U| |].
    + destruct l; [congruence|simpl; lia].
    + simpl in Ln. lia.
  - apply (f_equal (@length ascii)) in F1. rewrite length_app in F1.
    destruct l; [congruence|]. simpl in *. lia.
Qed.

Lemma no_start_unbordered n (a rest : str) :
  unbordered n = true -> occurs n a = false ->
  forall a1 a2, a = a1 ++ a2 -> a2 <> [] ->
                startswith n (a2 ++ n ++ rest) = false.
Proof.
  intros U O a1 a2 -> Ha.
  destruct (startswith n (a2 ++ n ++ rest)) eqn:E; [|reflexivity].
  apply startswith_elim in E. symmetry in E.
  apply second_occurrence in E as [l' ->]; [|exact U|exact Ha].
  assert (X : occurs n (a1 ++ n ++ l') = true)
    by (apply occurs_iff; now exists a1, l').
  congruence.
Qed.

Lemma unique_occurrence n (a b a' b' : str) :
  unbordered n = true -> occurs n a = false -> occurs n b = false ->
  a ++ n ++ b = a' ++ n ++ b' -> a = a' /\ b = b'.
Proof.
  intros U Oa Ob E.
  apply app_eq_app in E as [l [[E1 E2]|[E1 E2]]].
  - destruct l as [|c l].
    + rewrite app_nil_r in E1. simpl app in E2.
      apply app_inv_head in E2. now split.
    + exfalso. apply second_occurrence in E2 as [l' E2];
        [|exact U|discriminate].
      rewrite E2 in E1.
      assert (X : occurs n a = true)
        by (apply occurs_iff; exists a', l'; exact E1).
      congruence.
  - destruct l as [|c l].
    + rewrite app_nil_r in E1. simpl app in E2.
      apply app_inv_head in E2. now split.
    + exfalso. pose proof E2 as E3.
      apply second_occurrence in E3 as [l' E3];
        [|exact U|discriminate].
      rewrite E3, <- app_assoc in E2. apply app_inv_head in E2.
      assert (X : occurs n b = true)
        by (apply occurs_iff; exists l', b'; exact E2).
      congruence.
Qed.

Lemma occurs_inside (u n v s : str) :
  occurs n s = false -> occurs (u ++ n ++ v) s = false.
Proof.
  intros O. destruct (occurs (u ++ n ++ v) s) eqn:E; [|reflexivity].
  apply occurs_iff in E as [l [r ->]].
  assert (X : occurs n (l ++ (u ++ n ++ v) ++ r) = true).
  { apply occurs_iff. exists (l ++ u), (v ++ r).
    now rewrite <- !app_assoc. }
  congruence.
Qed.

End Needles.


(** * Rewriting of links between the documents *)

Section MdLinks.

Lemma md_rest_match (F : str -> str) p u post c :
  quote_free u = true ->
  rmatch md_rest (fun t _ c' => Some (F t, c')) p (u ++ dquote :: post) c
  = match md_tail u with
    | Some None => Some (F (lit ".md" ++ [dquote]), c)
    | Some (Some f) =>
        Some (F (lit ".md" ++ (lit "#" ++ f) ++ [dquote]),
              (2, lit "#" ++ f) :: c)
    | None => None
    end.
Proof.
  intros Q. unfold md_rest, md_tail. cbn [seqs rmatch].
  rewrite startswith_before by (cbv; intuition discriminate).
  destruct (startswith (lit ".md") u) eqn:E; [|reflexivity].
  apply startswith_elim in E. set (u' := skipn (length (lit ".md")) u) in *.
  rewrite E in Q |- *. clearbody u'. clear E.
  rewrite <- app_assoc, skipn_app_len.
  change (skipn 3 (lit ".md" ++ u')) with u'.
  destruct u' as [|x f]; [reflexivity|].
  assert (Qx : Ascii.eqb x dquote = false /\ quote_free f = true).
  { unfold quote_free in *. simpl in Q. apply andb_prop in Q as [Q1 Q2].
    unfold not_dquote in Q1. apply negb_true_iff in Q1. now split. }
  destruct Qx as [Qx Qf].
  change (startswith [dquote] ((x :: f) ++ dquote :: post))
    with (Ascii.eqb dquote x && true).
  change (startswith (lit "#") ((x :: f) ++ dquote :: post))
    with (Ascii.eqb "#" x && true).
  rewrite (Ascii.eqb_sym dquote x), Qx, (Ascii.eqb_sym "#" x).
  cbn [andb orelse].
  destruct (Ascii.eqb x "#"); [|reflexivity].
  change (skipn (length (lit "#")) ((x :: f) ++ dquote :: post))
    with (f ++ dquote :: post).
  apply rep_greedy_max; [exact Qf|reflexivity|apply Nat.le_0_l|].
  reflexivity.
Qed.

Lemma md_lazy0 post v :
  forall a (k : str -> str -> option mres),
    quote_free v = true ->
    (forall t u, quote_free u = true ->
                 k t (u ++ dquote :: post)
                 = md_out (option_map (pair (a ++ t)) (md_tail u))) ->
    rep_lazy not_dquote 0 k (v ++ dquote :: post) = md_out (md_find a v).
Proof.
  induction v as [|x v IH]; intros a k Q Hk.
  - pose proof (Hk [] [] eq_refl) as E.
    change ([] ++ dquote :: post) with (dquote :: post) in *.
    cbn [rep_lazy Nat.eqb]. rewrite E, app_nil_r. reflexivity.
  - change ((x :: v) ++ dquote :: post) with (x :: v ++ dquote :: post).
    cbn [rep_lazy Nat.eqb Nat.pred].
    change (x :: v ++ dquote :: post) with ((x :: v) ++ dquote :: post).
    rewrite (Hk [] (x :: v) Q), app_nil_r.
    cbn [md_find]. destruct (md_tail (x :: v)) as [fr|]; [reflexivity|].
    cbn [option_map md_out orelse].
    unfold quote_free in Q. simpl in Q. apply andb_prop in Q as [-> Q].
    apply IH; [exact Q|]. intros t u Hu.
    rewrite <- app_assoc. exact (Hk (x :: t) u Hu).
Qed.

Lemma md_lazy1 post v (k : str -> str -> option mres) :
  quote_free v = true ->
  (forall t u, quote_free u = true ->
               k t (u ++ dquote :: post)
               = md_out (option_map (pair t) (md_tail u))) ->
  rep_lazy not_dquote 1 k (v ++ dquote :: post) = md_out (md_split v).
Proof.
  intros Q Hk. destruct v as [|x v]; [reflexivity|].
  change ((x :: v) ++ dquote :: post) with (x :: v ++ dquote :: post).
  cbn [rep_lazy Nat.eqb Nat.pred orelse md_split].
  unfold quote_free in Q. simpl in Q. apply andb_prop in Q as [-> Q].
  apply md_lazy0; [exact Q|]. intros t u Hu. exact (Hk (x :: t) u Hu).
Qed.

(** The pattern, tried at an attribute. *)
Lemma md_match p v post :
  quote_free v = true ->
  match_at re_md_link p (href_open ++ v ++ dquote :: post)
  = md_out (md_split v).
Proof.
  intros Q. unfold match_at.
  change re_md_link
    with (Seq (Lit href_open) (Seq (Grp 1 (Rep not_dquote 1 false)) md_rest)).
  cbn [rmatch]. rewrite startswith_app, skipn_app_len.
  apply md_lazy1; [exact Q|]. intros t u Hu.
  rewrite (md_rest_match (fun t2 => href_open ++ t ++ t2) _ u post
                         [(1, t)] Hu).
  now destruct (md_tail u) as [[f|]|].
Qed.

Lemma md_tail_text u fr :
  md_tail u = Some fr ->
  u = lit ".md" ++ match fr with
                   | None => []
                   | Some f => lit "#" ++ f
                   end.
Proof.
  unfold md_tail. destruct (startswith (lit ".md") u) eqn:E; [|discriminate].
  apply startswith_elim in E. change (length (lit ".md")) with 3 in E.
  destruct (skipn 3 u) as [|c f].
  - intros H. injection H as <-. exact E.
  - destruct (Ascii.eqb c "#") eqn:Ec; [|discriminate].
    apply Ascii.eqb_eq in Ec. subst c. intros H. injection H as <-. exact E.
Qed.

Lemma md_find_text v :
  forall a path fr,
    md_find a v = Some (path, fr) ->
    a ++ v = path ++ lit ".md" ++ match fr with
                                  | None => []
                                  | Some f => lit "#" ++ f
                                  end.
Proof.
  induction v as [|x v IH]; intros a path fr; cbn [md_find].
  - destruct (md_tail []) as [fr'|] eqn:E; [|discriminate].
    intros H. injection H as <- <-. now rewrite (md_tail_text [] fr' E) at 1.
  - destruct (md_tail (x :: v)) as [fr'|] eqn:E.
    + intros H. injection H as <- <-.
      now rewrite (md_tail_text (x :: v) fr' E) at 1.
    + intros H. rewrite <- (IH _ _ _ H), <- app_assoc. reflexivity.
Qed.

Lemma md_split_text v path fr :
  md_split v = Some (path, fr) ->
  v = path ++ lit ".md" ++ match fr with
                           | None => []
                           | Some f => lit "#" ++ f
                           end.
Proof.
  destruct v as [|x v]; [discriminate|]. cbn [md_split].
  intros H. now rewrite <- (md_find_text v [x] path fr H).
Qed.

Lemma md_match_lit p s :
  startswith href_open s = false -> match_at re_md_link p s = None.
Proof.
  intros H. unfold match_at, re_md_link. cbn [seqs rmatch]. now rewrite H.
Qed.

Lemma quote_free_app a b :
  quote_free (a ++ b) = quote_free a && quote_free b.
Proof. apply forallb_app. Qed.

Lemma href_open_not_across b post :
  quote_free b = true -> endswith (lit "href=") b = false ->
  startswith href_open (b ++ dquote :: post) = false.
Proof.
  intros Q H. destruct (startswith _ _) eqn:E; [|reflexivity].
  apply startswith_elim in E. set (X := skipn _ _) in E.
  assert (E' : b ++ dquote :: post = lit "href=" ++ dquote :: X)
    by exact E.
  apply (split_unique not_dquote dquote) in E' as [E' _];
    [|exact Q|reflexivity|reflexivity].
  subst b. discriminate.
Qed.

(** Text without the opening of an attribute, before an attribute, is
    copied. *)
Lemma rewrite_md_pre pre rest :
  occurs href_open pre = false ->
  rewrite_md_links (pre ++ href_open ++ rest)
  = pre ++ rewrite_md_links (href_open ++ rest).
Proof.
  intros O. apply re_sub_copy; [reflexivity|]. intros a b E Hb.
  apply md_match_lit.
  now apply (no_start_unbordered href_open pre rest eq_refl O a b).
Qed.

(** An attribute the pattern matches is rewritten, and the scan goes
    on after its closing quote. *)
Lemma rewrite_md_hit v post path fr :
  quote_free v = true -> md_split v = Some (path, fr) ->
  rewrite_md_links (href_attr v ++ post)
  = href_attr (retarget v) ++ rewrite_md_links post.
Proof.
  intros Q S. pose proof (md_match None v post Q) as M.
  rewrite S in M. cbn [md_out] in M.
  assert (W : fst (md_result path fr) = href_attr v).
  { rewrite (md_split_text v path fr S) at 1.
    unfold href_attr. destruct fr; cbn [md_result fst];
      now rewrite ?app_nil_r, <- ?app_assoc. }
  unfold rewrite_md_links, href_attr in *.
  rewrite <- !app_assoc. change ([dquote] ++ post) with (dquote :: post).
  destruct (md_result path fr) as [whole g] eqn:R. cbn [fst] in W. subst whole.
  change (href_open ++ v ++ dquote :: post)
    with ("h" :: (lit "ref=" ++ [dquote]) ++ v ++ dquote :: post) in *.
  replace ((lit "ref=" ++ [dquote]) ++ v ++ dquote :: post)
    with (((lit "ref=" ++ [dquote]) ++ v ++ [dquote]) ++ post) in *
    by (now rewrite <- !app_assoc).
  rewrite (re_sub_hit re_md_link _fix "h" _ post g eq_refl M).
  assert (F : _fix ("h" :: (lit "ref=" ++ [dquote]) ++ v ++ [dquote]) g
              = href_open ++ retarget v ++ [dquote]).
  { unfold retarget. rewrite S.
    destruct fr as [f|]; cbn [md_result] in R; injection R as _ <-;
      unfold _fix; cbn [group_or_empty group Nat.eqb].
    - change (lit "#" ++ f) with ("#" :: f). cbv iota beta.
      now rewrite <- !app_assoc.
    - now rewrite <- !app_assoc. }
  rewrite F. now rewrite <- !app_assoc.
Qed.

(** An attribute the pattern does not match is copied. *)
Lemma rewrite_md_miss v post :
  quote_free v = true -> md_split v = None ->
  endswith (lit "href=") v = false ->
  rewrite_md_links (href_attr v ++ post)
  = href_attr v ++ rewrite_md_links post.
Proof.
  intros Q S H. pose proof (md_match None v post Q) as M.
  rewrite S in M. cbn [md_out] in M.
  unfold rewrite_md_links, href_attr in *.
  rewrite <- !app_assoc. change ([dquote] ++ post) with (dquote :: post).
  change (href_open ++ v ++ dquote :: post)
    with ("h" :: "r" :: "e" :: "f" :: "=" :: dquote
              :: v ++ dquote :: post) in *.
  rewrite (re_sub_miss re_md_link _fix _ _ eq_refl M).
  do 5 (rewrite re_sub_miss; [|reflexivity|apply md_match_lit; reflexivity]).
  change (href_open ++ v ++ dquote :: re_sub re_md_link _fix post)
    with ("h" :: "r" :: "e" :: "f" :: "=" :: dquote
              :: v ++ dquote :: re_sub re_md_link _fix post).
  do 6 f_equal.
  rewrite re_sub_copy; [|reflexivity|].
  - f_equal.
    rewrite re_sub_miss; [reflexivity|reflexivity|].
    apply md_match_lit. reflexivity.
  - intros a b -> Hb. apply md_match_lit.
    rewrite quote_free_app in Q. apply andb_prop in Q as [_ Q].
    apply href_open_not_across; [exact Q|].
    destruct (endswith (lit "href=") b) eqn:E; [|reflexivity].
    unfold endswith in *. rewrite rev_app_distr in H.
    apply startswith_elim in E. rewrite E, <- app_assoc in H.
    now rewrite startswith_app in H.
Qed.

Lemma hash_free_cons x p :
  hash_free (x :: p) = true ->
  Ascii.eqb x "#" = false /\ hash_free p = true.
Proof.
  unfold hash_free. simpl. intros H. apply andb_prop in H as [H1 H2].
  apply negb_true_iff in H1. now split.
Qed.

(** Inside a fragment-free path the extension is never followed by the
    end of the value or by a fragment. *)
Lemma md_tail_none x p tail :
  hash_free (x :: p) = true ->
  md_tail ((x :: p) ++ lit ".md" ++ tail) = None.
Proof.
  intros H. unfold md_tail.
  destruct (startswith _ _); [|reflexivity].
  destruct p as [|y [|z [|w p]]]; try reflexivity.
  apply hash_free_cons in H as [_ H]. apply hash_free_cons in H as [_ H].
  apply hash_free_cons in H as [_ H]. apply hash_free_cons in H as [H _].
  cbn [skipn app]. now rewrite H.
Qed.

Lemma md_find_skip p :
  forall a tail fr,
    hash_free p = true -> md_tail (lit ".md" ++ tail) = Some fr ->
    md_find a (p ++ lit ".md" ++ tail) = Some (a ++ p, fr).
Proof.
  induction p as [|x p IH]; intros a tail fr H T.
  - rewrite app_nil_r.
    change ([] ++ lit ".md" ++ tail) with ("." :: "m" :: "d" :: tail).
    change (lit ".md" ++ tail) with ("." :: "m" :: "d" :: tail) in T.
    cbn [md_find]. now rewrite T.
  - change ((x :: p) ++ lit ".md" ++ tail)
      with (x :: p ++ lit ".md" ++ tail).
    cbn [md_find].
    change (x :: p ++ lit ".md" ++ tail)
      with ((x :: p) ++ lit ".md" ++ tail).
    rewrite (md_tail_none x p tail H).
    apply hash_free_cons in H as [_ H].
    rewrite (IH (a ++ [x]) tail fr H T), <- app_assoc. reflexivity.
Qed.

Lemma md_split_path p tail fr :
  0 < length p -> hash_free p = true ->
  md_tail (lit ".md" ++ tail) = Some fr ->
  md_split (p ++ lit ".md" ++ tail) = Some (p, fr).
Proof.
  destruct p as [|x p]; [simpl; lia|]. intros _ H T.
  apply hash_free_cons in H as [_ H].
  change ((x :: p) ++ lit ".md" ++ tail) with (x :: p ++ lit ".md" ++ tail).
  cbn [md_split]. now rewrite (md_find_skip p [x] tail fr H T).
Qed.

End MdLinks.

(** C3, as the code has it.  An [href] attribute, after text with no
    opening of such an attribute, whose value is a non-empty fragment-free path followed by [.md] is
    rewritten to the same path with [.html]; when a fragment follows, it
    is normalized and attached again; "x.md#Section--One" becomes
    "x.html#Section-One" and "x.md" becomes "x.html".  An attribute whose
    value has no non-empty path followed by [.md] and then the end of the
    value or a fragment, [md_split v = None], is left unchanged (its value
    not ending in the text of an attribute opening).  In each case the
    rewriting goes on with the text after the attribute. *)
Theorem rewrite_md_links_attr (pre p f v post : str) :
  occurs href_open pre = false ->
  0 < length p -> quote_free p = true -> hash_free p = true ->
  quote_free f = true ->
  quote_free v = true -> md_split v = None ->
  endswith (lit "href=") v = false ->
  rewrite_md_links (pre ++ href_attr (p ++ lit ".md") ++ post)
  = pre ++ href_attr (p ++ lit ".html") ++ rewrite_md_links post
  /\ rewrite_md_links (pre ++ href_attr (p ++ lit ".md" ++ lit "#" ++ f) ++ post)
     = pre ++ href_attr (p ++ lit ".html" ++ lit "#" ++ _normalize_anchor f)
           ++ rewrite_md_links post
  /\ rewrite_md_links (pre ++ href_attr v ++ post)
     = pre ++ href_attr v ++ rewrite_md_links post
  /\ rewrite_md_links (href_attr (lit "x.md#Section--One"))
     = href_attr (lit "x.html#Section-One")
  /\ rewrite_md_links (href_attr (lit "x.md")) = href_attr (lit "x.html").
Proof.
  intros Qpre Lp Qp Hp Qf Qv Sv Ev.
  assert (S1 : md_split (p ++ lit ".md" ++ []) = Some (p, None))
    by now apply md_split_path.
  assert (S2 : md_split (p ++ lit ".md" ++ lit "#" ++ f) = Some (p, Some f))
    by now apply md_split_path.
  rewrite app_nil_r in S1.
  assert (Q1 : quote_free (p ++ lit ".md") = true)
    by now rewrite quote_free_app, Qp.
  assert (Q2 : quote_free (p ++ lit ".md" ++ lit "#" ++ f) = true).
  { rewrite !quote_free_app, Qp, Qf. reflexivity. }
  repeat split.
  - unfold href_attr at 1. rewrite <- !app_assoc, rewrite_md_pre by exact Qpre.
    f_equal.
    pose proof (rewrite_md_hit (p ++ lit ".md") post p None Q1 S1) as R.
    unfold retarget in R. rewrite S1 in R. rewrite <- R.
    unfold href_attr. now rewrite <- !app_assoc.
  - unfold href_attr at 1. rewrite <- !app_assoc, rewrite_md_pre by exact Qpre.
    f_equal.
    pose proof (rewrite_md_hit (p ++ lit ".md" ++ lit "#" ++ f) post p
                               (Some f) Q2 S2) as R.
    unfold retarget in R. rewrite S2 in R. rewrite <- R.
    unfold href_attr. now rewrite <- !app_assoc.
  - unfold href_attr at 1. rewrite <- !app_assoc, rewrite_md_pre by exact Qpre.
    f_equal.
    rewrite <- (rewrite_md_miss v post Qv Sv Ev).
    unfold href_attr. now rewrite <- !app_assoc.
Qed.

Lemma rewrite_md_links_attr_witness :
  rewrite_md_links
    (lit "<a " ++ href_attr (lit "x" ++ lit ".md") ++ lit ">t</a>")
  = lit "<a " ++ href_attr (lit "x" ++ lit ".html")
        ++ rewrite_md_links (lit ">t</a>").
Proof.
  apply (rewrite_md_links_attr (lit "<a ") (lit "x") (lit "Section--One")
                               (lit "page.html") (lit ">t</a>"));
    solve [reflexivity | simpl; lia].
Defined.

(** C3 does not hold for every target that ends in [.md]: the pattern
    asks for a non-empty path before the extension, so the bare target
    ".md" is left as it is. *)
Lemma rewrite_md_links_bare_extension :
  rewrite_md_links (href_attr (lit ".md")) = href_attr (lit ".md") /\
  rewrite_md_links (href_attr (lit ".md")) <> href_attr (lit ".html").
Proof. split; [reflexivity|]. vm_compute. discriminate. Qed.

(** * Rewriting of links to other pages *)

Section CrossLinks.

Lemma rep_greedy_upto cls (f s : str) x :
  forallb cls f = true -> head_is cls s = false ->
  forall (k : str -> str -> option mres) min,
    min <= length f ->
    k f s = Some x ->
    rep_greedy cls min k (f ++ s) = Some x.
Proof.
  intros Hf Hs k min Hm Hk. destruct s as [|c s].
  - rewrite app_nil_r in *. revert k min Hm Hk.
    induction f as [|a f IH]; intros k min Hm Hk; simpl in *.
    + replace min with 0 by lia. exact Hk.
    + apply andb_prop in Hf as [-> Hf].
      rewrite (IH Hf (fun t r => k (a :: t) r) (Nat.pred min));
        [reflexivity|lia|exact Hk].
  - now apply rep_greedy_max.
Qed.

(** The lazy repetition stops at the first place where the rest of the
    pattern matches. *)
Lemma rep_lazy_until cls (inner rest : str) x :
  forallb cls inner = true ->
  forall k : str -> str -> option mres,
    (forall a b, inner = a ++ b -> b <> [] -> k a (b ++ rest) = None) ->
    k inner rest = Some x ->
    rep_lazy cls 0 k (inner ++ rest) = Some x.
Proof.
  intros Hc. induction inner as [|c inner IH]; intros k Hn Hk.
  - simpl app. destruct rest; simpl; now rewrite Hk.
  - change ((c :: inner) ++ rest) with (c :: inner ++ rest).
    cbn [rep_lazy Nat.eqb Nat.pred].
    change (c :: inner ++ rest) with ((c :: inner) ++ rest).
    rewrite (Hn [] (c :: inner) eq_refl) by discriminate.
    simpl in Hc. apply andb_prop in Hc as [-> Hc]. cbn [orelse].
    apply (IH Hc); [|exact Hk].
    intros a b -> Hb. apply (Hn (c :: a) b eq_refl Hb).
Qed.

(** The closing tag is not read before the end of an inner text that
    does not contain it. *)
Lemma closing_not_before (b post : str) :
  b <> [] -> startswith (lit "</a>") b = false ->
  startswith (lit "</a>") (b ++ lit "</a>" ++ post) = false.
Proof.
  intros Hb H.
  destruct b as [|x [|y [|z [|w b]]]]; [congruence| | | |exact H];
    cbn [lit list_ascii_of_string app startswith];
    repeat match goal with
           | |- context [Ascii.eqb ?a x] => destruct (Ascii.eqb a x)
           | |- context [Ascii.eqb ?a y] => destruct (Ascii.eqb a y)
           | |- context [Ascii.eqb ?a z] => destruct (Ascii.eqb a z)
           end; reflexivity.
Qed.

Lemma forallb_any (s : str) : forallb any_char s = true.
Proof. induction s; simpl; auto. Qed.

Lemma a_tag_match p ws h attrs inner post :
  0 < length ws -> forallb is_space ws = true ->
  quote_free h = true -> gt_free attrs = true ->
  occurs (lit "</a>") inner = false ->
  match_at re_a_tag p (a_tag ws h attrs inner ++ post)
  = Some (a_tag ws h attrs inner, [(2, inner); (1, h)]).
Proof.
  intros Lw Hw Qh Ga Oi. unfold match_at, re_a_tag, a_tag.
  cbn [seqs rmatch]. rewrite <- !app_assoc.
  rewrite startswith_app, skipn_app_len.
  apply rep_greedy_upto; [exact Hw|reflexivity|lia|].
  rewrite startswith_app, skipn_app_len.
  apply rep_greedy_upto; [exact Qh|reflexivity|lia|].
  rewrite startswith_app, skipn_app_len.
  apply rep_greedy_upto; [exact Ga|reflexivity|lia|].
  rewrite startswith_app, skipn_app_len.
  apply rep_lazy_until; [apply forallb_any| |now rewrite startswith_app].
  intros a b -> Hb.
  rewrite closing_not_before; [reflexivity|exact Hb|].
  now apply occurs_head, (occurs_suffix _ a).
Qed.

Lemma rep_greedy_none cls m (k : str -> str -> option mres) s :
  head_is cls s = false -> rep_greedy cls (S m) k s = None.
Proof. destruct s as [|c s]; simpl; [reflexivity|]. now intros ->. Qed.

Lemma a_tag_lit p s :
  startswith (lit "<a") s && head_is is_space (skipn 2 s) = false ->
  match_at re_a_tag p s = None.
Proof.
  intros H. unfold match_at, re_a_tag. cbn [seqs rmatch].
  destruct (startswith (lit "<a") s); [|reflexivity].
  apply rep_greedy_none. exact H.
Qed.

Lemma anchor_free_suffix (a b : str) :
  anchor_free (a ++ b) = true -> anchor_free b = true.
Proof.
  induction a as [|x a IH]; [trivial|].
  change ((x :: a) ++ b) with (x :: a ++ b). cbn [anchor_free].
  intros H. apply andb_prop in H as [_ H]. now apply IH.
Qed.

(** Text in which no anchor tag opens is copied. *)
Lemma cross_pre f pre rest :
  anchor_free pre = true ->
  re_sub re_a_tag f (pre ++ lit "<a" ++ rest)
  = pre ++ re_sub re_a_tag f (lit "<a" ++ rest).
Proof.
  intros O. apply re_sub_copy; [reflexivity|]. intros a b -> Hb.
  apply a_tag_lit. apply anchor_free_suffix in O.
  destruct b as [|x [|y [|z b]]]; [congruence| | |].
  - cbn [lit list_ascii_of_string app startswith].
    destruct (Ascii.eqb "<" x); reflexivity.
  - apply andb_false_intro2. reflexivity.
  - cbn [anchor_free] in O. apply andb_prop in O as [O _].
    apply negb_true_iff in O. exact O.
Qed.

(** An anchor tag with [href] first is handed to [_replace], and the
    scan goes on after its closing tag. *)
Lemma cross_tag m pre ws h attrs inner post :
  anchor_free pre = true ->
  0 < length ws -> forallb is_space ws = true ->
  quote_free h = true -> gt_free attrs = true ->
  occurs (lit "</a>") inner = false ->
  rewrite_cross_page_links (pre ++ a_tag ws h attrs inner ++ post) m
  = pre
    ++ _replace m (a_tag ws h attrs inner) [(2, inner); (1, h)]
    ++ rewrite_cross_page_links post m.
Proof.
  intros O Lw Hw Qh Ga Oi. unfold rewrite_cross_page_links.
  pose proof (a_tag_match None ws h attrs inner post Lw Hw Qh Ga Oi) as M.
  unfold a_tag in *. rewrite <- !app_assoc in *.
  rewrite cross_pre by exact O. f_equal.
  set (body := ws ++ href_open ++ h ++ [dquote] ++ attrs ++ lit ">"
                  ++ inner ++ lit "</a>") in *.
  replace (ws ++ href_open ++ h ++ [dquote] ++ attrs ++ lit ">"
              ++ inner ++ lit "</a>" ++ post)
    with (body ++ post) in * by (unfold body; now rewrite <- !app_assoc).
  change (lit "<a" ++ body ++ post) with ("<" :: ("a" :: body) ++ post) in *.
  change (lit "<a" ++ body) with ("<" :: "a" :: body) in *.
  now rewrite (re_sub_hit re_a_tag (_replace m) "<" ("a" :: body) post _
                          eq_refl M).
Qed.

Lemma startswith_shorter (a b s : str) :
  startswith (a ++ b) s = true -> startswith a s = true.
Proof.
  revert s. induction a as [|x a IH]; intros s; [reflexivity|].
  destruct s as [|y s]; simpl; [discriminate|].
  rewrite !andb_true_iff. intros [H1 H2]. split; [exact H1|now apply IH].
Qed.

(** Outside the targets that begin with "http" without a scheme, the
    test of [_replace] is the test for a scheme. *)
Lemma http_test h :
  implb (startswith (lit "http") h) (has_scheme h) = true ->
  startswith (lit "http") h = has_scheme h.
Proof.
  unfold has_scheme.
  destruct (startswith (lit "http") h) eqn:E; cbn [implb];
    [intros H; now rewrite H|].
  intros _.
  destruct (startswith (lit "http://") h) eqn:E1.
  { apply (startswith_shorter (lit "http") (lit "://")) in E1. congruence. }
  destruct (startswith (lit "https://") h) eqn:E2; [|reflexivity].
  apply (startswith_shorter (lit "http") (lit "s://")) in E2. congruence.
Qed.

End CrossLinks.

(** C4, as the code has it.  An anchor tag whose first attribute is
    [href] (after text in which no anchor tag opens, its further
    attributes free of ['>'], its inner text free of the closing tag) is
    classified by its target: a target starting with ['#'] or with
    [http://] or [https://] leaves the tag unchanged; a target starting
    with neither ['#'] nor [http] has its fragment stripped and the rest
    looked up in the page map, a hit giving an anchor tag on the mapped
    URL with the same inner text, a miss the inner text as strong text.
    The rewriting goes on after the tag.  With the map of "b.html" to
    "https://wiki/b", the four examples of the specification come out as
    stated. *)
Theorem rewrite_cross_page_links_tag
        (page_url_map : dict str) (pre ws h attrs inner post : str) :
  anchor_free pre = true ->
  0 < length ws -> forallb is_space ws = true ->
  quote_free h = true -> gt_free attrs = true ->
  occurs (lit "</a>") inner = false ->
  implb (startswith (lit "http") h) (has_scheme h) = true ->
  rewrite_cross_page_links (pre ++ a_tag ws h attrs inner ++ post) page_url_map
  = pre
    ++ (if startswith (lit "#") h || has_scheme h
        then a_tag ws h attrs inner
        else match dict_get page_url_map (split_head "#" h) with
             | Some url => mapped_link url inner
             | None => strong_text inner
             end)
    ++ rewrite_cross_page_links post page_url_map
  /\ (let m := [(lit "b.html", lit "https://wiki/b")] in
      rewrite_cross_page_links
        (a_tag (lit " ") (lit "b.html#sec") [] (lit "text")) m
      = mapped_link (lit "https://wiki/b") (lit "text")
      /\ rewrite_cross_page_links
           (a_tag (lit " ") (lit "z.html") [] (lit "text")) m
         = strong_text (lit "text")
      /\ rewrite_cross_page_links
           (a_tag (lit " ") (lit "#sec") [] (lit "text")) m
         = a_tag (lit " ") (lit "#sec") [] (lit "text")
      /\ rewrite_cross_page_links
           (a_tag (lit " ") (lit "https://x") [] (lit "text")) m
         = a_tag (lit " ") (lit "https://x") [] (lit "text")).
Proof.
  intros O Lw Hw Qh Ga Oi Hs. split; [|repeat split].
  rewrite (cross_tag page_url_map pre ws h attrs inner post O Lw Hw Qh Ga Oi).
  do 2 f_equal. unfold _replace.
  cbn [group_or_empty group Nat.eqb].
  now rewrite (http_test h Hs).
Qed.

Lemma rewrite_cross_page_links_tag_witness :
  rewrite_cross_page_links
    (lit "<p>See " ++ a_tag (lit " ") (lit "b.html#sec") (lit " title=t")
                            (lit "text") ++ lit "</p>")
    [(lit "b.html", lit "https://wiki/b")]
  = lit "<p>See " ++ mapped_link (lit "https://wiki/b") (lit "text")
        ++ rewrite_cross_page_links (lit "</p>")
                                    [(lit "b.html", lit "https://wiki/b")].
Proof.
  apply (rewrite_cross_page_links_tag
           [(lit "b.html", lit "https://wiki/b")]
           (lit "<p>See ") (lit " ") (lit "b.html#sec") (lit " title=t")
           (lit "text") (lit "</p>"));
    solve [reflexivity | simpl; lia].
Defined.

(** C4 does not hold for every anchor tag: the pattern asks for [href] as
    the first attribute, so a tag with another attribute before it is
    left as it is, a link to an unmapped page included. *)
Lemma rewrite_cross_page_links_href_not_first :
  let tag := lit "<a class=" ++ [dquote] ++ lit "c" ++ [dquote] ++ lit " "
             ++ href_open ++ lit "z.html" ++ [dquote] ++ lit ">text</a>" in
  rewrite_cross_page_links tag [(lit "b.html", lit "https://wiki/b")] = tag
  /\ rewrite_cross_page_links tag [(lit "b.html", lit "https://wiki/b")]
     <> strong_text (lit "text").
Proof. split; [reflexivity|]. vm_compute. discriminate. Qed.

(** C10.  The anchor tag written for a page found in the map carries the
    mapped URL as its only attribute.  The code departs from this for a
    page whose name begins with "http": the target of the link is in the
    map, yet [_replace] takes it for an external link and returns the tag
    as it was, [title] attribute and [href] included. *)
Theorem cross_page_link_to_http_named_page :
  let m := [(lit "http-api.html", lit "https://wiki/api")] in
  let tag := a_tag (lit " ") (lit "http-api.html")
                   (lit " title=" ++ [dquote] ++ lit "t" ++ [dquote])
                   (lit "x") in
  dict_get m (split_head "#" (lit "http-api.html"))
  = Some (lit "https://wiki/api")
  /\ rewrite_cross_page_links tag m = tag
  /\ rewrite_cross_page_links tag m
     <> mapped_link (lit "https://wiki/api") (lit "x").
Proof.
  repeat split. vm_compute. discriminate.
Qed.

(** * Title extraction *)

(** C9.  The first top-level heading is the title, "Document" the
    fallback.  The code departs from this where the line of a ['#'] ends
    right after it: the white space asked for after ['#'] is then found in
    the line break, and the text of the next line is returned. *)
Theorem extract_title_reads_next_line :
  extract_title (lit "# My Title" ++ [newline; newline] ++ lit "body")
  = lit "My Title"
  /\ extract_title (lit "no heading here") = lit "Document"
  /\ extract_title (lit "#" ++ [newline] ++ lit "foo") = lit "foo".
Proof. repeat split. Qed.

(** * The two attempts of the conversion *)

(** C7.  The conversion first calls the library with the full extension
    list.  If that call returns, its result is returned and no other call
    is made.  If and only if it raises an [Exception], exactly one more
    call is made, with the safe list, and whatever that call does, return
    or raise, is the outcome: an exception of the second call is not
    caught.  There are never more than two calls. *)
Theorem md_to_html_two_tier
        (markdown : str -> list string -> outcome str) (md_text : str) :
  let first := markdown md_text extensions in
  let second := markdown md_text safe_extensions in
  let run := md_to_html markdown md_text in
  hd_error (fst run) = Some extensions
  /\ (forall body, first = Ok body -> run = ([extensions], Ok body))
  /\ (forall n, first = Raise (Exc n) ->
                run = ([extensions; safe_extensions], second))
  /\ (fst run = [extensions; safe_extensions]
      <-> exists n, first = Raise (Exc n))
  /\ ((forall n, first <> Raise (Exc n)) ->
      run = ([extensions], first))
  /\ (forall n e, first = Raise (Exc n) -> second = Raise e ->
                  snd run = Raise e)
  /\ length (fst run) <= 2.
Proof.
  cbv zeta. unfold md_to_html, try_except, call_markdown.
  destruct (markdown md_text extensions) as [body|[n|n]] eqn:E; cbn;
    repeat match goal with |- _ /\ _ => split end;
    try solve [ reflexivity | lia | intros; congruence
              | split; [intros; discriminate | intros [? ?]; discriminate]
              | split; [intros _; now exists n | reflexivity]
              | intros H; now destruct (H n) ].
Qed.

(** * The page URL *)

Section PageUrl.

Lemma replace_char x new s :
  replace [x] new s
  = flat_map (fun c => if Ascii.eqb x c then new else [c]) s.
Proof.
  unfold replace. induction s as [|c s IH]; [reflexivity|].
  cbn [replace_from flat_map length Nat.pred].
  change (startswith [x] (c :: s)) with (Ascii.eqb x c && true).
  rewrite andb_true_r, IH. now destruct (Ascii.eqb x c).
Qed.

Lemma flat_map_flat_map {A B C : Type} (f : B -> list C) (g : A -> list B)
      (l : list A) :
  flat_map f (flat_map g l) = flat_map (fun x => flat_map f (g x)) l.
Proof.
  induction l as [|a l IH]; [reflexivity|].
  simpl. now rewrite flat_map_app, IH.
Qed.

(** What the code does with one character of the title, for each of
    the 256 characters. *)
Lemma slug_char_facts c :
  flat_map (fun x => if Ascii.eqb " " x then lit "+" else [x])
           (flat_map (quote_byte url_safe) (utf8_char c))
  = slug_char c
  /\ forallb (fun x => negb (Ascii.eqb " " x)) (slug_char c) = true
  /\ safe_piece (slug_char c) = true.
Proof.
  destruct c as [[] [] [] [] [] [] [] []]; vm_compute; repeat split.
Qed.

Lemma slug_flat_map title :
  replace (lit " ") (lit "+") (quote url_safe title)
  = flat_map slug_char title.
Proof.
  change (lit " ") with [" "]. rewrite replace_char.
  unfold quote, utf8_encode.
  rewrite (flat_map_flat_map (quote_byte url_safe) utf8_char title).
  rewrite flat_map_flat_map.
  apply flat_map_ext. intros c. apply (proj1 (slug_char_facts c)).
Qed.

Lemma occurs_char x s :
  forallb (fun c => negb (Ascii.eqb x c)) s = true -> occurs [x] s = false.
Proof.
  induction s as [|c s IH]; [reflexivity|].
  cbn [forallb occurs]. rewrite andb_true_iff, negb_true_iff.
  intros [H1 H2].
  change (startswith [x] (c :: s)) with (Ascii.eqb x c && true).
  now rewrite H1, (IH H2).
Qed.

Lemma forallb_flat_map {A B : Type} (p : B -> bool) (f : A -> list B) l :
  (forall a, forallb p (f a) = true) -> forallb p (flat_map f l) = true.
Proof.
  intros H. induction l as [|a l IH]; [reflexivity|].
  simpl. now rewrite forallb_app, H, IH.
Qed.

Lemma safe_piece_skip t rest :
  safe_piece t = true ->
  occurs (lit "%20") (t ++ rest) = occurs (lit "%20") rest.
Proof.
  induction t as [|c t IH]; [reflexivity|].
  cbn [safe_piece]. rewrite !andb_true_iff, !negb_true_iff.
  intros [[H1 H2] H3].
  change ((c :: t) ++ rest) with (c :: t ++ rest). cbn [occurs].
  rewrite (IH H3).
  replace (startswith (lit "%20") (c :: t ++ rest)) with false;
    [reflexivity|].
  symmetry. destruct t as [|x [|y t]].
  - cbn [length Nat.ltb Nat.leb] in H2. rewrite andb_true_r in H2.
    cbn [lit list_ascii_of_string startswith app]. now rewrite H2.
  - cbn [length Nat.ltb Nat.leb] in H2. rewrite andb_true_r in H2.
    cbn [lit list_ascii_of_string startswith app]. now rewrite H2.
  - exact H1.
Qed.

Lemma safe_pieces (f : ascii -> str) l :
  (forall c, safe_piece (f c) = true) ->
  occurs (lit "%20") (flat_map f l) = false.
Proof.
  intros H. induction l as [|c l IH]; [reflexivity|].
  simpl flat_map. now rewrite safe_piece_skip.
Qed.

End PageUrl.

(** C8.  For every title the page URL is the fixed base path followed
    by the title written character by character as a path segment: a
    space as ['+'], every other character as [quote] writes it, the
    slash percent-encoded.  The segment contains no space and nowhere the
    text "%20".  The title "A/B Design" gives the segment
    "A%2FB+Design". *)
Theorem confluence_page_url_segment (title : str) :
  confluence_page_url title = url_prefix ++ flat_map slug_char title
  /\ slug_char " " = lit "+"
  /\ slug_char "/" = lit "%2F"
  /\ occurs (lit " ") (flat_map slug_char title) = false
  /\ occurs (lit "%20") (flat_map slug_char title) = false
  /\ confluence_page_url (lit "A/B Design")
     = url_prefix ++ lit "A%2FB+Design".
Proof.
  repeat split.
  - unfold confluence_page_url. cbv zeta. rewrite slug_flat_map.
    now rewrite !app_assoc.
  - apply (occurs_char " "). apply forallb_flat_map.
    intros c. apply slug_char_facts.
  - apply safe_pieces. intros c. apply slug_char_facts.
Qed.

(** * The link checker *)

Section Checker.

Lemma str_eqb_eq a b : str_eqb a b = true <-> a = b.
Proof.
  unfold str_eqb. destruct (list_eq_dec ascii_dec a b); split;
    congruence.
Qed.

Lemma set_mem_In x s : set_mem x s = true <-> In x s.
Proof.
  unfold set_mem. rewrite existsb_exists. split.
  - intros [y [H E]]. apply str_eqb_eq in E. now subst.
  - intros H. exists x. split; [exact H|]. now apply str_eqb_eq.
Qed.

Lemma set_add_In x y s : In y (set_add x s) <-> y = x \/ In y s.
Proof.
  induction s as [|z s IH]; simpl.
  - intuition.
  - destruct (str_eqb x z) eqn:E.
    + apply str_eqb_eq in E. subst. simpl. intuition.
    + destruct (str_ltb x z); simpl; [intuition|].
      rewrite IH. intuition.
Qed.

Lemma set_of_list_In y l : In y (set_of_list l) <-> In y l.
Proof.
  unfold set_of_list.
  assert (G : forall acc, In y (fold_left (fun s x => set_add x s) l acc)
                          <-> In y l \/ In y acc).
  { induction l as [|x l IH]; intros acc; simpl.
    - intuition.
    - rewrite IH, set_add_In. intuition. }
  rewrite G. simpl. intuition.
Qed.

Lemma check_page_spec ids src links :
  forall t,
    check_page ids src links t
    = mkTally (total t + length links)
              (ok t ++ filter (link_ok ids)
                          (map (fun l => (src, fst l, snd l)) links))
              (broken t ++ filter (fun l => negb (link_ok ids l))
                              (map (fun l => (src, fst l, snd l)) links)).
Proof.
  induction links as [|[tgt anchor] links IH]; intros [n o b].
  - cbn. now rewrite Nat.add_0_r, !app_nil_r.
  - cbn [check_page total ok broken map filter fst snd length].
    assert (E : link_ok ids (src, tgt, anchor)
                = set_mem anchor (ids_of ids tgt)) by reflexivity.
    rewrite !E.
    destruct (set_mem anchor (ids_of ids tgt)); rewrite IH;
      cbn [total ok broken negb]; rewrite <- ?app_assoc; cbn [app];
      f_equal; lia.
Qed.

Lemma check_files_spec ids files :
  forall t,
    check_files ids files t
    = mkTally (total t + length (flat_map page_links files))
              (ok t ++ filter (link_ok ids) (flat_map page_links files))
              (broken t ++ filter (fun l => negb (link_ok ids l))
                              (flat_map page_links files)).
Proof.
  induction files as [|[name content] files IH]; intros [n o b].
  - cbn. now rewrite Nat.add_0_r, !app_nil_r.
  - cbn [check_files flat_map]. rewrite IH, check_page_spec.
    cbn [total ok broken].
    change (map (fun l => (name, fst l, snd l))
                (findall2 re_anchored_link content))
      with (page_links (name, content)).
    replace (length (findall2 re_anchored_link content))
      with (length (page_links (name, content)))
      by (unfold page_links; now rewrite length_map).
    rewrite !filter_app, length_app, <- !app_assoc. f_equal. lia.
Qed.

End Checker.

(** C6.  On the two pages of the example, page A linking to
    "B.html#missing-id" and page B defining the one id "other-id", the
    checker counts one link, none OK, one broken, and the broken entry is
    (A.html, B.html, missing-id), printed as such.  On any set of pages, a
    link goes to the OK list exactly when its anchor is among the ids of
    its target page, to the broken list otherwise, the total counts both,
    and the ids of a page are the ones its text defines. *)
Theorem check_links_classifies (files : list (str * str)) :
  let ids_by_file := collect_ids files [] in
  let t := check_links files in
  ok t = filter (link_ok ids_by_file) (all_links files)
  /\ broken t = filter (fun l => negb (link_ok ids_by_file l)) (all_links files)
  /\ total t = length (all_links files)
  /\ total t = length (ok t) + length (broken t)
  /\ (forall l, In l (ok t) <->
                In l (all_links files)
                /\ In (snd l) (ids_of ids_by_file (snd (fst l))))
  /\ (forall l, In l (broken t) <->
                In l (all_links files)
                /\ ~ In (snd l) (ids_of ids_by_file (snd (fst l))))
  /\ (forall x content, In x (set_of_list (findall1 re_id content))
                        <-> In x (findall1 re_id content))
  /\ check_links [page_A; page_B]
     = mkTally 1 [] [(lit "A.html", lit "B.html", lit "missing-id")]
  /\ ids_of (collect_ids [page_A; page_B] []) (lit "B.html")
     = [lit "other-id"]
  /\ report [page_A; page_B]
     = [Text (lit "Total anchored links checked: 1");
        Text (lit "  OK:     0");
        Text (lit "  Broken: 1");
        Text (newline :: lit "BROKEN links:");
        Text (lit "  [A.html] -> B.html#missing-id")].
Proof.
  cbv zeta. unfold check_links.
  rewrite check_files_spec. cbn [total ok broken app Nat.add].
  fold (all_links files).
  repeat match goal with |- _ /\ _ => split end;
    try reflexivity.
  - rewrite <- (filter_length (link_ok (collect_ids files [])) (all_links files)).
    reflexivity.
  - intros l. rewrite filter_In. unfold link_ok. now rewrite set_mem_In.
  - intros l. rewrite filter_In. unfold link_ok.
    rewrite negb_true_iff, <- not_true_iff_false. now rewrite set_mem_In.
  - intros x content. apply set_of_list_In.
Qed.


(** * The diagram placeholders *)

Section Base64.

Lemma okb_bound b : okb b = true -> In b r256.
Proof.
  unfold okb, r256. rewrite !orb_true_iff, N.ltb_lt, !N.eqb_eq.
  intros H. apply in_map_iff. exists (N.to_nat b). split; [lia|].
  apply in_seq. lia.
Qed.

Lemma check1 (p : N -> bool) :
  forallb (fun a => negb (okb a && p a)) r256 = true ->
  forall a, okb a = true -> p a = true -> False.
Proof.
  intros H a Ha Hp. rewrite forallb_forall in H.
  specialize (H a (okb_bound a Ha)). now rewrite Ha, Hp in H.
Qed.

Lemma check2 (p : N -> N -> bool) :
  forallb (fun a => forallb (fun b => negb (okb a && okb b && p a b)) r256)
          r256 = true ->
  forall a b, okb a = true -> okb b = true -> p a b = true -> False.
Proof.
  intros H a b Ha Hb Hp. rewrite forallb_forall in H.
  specialize (H a (okb_bound a Ha)). rewrite forallb_forall in H.
  specialize (H b (okb_bound b Hb)). now rewrite Ha, Hb, Hp in H.
Qed.

(** No group of valid bytes reads as the key does at its underscores. *)
Lemma group_D_ b c :
  okb b = true -> okb c = true ->
  b64_char (N.lor (N.shiftl (N.land b 15) 2) (N.shiftr c 6)) = "D" ->
  b64_char (N.land c 63) = "_" -> False.
Proof.
  intros Hb Hc E1 E2.
  apply (check2
           (fun b c =>
              Ascii.eqb (b64_char (N.lor (N.shiftl (N.land b 15) 2)
                                         (N.shiftr c 6))) "D"
              && Ascii.eqb (b64_char (N.land c 63)) "_")
           eq_refl b c Hb Hc).
  now rewrite E1, E2.
Qed.

Lemma group__first a :
  okb a = true -> b64_char (N.shiftr a 2) = "_" -> False.
Proof.
  intros Ha E.
  apply (check1 (fun a => Ascii.eqb (b64_char (N.shiftr a 2)) "_")
                eq_refl a Ha).
  now rewrite E.
Qed.

Lemma group__second a b :
  okb a = true -> okb b = true ->
  b64_char (N.lor (N.shiftl (N.land a 3) 4) (N.shiftr b 4)) = "_" -> False.
Proof.
  intros Ha Hb E.
  apply (check2
           (fun a b =>
              Ascii.eqb (b64_char (N.lor (N.shiftl (N.land a 3) 4)
                                         (N.shiftr b 4))) "_")
           eq_refl a b Ha Hb).
  now rewrite E.
Qed.

Lemma group__P b c :
  okb b = true -> okb c = true ->
  b64_char (N.lor (N.shiftl (N.land b 15) 2) (N.shiftr c 6)) = "_" ->
  b64_char (N.land c 63) = "P" -> False.
Proof.
  intros Hb Hc E1 E2.
  apply (check2
           (fun b c =>
              Ascii.eqb (b64_char (N.lor (N.shiftl (N.land b 15) 2)
                                         (N.shiftr c 6))) "_"
              && Ascii.eqb (b64_char (N.land c 63)) "P")
           eq_refl b c Hb Hc).
  now rewrite E1, E2.
Qed.

Lemma startswith_short n (s : str) :
  length s < length n -> startswith n s = false.
Proof.
  revert s. induction n as [|a n IH]; intros s H; [simpl in H; lia|].
  destruct s as [|b s]; [reflexivity|]. simpl in *.
  rewrite IH by lia. apply andb_false_r.
Qed.

Lemma occurs_short n (s : str) :
  length s < length n -> occurs n s = false.
Proof.
  induction s as [|c s IH]; intros H; cbn [occurs].
  - now rewrite startswith_short.
  - rewrite startswith_short by exact H. simpl in H.
    rewrite IH by lia. reflexivity.
Qed.

Lemma utf8_char_ok c : forallb okb (utf8_char c) = true.
Proof. destruct c as [[] [] [] [] [] [] [] []]; reflexivity. Qed.

Lemma utf8_encode_ok d : forallb okb (utf8_encode d) = true.
Proof.
  unfold utf8_encode. induction d as [|c d IH]; [reflexivity|].
  simpl. now rewrite forallb_app, utf8_char_ok, IH.
Qed.

Lemma b64_encode_text bs :
  forallb okb bs = true -> b64_text (urlsafe_b64encode bs).
Proof.
  remember (length bs) as n eqn:Hn.
  assert (Hle : length bs <= n) by lia. clear Hn.
  revert bs Hle. induction n as [|n IH]; intros bs Hle H.
  - destruct bs; [constructor|simpl in Hle; lia].
  - destruct bs as [|a [|b [|c bs]]].
    + constructor.
    + now apply b64_last.
    + now apply b64_last.
    + simpl in H. apply andb_prop in H as [Ha H].
      apply andb_prop in H as [Hb H]. apply andb_prop in H as [Hc H].
      change (urlsafe_b64encode (a :: b :: c :: bs))
        with (enc3 a b c ++ urlsafe_b64encode bs).
      apply b64_group; try assumption.
      apply IH; [simpl in Hle; lia|exact H].
Qed.

Ltac too_short E :=
  apply (f_equal (@length ascii)) in E;
  rewrite ?length_app in E; simpl in E; lia.

Ltac read_key E :=
  apply startswith_elim in E;
  unfold key0, enc3 in E;
  cbn [lit list_ascii_of_string app] in E;
  injection E; intros.

(** The key does not begin in a group followed by two more groups. *)
Lemma key_not_in_groups a b c a1 b1 c1 a2 b2 c2 rest :
  okb a1 = true -> okb b1 = true -> okb c1 = true ->
  okb a2 = true -> okb b2 = true -> okb c2 = true ->
  let s := enc3 a b c ++ enc3 a1 b1 c1 ++ enc3 a2 b2 c2 ++ rest in
  startswith key0 s = false
  /\ startswith key0 (skipn 1 s) = false
  /\ startswith key0 (skipn 2 s) = false
  /\ startswith key0 (skipn 3 s) = false.
Proof.
  intros Ha1 Hb1 Hc1 Ha2 Hb2 Hc2. cbv zeta.
  repeat split;
    match goal with
    | |- ?x = false => destruct x eqn:E; [exfalso|reflexivity]
    end; cbn [skipn enc3 app] in E; read_key E.
  - eapply (group_D_ b1 c1); eassumption.
  - eapply (group__first a2); eassumption.
  - eapply (group__second a2 b2); eassumption.
  - eapply (group__P b2 c2); eassumption.
Qed.

Lemma b64_text_no_key s : b64_text s -> occurs key0 s = false.
Proof.
  induction 1 as [|t Ht|a b c s Ha Hb Hc Hs IH].
  - reflexivity.
  - apply occurs_short. rewrite Ht. simpl. lia.
  - unfold enc3 at 1. cbn [app occurs]. rewrite IH, !orb_false_r.
    fold (enc3 a b c).
    assert (G : startswith key0 (enc3 a b c ++ s) = false
                /\ startswith key0 (skipn 1 (enc3 a b c ++ s)) = false
                /\ startswith key0 (skipn 2 (enc3 a b c ++ s)) = false
                /\ startswith key0 (skipn 3 (enc3 a b c ++ s)) = false).
    { inversion Hs as [E0|t Ht E0|a1 b1 c1 s1 Ha1 Hb1 Hc1 Hs1 E0].
      - repeat split; apply startswith_short; simpl; lia.
      - repeat split; apply startswith_short; cbn [enc3 app skipn length];
          rewrite Ht; simpl; lia.
      - inversion Hs1 as [E1|t Ht E1|a2 b2 c2 s2 Ha2 Hb2 Hc2 Hs2 E1].
        + repeat split; apply startswith_short; simpl; lia.
        + repeat split; apply startswith_short;
            cbn [enc3 app skipn length]; rewrite Ht; simpl; lia.
        + now apply key_not_in_groups. }
    destruct G as [G0 [G1 [G2 G3]]].
    cbn [enc3 app skipn] in G0, G1, G2, G3.
    now rewrite G0, G1, G2, G3.
Qed.

(** The token of the first diagram never occurs in a base64 text the
    code computes. *)
Lemma b64_no_key d :
  occurs key0 (urlsafe_b64encode (utf8_encode d)) = false.
Proof. apply b64_text_no_key, b64_encode_text, utf8_encode_ok. Qed.

End Base64.

Section Placeholders.

Lemma block_shape code :
  mermaid_block code
  = img_head ++ urlsafe_b64encode (utf8_encode code) ++ img_tail ++ [">"].
Proof.
  unfold mermaid_block, _mermaid_ink_url, img_head, img_open, img_tail.
  now rewrite <- !app_assoc.
Qed.

Lemma key_not_in_block code h_post :
  occurs key0 h_post = false ->
  occurs key0 (mermaid_block code ++ h_post) = false.
Proof.
  intros O. rewrite block_shape, <- !app_assoc.
  rewrite occurs_app_copy
    by (apply (no_start_first "M" (lit "ERMAID_PLACEHOLDER_0_END"));
        reflexivity).
  change (img_tail ++ [">"] ++ h_post)
    with ("?" :: tl img_tail ++ ">" :: h_post).
  rewrite occurs_app_copy
    by (apply no_start_char;
        [apply b64_no_key|cbv; intuition discriminate]).
  change ("?" :: tl img_tail ++ ">" :: h_post)
    with (img_tail ++ ">" :: h_post).
  rewrite occurs_app_copy
    by (apply no_start_char; [reflexivity|cbv; intuition discriminate]).
  cbn [occurs]. now rewrite O.
Qed.

(** After the substitution the token is gone. *)
Lemma result_no_key code h_pre h_post :
  occurs key0 h_pre = false -> occurs key0 h_post = false ->
  occurs key0 (h_pre ++ mermaid_block code ++ h_post) = false.
Proof.
  intros O1 O2. rewrite <- (key_not_in_block code h_post O2).
  apply occurs_app_copy. rewrite block_shape, <- !app_assoc.
  change (img_head ++ ?x) with ("<" :: tl img_head ++ x).
  apply no_start_char; [exact O1|cbv; intuition discriminate].
Qed.

Lemma wrapped_absent (h_pre h_post : str) :
  occurs key0 h_pre = false -> occurs key0 h_post = false ->
  endswith (lit "<p>") h_pre && startswith (lit "</p>") h_post = false ->
  occurs wrapped_key (h_pre ++ key0 ++ h_post) = false.
Proof.
  intros O1 O2 W.
  destruct (occurs wrapped_key (h_pre ++ key0 ++ h_post)) eqn:E;
    [|reflexivity].
  apply occurs_iff in E as [l [r E]]. unfold wrapped_key in E.
  assert (E' : h_pre ++ key0 ++ h_post
               = (l ++ lit "<p>") ++ key0 ++ (lit "</p>" ++ r))
    by (rewrite E; now rewrite <- !app_assoc).
  apply unique_occurrence in E' as [-> ->];
    [|reflexivity|exact O1|exact O2].
  now rewrite endswith_app, startswith_app in W.
Qed.

(** Re-insertion where the converter left the token bare. *)
Lemma postprocess_bare block (h_pre h_post : str) :
  occurs key0 h_pre = false -> occurs key0 h_post = false ->
  endswith (lit "<p>") h_pre && startswith (lit "</p>") h_post = false ->
  postprocess_placeholders (h_pre ++ key0 ++ h_post) [(key0, block)]
  = h_pre ++ block ++ h_post.
Proof.
  intros O1 O2 W. cbn [postprocess_placeholders].
  fold wrapped_key.
  rewrite (replace_none wrapped_key block) by now apply wrapped_absent.
  rewrite replace_copy by now apply no_start_unbordered.
  rewrite replace_hit by discriminate.
  now rewrite (replace_none key0 block h_post O2).
Qed.

(** Re-insertion where the converter wrapped the token in a paragraph. *)
Lemma postprocess_wrapped code (h_pre h_post : str) :
  occurs key0 h_pre = false -> occurs key0 h_post = false ->
  postprocess_placeholders (h_pre ++ wrapped_key ++ h_post)
                           [(key0, mermaid_block code)]
  = h_pre ++ mermaid_block code ++ h_post.
Proof.
  intros O1 O2. cbn [postprocess_placeholders].
  fold wrapped_key.
  rewrite replace_copy
    by (apply no_start_unbordered;
        [reflexivity|now apply (occurs_inside (lit "<p>") key0 (lit "</p>"))]).
  rewrite replace_hit by discriminate.
  rewrite (replace_none wrapped_key)
    by now apply (occurs_inside (lit "<p>") key0 (lit "</p>")).
  apply replace_none. now apply result_no_key.
Qed.

Lemma count_from_skip n (t b : str) :
  count_from n (length t) (t ++ b) = count_from n 0 b.
Proof. induction t as [|c t IH]; [reflexivity|exact IH]. Qed.

Lemma count_copy n (a b : str) :
  (forall a1 a2, a = a1 ++ a2 -> a2 <> [] ->
                 startswith n (a2 ++ b) = false) ->
  count n (a ++ b) = count n b.
Proof.
  unfold count. induction a as [|c a IH]; intros H; [reflexivity|].
  change ((c :: a) ++ b) with (c :: a ++ b). cbn [count_from].
  change (c :: a ++ b) with ((c :: a) ++ b).
  rewrite (H [] (c :: a) eq_refl) by discriminate.
  apply IH. intros a1 a2 -> Ha. now apply (H (c :: a1) a2).
Qed.

Lemma count_hit n (b : str) :
  n <> [] -> count n (n ++ b) = S (count n b).
Proof.
  intros H. unfold count. destruct n as [|c n]; [congruence|].
  change ((c :: n) ++ b) with (c :: n ++ b). cbn [count_from].
  change (c :: n ++ b) with ((c :: n) ++ b).
  rewrite startswith_app. cbn [length Nat.pred].
  now rewrite count_from_skip.
Qed.

Lemma count_none n (s : str) : occurs n s = false -> count n s = 0.
Proof.
  intros O. rewrite <- (app_nil_r s).
  rewrite count_copy; [reflexivity|].
  intros a1 a2 E _. rewrite app_nil_r. exact (no_start_free n s O a1 a2 E).
Qed.

Lemma b64_char_no_lt n : negb (Ascii.eqb "<" (b64_char n)) = true.
Proof.
  unfold b64_char.
  destruct (nth_in_or_default (N.to_nat n) b64_alphabet "=") as [H| ->];
    [|reflexivity].
  revert H. generalize (nth (N.to_nat n) b64_alphabet "=").
  apply forallb_forall. reflexivity.
Qed.

Lemma b64_no_lt bs :
  forallb (fun c => negb (Ascii.eqb "<" c)) (urlsafe_b64encode bs) = true.
Proof.
  remember (length bs) as n eqn:Hn.
  assert (Hle : length bs <= n) by lia. clear Hn.
  revert bs Hle. induction n as [|n IH]; intros bs Hle.
  - destruct bs; [reflexivity|simpl in Hle; lia].
  - destruct bs as [|a [|b [|c bs]]];
      cbn [urlsafe_b64encode forallb app];
      rewrite ?b64_char_no_lt; try reflexivity.
    apply IH. simpl in Hle. lia.
Qed.

(** The result holds one image block where the token stood. *)
Lemma result_one_block code (h_pre h_post : str) :
  occurs img_open h_pre = false -> occurs img_open h_post = false ->
  count img_open (h_pre ++ mermaid_block code ++ h_post) = 1.
Proof.
  intros O1 O2. rewrite block_shape. unfold img_head.
  rewrite <- !app_assoc.
  rewrite count_copy by now apply no_start_unbordered.
  rewrite count_hit by discriminate. f_equal.
  rewrite !app_assoc. rewrite count_copy; [now apply count_none|].
  apply (no_start_first "<" (tl img_open)).
  rewrite !forallb_app, b64_no_lt. reflexivity.
Qed.

Lemma scan_copy r (pre rest : str) :
  bol_free r = true ->
  (forall a b, pre = a ++ b -> b <> [] ->
               match_at r None (b ++ rest) = None) ->
  scan r 0 None (pre ++ rest) = map Copy pre ++ scan r 0 None rest.
Proof.
  intros B. induction pre as [|c pre IH]; intros H; [reflexivity|].
  change ((c :: pre) ++ rest) with (c :: pre ++ rest).
  rewrite scan_miss; [|exact B|apply (H [] (c :: pre) eq_refl); discriminate].
  cbn [map app]. f_equal. apply IH.
  intros a b -> Hb. now apply (H (c :: a) b).
Qed.

Lemma scan_all_copy r (s : str) :
  bol_free r = true ->
  (forall a b, s = a ++ b -> match_at r None b = None) ->
  scan r 0 None s = map Copy s.
Proof.
  intros B H. rewrite <- (app_nil_r s) at 1.
  rewrite scan_copy; [|exact B|].
  - cbn [scan]. rewrite (H s [] (eq_sym (app_nil_r s))). apply app_nil_r.
  - intros a b E _. rewrite app_nil_r. now apply (H a b).
Qed.

Lemma sub_replacer_copy (pre : str) ps st :
  sub_replacer (map Copy pre ++ ps) st
  = (pre ++ fst (sub_replacer ps st), snd (sub_replacer ps st)).
Proof.
  induction pre as [|c pre IH]; cbn [map app sub_replacer].
  - now destruct (sub_replacer ps st).
  - rewrite IH. reflexivity.
Qed.

Lemma sub_replacer_all_copy (s : str) st :
  sub_replacer (map Copy s) st = (s, st).
Proof.
  induction s as [|c s IH]; cbn [map sub_replacer]; [reflexivity|].
  now rewrite IH.
Qed.

Lemma mermaid_lit p s :
  startswith fence_open s = false -> match_at re_mermaid p s = None.
Proof.
  intros H. unfold match_at, re_mermaid. cbn [seqs rmatch]. now rewrite H.
Qed.

(** The closing fence is not read before the end of a diagram source
    in which no closing fence begins. *)
Lemma fence_close_first (code post a b : str) :
  occurs fence_close (code ++ lit "``") = false ->
  code = a ++ b -> b <> [] ->
  startswith fence_close (b ++ fence_close ++ post) = false.
Proof.
  intros O E Hb.
  assert (H : startswith fence_close (b ++ lit "``") = false).
  { apply (no_start_free fence_close (code ++ lit "``") O a).
    rewrite E. now rewrite <- app_assoc. }
  destruct b as [|x [|y [|z b]]]; [congruence|exact H..].
Qed.

Lemma mermaid_match p (code post : str) :
  occurs fence_close (code ++ lit "``") = false ->
  match_at re_mermaid p (fence_open ++ code ++ fence_close ++ post)
  = Some (fence_open ++ code ++ fence_close, [(1, code)]).
Proof.
  intros O. unfold match_at, re_mermaid. cbn [seqs rmatch].
  rewrite startswith_app, skipn_app_len.
  apply rep_lazy_until; [apply forallb_any| |now rewrite startswith_app].
  intros a b E Hb. now rewrite (fence_close_first code post a b O E Hb).
Qed.

(** Extraction on a document with one fenced diagram. *)
Lemma preprocess_one_block (pre_md code post_md : str) :
  occurs fence_open pre_md = false ->
  occurs fence_close (code ++ lit "``") = false ->
  occurs fence_open post_md = false ->
  preprocess_mermaid (pre_md ++ fence_open ++ code ++ fence_close ++ post_md)
  = (pre_md ++ key0 ++ post_md,
     [(key0, mermaid_block (strip is_space code))]).
Proof.
  intros O1 O2 O3. unfold preprocess_mermaid.
  rewrite scan_copy;
    [|reflexivity
     |intros a b E Hb; apply mermaid_lit;
      now apply (no_start_unbordered fence_open pre_md _ eq_refl O1 a b)].
  rewrite sub_replacer_copy.
  pose proof (mermaid_match None code post_md O2) as M.
  replace (fence_open ++ code ++ fence_close ++ post_md)
    with ("`" :: (tl fence_open ++ code ++ fence_close) ++ post_md) in *
    by (unfold fence_open; cbn [lit list_ascii_of_string app tl];
        now rewrite <- !app_assoc).
  replace (fence_open ++ code ++ fence_close)
    with ("`" :: tl fence_open ++ code ++ fence_close) in M
    by reflexivity.
  rewrite (scan_hit re_mermaid None "`" _ post_md _ eq_refl M).
  rewrite scan_all_copy;
    [|reflexivity
     |intros a b E; apply mermaid_lit;
      exact (no_start_free fence_open post_md O3 a b E)].
  cbn [sub_replacer replacer group_or_empty group Nat.eqb].
  rewrite sub_replacer_all_copy. cbn [fst snd dict_set]. reflexivity.
Qed.

End Placeholders.

(** C5.  Take a document with one fenced mermaid block: text without a
    fence opener, the opener, a diagram source, the closer (the first one
    after the opener: none begins inside the source), text without an
    opener.  Extraction puts the token of the first diagram where the
    block stood and records its image block.  If the converter then
    returns HTML with the token in one place, bare or wrapped in a
    paragraph (the surrounding HTML free of the token and of image
    blocks), re-insertion gives that HTML with the image block in place of
    the token and of its wrapper: the result holds exactly one image block
    and no occurrence of the token. *)
Theorem mermaid_placeholder_round_trip
        (markdown : str -> list string -> outcome str)
        (pre_md code post_md h_pre h_post : str) (wrapped : bool) :
  occurs fence_open pre_md = false ->
  occurs fence_close (code ++ lit "``") = false ->
  occurs fence_open post_md = false ->
  occurs key0 h_pre = false -> occurs key0 h_post = false ->
  occurs img_open h_pre = false -> occurs img_open h_post = false ->
  wrapped || negb (endswith (lit "<p>") h_pre
                   && startswith (lit "</p>") h_post) = true ->
  snd (md_to_html markdown (pre_md ++ key0 ++ post_md))
  = Ok (h_pre ++ (if wrapped then wrapped_key else key0) ++ h_post) ->
  let md_text := pre_md ++ fence_open ++ code ++ fence_close ++ post_md in
  let block := mermaid_block (strip is_space code) in
  let result := h_pre ++ block ++ h_post in
  preprocess_mermaid md_text = (pre_md ++ key0 ++ post_md, [(key0, block)])
  /\ snd (convert_diagrams markdown md_text) = Ok result
  /\ count img_open result = 1
  /\ count key0 result = 0
  /\ occurs key0 result = false.
Proof.
  intros O1 O2 O3 K1 K2 I1 I2 W C. cbv zeta.
  pose proof (preprocess_one_block pre_md code post_md O1 O2 O3) as P.
  repeat match goal with |- _ /\ _ => split end.
  - exact P.
  - unfold convert_diagrams. rewrite P.
    destruct (md_to_html markdown (pre_md ++ key0 ++ post_md)) as [log o].
    cbn [snd] in C. subst o. cbn [snd]. f_equal.
    destruct wrapped.
    + now apply postprocess_wrapped.
    + cbn [orb] in W. apply negb_true_iff in W.
      now apply postprocess_bare.
  - now apply result_one_block.
  - apply count_none. now apply result_no_key.
  - now apply result_no_key.
Qed.

Lemma mermaid_placeholder_round_trip_witness :
  snd (convert_diagrams
         paragraph_converter
         ([] ++ fence_open ++ (lit "graph TD; A-->B" ++ [newline])
             ++ fence_close ++ []))
  = Ok ([] ++ mermaid_block (strip is_space (lit "graph TD; A-->B"
                                                 ++ [newline])) ++ []).
Proof.
  exact (proj1 (proj2 (mermaid_placeholder_round_trip
                         paragraph_converter []
                         (lit "graph TD; A-->B" ++ [newline]) []
                         [] [] true
                         eq_refl eq_refl eq_refl eq_refl eq_refl eq_refl
                         eq_refl eq_refl eq_refl))).
Defined.

(** * Further properties of the code *)

(** ** What a match consumes *)

Section Soundness.

Lemma rep_greedy_sound cls s :
  forall min (k : str -> str -> option mres) x,
    rep_greedy cls min k s = Some x ->
    exists t s', s = t ++ s' /\ forallb cls t = true /\ min <= length t
                 /\ k t s' = Some x.
Proof.
  induction s as [|c s IH]; intros min k x H; simpl in H.
  - destruct min; [|discriminate]. now exists [], [].
  - assert (Stop : (if min =? 0 then k [] (c :: s) else None) = Some x ->
                   exists t s', c :: s = t ++ s' /\ forallb cls t = true
                                /\ min <= length t /\ k t s' = Some x).
    { destruct min; [|discriminate]. intros E. now exists [], (c :: s). }
    destruct (cls c) eqn:Ec; [|now apply Stop].
    destruct (rep_greedy cls (Nat.pred min) (fun t r => k (c :: t) r) s)
      as [y|] eqn:E; [|now apply Stop].
    cbn [orelse] in H. injection H as ->.
    destruct (IH _ _ _ E) as [t [s' [-> [F [L K]]]]].
    exists (c :: t), s'. simpl. rewrite Ec, F. repeat split; [lia|exact K].
Qed.

Lemma rep_lazy_sound cls s :
  forall min (k : str -> str -> option mres) x,
    rep_lazy cls min k s = Some x ->
    exists t s', s = t ++ s' /\ forallb cls t = true /\ min <= length t
                 /\ k t s' = Some x.
Proof.
  induction s as [|c s IH]; intros min k x H; simpl in H.
  - destruct min; [|discriminate].
    destruct (k [] []) eqn:E; [|discriminate].
    cbn [orelse] in H. injection H as ->. now exists [], [].
  - destruct (if min =? 0 then k [] (c :: s) else None) as [y|] eqn:E.
    + cbn [orelse] in H. injection H as ->.
      destruct min; [|discriminate]. now exists [], (c :: s).
    + cbn [orelse] in H. destruct (cls c) eqn:Ec; [|discriminate].
      destruct (IH _ _ _ H) as [t [s' [-> [F [L K]]]]].
      exists (c :: t), s'. simpl. rewrite Ec, F. repeat split; [lia|exact K].
Qed.

(** Whatever the matcher returns comes from its continuation, called on
    a split of the subject. *)
Lemma rmatch_sound r :
  forall (k : kont) p s c x,
    rmatch r k p s c = Some x ->
    exists t s' c', s = t ++ s' /\ k t s' c' = Some x.
Proof.
  induction r as [l|cls min g|n r IH|g r IH|r1 IH1 r2 IH2| |];
    intros k p s c x H; cbn [rmatch] in H.
  - destruct (startswith l s) eqn:E; [|discriminate].
    exists l, (skipn (length l) s), c. split; [|exact H].
    now apply startswith_elim.
  - destruct g.
    + apply rep_greedy_sound in H as [t [s' [E [_ [_ K]]]]].
      now exists t, s', c.
    + apply rep_lazy_sound in H as [t [s' [E [_ [_ K]]]]].
      now exists t, s', c.
  - apply IH in H as [t [s' [c' [E K]]]]. now exists t, s', ((n, t) :: c').
  - destruct g.
    + destruct (rmatch r k p s c) as [y|] eqn:E.
      * cbn [orelse] in H. injection H as ->. now apply IH in E.
      * cbn [orelse] in H. now exists [], s, c.
    + destruct (k [] s c) as [y|] eqn:E.
      * cbn [orelse] in H. injection H as ->. now exists [], s, c.
      * cbn [orelse] in H. now apply IH in H.
  - apply IH1 in H as [t1 [s1 [c1 [-> K1]]]].
    apply IH2 in K1 as [t2 [s2 [c2 [-> K2]]]].
    exists (t1 ++ t2), s2, c2. split; [now rewrite app_assoc|exact K2].
  - destruct (at_bol p); [|discriminate]. now exists [], s, c.
  - destruct (at_eol s); [|discriminate]. now exists [], s, c.
Qed.

Lemma match_at_prefix r p s t g :
  match_at r p s = Some (t, g) -> exists s', s = t ++ s'.
Proof.
  unfold match_at. intros H.
  apply rmatch_sound in H as [t' [s' [c' [E K]]]].
  injection K as -> _. now exists s'.
Qed.

(** The pieces of a scan, put together, are the subject. *)
Lemma scan_text r s :
  forall n p, n <= length s ->
              flat_map piece_text (scan r n p s) = skipn n s.
Proof.
  induction s as [|c s IH]; intros n p Hn.
  - simpl in Hn. replace n with 0 by lia. cbn [scan skipn].
    destruct (match_at r p []) as [[t g]|] eqn:E; [|reflexivity].
    apply match_at_prefix in E as [s' E].
    symmetry in E. apply app_eq_nil in E as [-> _]. reflexivity.
  - destruct n as [|n]; cbn [scan skipn].
    + destruct (match_at r p (c :: s)) as [[t g]|] eqn:E.
      * apply match_at_prefix in E as [s' E].
        destruct t as [|c' t]; cbn [flat_map piece_text app].
        -- now rewrite (IH 0 (Some c)) by lia.
        -- injection E as <- ->.
           rewrite (IH (length t) (Some c))
             by (rewrite length_app; lia).
           now rewrite skipn_app_len.
      * cbn [flat_map piece_text app]. now rewrite (IH 0 (Some c)) by lia.
    + apply IH. simpl in Hn. lia.
Qed.

Lemma hits_In t g ps : In (t, g) (hits ps) <-> In (Hit t g) ps.
Proof.
  induction ps as [|[c|t' g'] ps IH]; cbn [hits In].
  - tauto.
  - rewrite IH. split; [tauto|]. intros [H|H]; [discriminate|exact H].
  - rewrite IH. split; intros [H|H]; try (right; exact H); left; congruence.
Qed.

(** A substitution that gives every match back as it was changes
    nothing. *)
Lemma re_sub_unchanged r (f : str -> caps -> str) s :
  (forall t g, In (t, g) (re_finditer r s) -> f t g = t) ->
  re_sub r f s = s.
Proof.
  unfold re_sub, re_finditer. intros H.
  rewrite <- (scan_text r s 0 None (Nat.le_0_l _)) at 2. cbn [skipn].
  induction (scan r 0 None s) as [|[c|t g] ps IH]; [reflexivity| |].
  - cbn [flat_map emit piece_text]. f_equal. apply IH.
    intros t g I. apply H. exact I.
  - cbn [flat_map emit piece_text]. rewrite (H t g) by (now left).
    f_equal. apply IH. intros t' g' I. apply H. now right.
Qed.

End Soundness.

(** X1.  A page whose anchor tags with [href] first all point to a
    same-page anchor or to a target beginning with "http" comes back from
    the cross-document rewrite exactly as it went in, whatever the page
    map holds. *)
Theorem cross_links_all_pass_unchanged (html : str) (page_url_map : dict str) :
  forallb passes_through (re_finditer re_a_tag html) = true ->
  rewrite_cross_page_links html page_url_map = html.
Proof.
  intros H. apply re_sub_unchanged. intros t g I.
  rewrite forallb_forall in H. specialize (H (t, g) I).
  unfold passes_through in H. cbn [snd] in H.
  unfold _replace. now rewrite H.
Qed.

Lemma cross_links_all_pass_unchanged_witness :
  let html := lit "<p><a " ++ href_open ++ lit "#top" ++ [dquote]
              ++ lit ">up</a> <a " ++ href_open ++ lit "https://x.org"
              ++ [dquote] ++ lit ">x</a></p>" in
  rewrite_cross_page_links html [(lit "b.html", lit "https://wiki/b")] = html.
Proof.
  intros html.
  exact (cross_links_all_pass_unchanged
           html [(lit "b.html", lit "https://wiki/b")] eq_refl).
Defined.

(** ** Anchors *)

Section AnchorsMore.

Lemma collapse_filter s :
  filter not_hyphen (collapse_runs s) = filter not_hyphen s.
Proof.
  induction s as [|c s IH]; [reflexivity|].
  change (collapse_runs (c :: s))
    with (if is_hyphen c && head_is is_hyphen s
          then collapse_runs s else c :: collapse_runs s).
  unfold not_hyphen in *.
  destruct (is_hyphen c) eqn:Ec; cbn [andb].
  - destruct (head_is is_hyphen s); cbn [filter]; rewrite ?Ec; exact IH.
  - cbn [filter]. rewrite Ec. cbn [negb]. now rewrite IH.
Qed.

Lemma lstrip_filter s :
  filter not_hyphen (lstrip is_hyphen s) = filter not_hyphen s.
Proof.
  induction s as [|c s IH]; [reflexivity|]. cbn [lstrip].
  unfold not_hyphen in *.
  destruct (is_hyphen c) eqn:Ec; [|reflexivity].
  cbn [filter]. now rewrite Ec.
Qed.

Lemma strip_filter s :
  filter not_hyphen (strip is_hyphen s) = filter not_hyphen s.
Proof.
  unfold strip, rstrip.
  now rewrite filter_rev, lstrip_filter, <- filter_rev, rev_involutive,
    lstrip_filter.
Qed.

Lemma collapse_length s : length (collapse_runs s) <= length s.
Proof.
  induction s as [|c s IH]; [reflexivity|].
  change (collapse_runs (c :: s))
    with (if is_hyphen c && head_is is_hyphen s
          then collapse_runs s else c :: collapse_runs s).
  destruct (is_hyphen c && head_is is_hyphen s); simpl; lia.
Qed.

Lemma lstrip_length p s : length (lstrip p s) <= length s.
Proof.
  induction s as [|c s IH]; [reflexivity|]. cbn [lstrip].
  destruct (p c); simpl; lia.
Qed.

Lemma strip_length p s : length (strip p s) <= length s.
Proof.
  unfold strip, rstrip. rewrite length_rev.
  etransitivity; [apply lstrip_length|]. rewrite length_rev.
  apply lstrip_length.
Qed.

Lemma filter_nil_all s :
  filter not_hyphen s = [] <-> forallb is_hyphen s = true.
Proof.
  unfold not_hyphen.
  induction s as [|c s IH]; cbn [filter forallb]; [tauto|].
  destruct (is_hyphen c); cbn [negb andb]; [exact IH|].
  split; discriminate.
Qed.

Lemma occurs_no_double s :
  occurs (lit "--") s = false -> no_double s = true.
Proof.
  intros O. apply no_double_spec. intros a b ->.
  assert (X : occurs (lit "--") (a ++ lit "--" ++ b) = true)
    by (apply occurs_iff; now exists a, b).
  change (lit "--" ++ b) with ("-" :: "-" :: b) in X. congruence.
Qed.

Lemma startswith_head s :
  startswith (lit "-") s = false -> head_is is_hyphen s = false.
Proof.
  destruct s as [|c s]; [reflexivity|].
  change (startswith (lit "-") (c :: s)) with (Ascii.eqb "-" c && true).
  rewrite andb_true_r, (Ascii.eqb_sym "-" c). trivial.
Qed.

End AnchorsMore.

(** X2.  Anchor normalization only ever removes hyphens: the characters
    other than hyphens come out the same and in the same order, the
    result is never longer than the input, and it is empty exactly when
    the input has nothing but hyphens. *)
Theorem normalize_anchor_keeps_text (s : str) :
  filter not_hyphen (_normalize_anchor s) = filter not_hyphen s
  /\ length (_normalize_anchor s) <= length s
  /\ (_normalize_anchor s = [] <-> forallb is_hyphen s = true).
Proof.
  rewrite normalize_collapse.
  assert (F : filter not_hyphen (strip is_hyphen (collapse_runs s))
              = filter not_hyphen s)
    by now rewrite strip_filter, collapse_filter.
  split; [exact F|]. split.
  - etransitivity; [apply strip_length|apply collapse_length].
  - rewrite <- filter_nil_all, <- F. split; [now intros ->|].
    intros H. apply filter_nil_all in H.
    pose proof (strip_head is_hyphen (collapse_runs s)) as Hd.
    destruct (strip is_hyphen (collapse_runs s)) as [|c t]; [reflexivity|].
    simpl in H, Hd. rewrite Hd in H. discriminate.
Qed.

(** X3.  The anchors that normalization leaves as they are, are exactly
    those with no two hyphens in a row and no hyphen at either end. *)
Theorem normalize_anchor_fixed_points (s : str) :
  _normalize_anchor s = s
  <-> occurs (lit "--") s = false
      /\ startswith (lit "-") s = false
      /\ endswith (lit "-") s = false.
Proof.
  split.
  - intros E. rewrite <- E, normalize_collapse. split; [|split].
    + apply no_double_occurs, no_double_strip, collapse_no_double.
    + apply head_startswith, strip_head.
    + unfold endswith. apply head_startswith, strip_last.
  - intros [D [H1 H2]]. rewrite normalize_collapse.
    rewrite collapse_id by now apply occurs_no_double.
    apply strip_id; now apply startswith_head.
Qed.

(** ** Links *)

Section LinksMore.

Lemma rewrite_md_plain s :
  occurs href_open s = false -> rewrite_md_links s = s.
Proof.
  intros O. unfold rewrite_md_links.
  rewrite <- (app_nil_r s) at 1.
  rewrite re_sub_copy; [|reflexivity|].
  - rewrite re_sub_nil by reflexivity. apply app_nil_r.
  - intros a b E _. rewrite app_nil_r. apply md_match_lit.
    exact (no_start_free href_open s O a b E).
Qed.

Lemma rewrite_cross_plain s m :
  anchor_free s = true -> rewrite_cross_page_links s m = s.
Proof.
  intros O. unfold rewrite_cross_page_links.
  rewrite <- (app_nil_r s) at 1.
  rewrite re_sub_copy; [|reflexivity|].
  - rewrite re_sub_nil by reflexivity. apply app_nil_r.
  - intros a b -> Hb. rewrite app_nil_r. apply a_tag_lit.
    apply anchor_free_suffix in O. destruct b as [|x b]; [congruence|].
    cbn [anchor_free] in O. apply andb_prop in O as [O _].
    now apply negb_true_iff in O.
Qed.

Lemma forallb_lstrip (q p : ascii -> bool) s :
  forallb q s = true -> forallb q (lstrip p s) = true.
Proof.
  induction s as [|c s IH]; [trivial|]. cbn [lstrip forallb].
  intros H. destruct (p c); [|exact H].
  apply andb_prop in H as [_ H]. now apply IH.
Qed.

Lemma forallb_rev' (q : ascii -> bool) s :
  forallb q s = true -> forallb q (rev s) = true.
Proof.
  rewrite !forallb_forall. intros H x I. apply H. now apply in_rev.
Qed.

Lemma forallb_collapse (q : ascii -> bool) s :
  forallb q s = true -> forallb q (collapse_runs s) = true.
Proof.
  induction s as [|c s IH]; [trivial|].
  change (collapse_runs (c :: s))
    with (if is_hyphen c && head_is is_hyphen s
          then collapse_runs s else c :: collapse_runs s).
  cbn [forallb]. intros H. apply andb_prop in H as [H1 H2].
  destruct (is_hyphen c && head_is is_hyphen s); cbn [forallb];
    rewrite ?H1; now apply IH.
Qed.

(** Normalization keeps an anchor inside any class of characters. *)
Lemma forallb_normalize (q : ascii -> bool) s :
  forallb q s = true -> forallb q (_normalize_anchor s) = true.
Proof.
  intros H. rewrite normalize_collapse. unfold strip, rstrip.
  now apply forallb_rev', forallb_lstrip, forallb_rev', forallb_lstrip,
    forallb_collapse.
Qed.

Lemma split_head_free c s :
  forallb (fun x => negb (Ascii.eqb x c)) s = true -> split_head c s = s.
Proof.
  induction s as [|x s IH]; [reflexivity|]. cbn [forallb split_head].
  intros H. apply andb_prop in H as [H1 H2]. apply negb_true_iff in H1.
  now rewrite H1, IH.
Qed.

Lemma split_head_app c a b :
  forallb (fun x => negb (Ascii.eqb x c)) a = true ->
  split_head c (a ++ c :: b) = a.
Proof.
  induction a as [|x a IH]; cbn [forallb split_head app].
  - now rewrite Ascii.eqb_refl.
  - intros H. apply andb_prop in H as [H1 H2]. apply negb_true_iff in H1.
    now rewrite H1, IH.
Qed.

(** The link rewrite on an anchor tag whose target has the extension. *)
Lemma rewrite_md_tag ws p tail attrs inner fr :
  occurs href_open (lit "<a" ++ ws) = false ->
  occurs href_open (attrs ++ lit ">" ++ inner ++ lit "</a>") = false ->
  quote_free (p ++ lit ".md" ++ tail) = true ->
  md_split (p ++ lit ".md" ++ tail) = Some (p, fr) ->
  rewrite_md_links (a_tag ws (p ++ lit ".md" ++ tail) attrs inner)
  = a_tag ws (retarget (p ++ lit ".md" ++ tail)) attrs inner.
Proof.
  intros O1 O2 Q S. unfold a_tag.
  set (v := p ++ lit ".md" ++ tail) in *.
  replace (lit "<a" ++ ws ++ href_open ++ v ++ [dquote] ++ attrs
               ++ lit ">" ++ inner ++ lit "</a>")
    with ((lit "<a" ++ ws) ++ href_open
            ++ (v ++ [dquote]) ++ attrs ++ lit ">" ++ inner ++ lit "</a>")
    by now rewrite <- !app_assoc.
  rewrite rewrite_md_pre by exact O1.
  replace (href_open ++ (v ++ [dquote]) ++ attrs ++ lit ">" ++ inner
                     ++ lit "</a>")
    with (href_attr v ++ attrs ++ lit ">" ++ inner ++ lit "</a>")
    by (unfold href_attr; now rewrite <- !app_assoc).
  rewrite (rewrite_md_hit v _ p fr Q S), (rewrite_md_plain _ O2).
  unfold href_attr. now rewrite <- !app_assoc.
Qed.

(** The cross-document rewrite on an anchor tag standing alone. *)
Lemma cross_single m ws h attrs inner :
  0 < length ws -> forallb is_space ws = true ->
  quote_free h = true -> gt_free attrs = true ->
  occurs (lit "</a>") inner = false ->
  rewrite_cross_page_links (a_tag ws h attrs inner) m
  = _replace m (a_tag ws h attrs inner) [(2, inner); (1, h)].
Proof.
  intros Lw Hw Qh Ga Oi.
  pose proof (cross_tag m [] ws h attrs inner [] eq_refl Lw Hw Qh Ga Oi) as C.
  rewrite app_nil_r in C. cbn [app] in C. rewrite C.
  change (rewrite_cross_page_links [] m) with (@nil ascii).
  apply app_nil_r.
Qed.

(** The two rewrites one after the other on an anchor tag. *)
Lemma md_then_cross
        (page_url_map : dict str) (ws p f attrs inner : str) :
  0 < length ws -> forallb is_space ws = true ->
  0 < length p -> quote_free p = true -> hash_free p = true ->
  startswith (lit "http") p = false ->
  quote_free f = true -> gt_free attrs = true ->
  occurs (lit "</a>") inner = false ->
  occurs href_open (lit "<a" ++ ws) = false ->
  occurs href_open (attrs ++ lit ">" ++ inner ++ lit "</a>") = false ->
  let out := match dict_get page_url_map (p ++ lit ".html") with
             | Some url => mapped_link url inner
             | None => strong_text inner
             end in
  rewrite_cross_page_links
    (rewrite_md_links (a_tag ws (p ++ lit ".md") attrs inner)) page_url_map
  = out
  /\ rewrite_cross_page_links
       (rewrite_md_links (a_tag ws (p ++ lit ".md" ++ lit "#" ++ f) attrs inner))
       page_url_map
     = out.
Proof.
  intros Lw Hw Lp Qp Hp Np Qf Ga Oi O1 O2. cbv zeta.
  assert (S1 : md_split (p ++ lit ".md" ++ []) = Some (p, None))
    by now apply md_split_path.
  assert (S2 : md_split (p ++ lit ".md" ++ lit "#" ++ f) = Some (p, Some f))
    by now apply md_split_path.
  assert (Q1 : quote_free (p ++ lit ".md" ++ []) = true)
    by now rewrite quote_free_app, Qp.
  assert (Q2 : quote_free (p ++ lit ".md" ++ lit "#" ++ f) = true)
    by (rewrite !quote_free_app, Qp, Qf; reflexivity).
  assert (Hh : forall rest, startswith (lit "#") (p ++ rest) = false).
  { intros rest. destruct p as [|x p]; [simpl in Lp; lia|].
    apply hash_free_cons in Hp as [Hx _].
    change (startswith (lit "#") ((x :: p) ++ rest))
      with (Ascii.eqb "#" x && true).
    now rewrite (Ascii.eqb_sym "#" x), Hx. }
  assert (Hn : forall rest,
             startswith (lit "http") (p ++ "." :: rest) = false).
  { intros rest. rewrite startswith_before; [exact Np|].
    cbv; intuition discriminate. }
  assert (Fp : forallb (fun x => negb (Ascii.eqb x "#")) (p ++ lit ".html")
               = true)
    by (rewrite forallb_app; unfold hash_free in Hp; now rewrite Hp).
  split.
  - pose proof (rewrite_md_tag ws p [] attrs inner None O1 O2 Q1 S1) as R.
    rewrite !app_nil_r in R, S1. rewrite R.
    unfold retarget. rewrite S1.
    rewrite cross_single;
      [|assumption..|now rewrite quote_free_app, Qp|assumption|assumption].
    unfold _replace. cbn [group_or_empty group Nat.eqb].
    change (p ++ lit ".html") with (p ++ "." :: lit "html") at 1 2.
    rewrite Hh, Hn. cbn [orb].
    change (p ++ "." :: lit "html") with (p ++ lit ".html").
    now rewrite (split_head_free "#" _ Fp).
  - rewrite (rewrite_md_tag ws p (lit "#" ++ f) attrs inner (Some f)
                            O1 O2 Q2 S2).
    unfold retarget. rewrite S2.
    rewrite cross_single;
      [|assumption..| |assumption|assumption].
    + unfold _replace. cbn [group_or_empty group Nat.eqb].
      change (p ++ lit ".html" ++ lit "#" ++ _normalize_anchor f)
        with (p ++ "." :: lit "html" ++ lit "#" ++ _normalize_anchor f)
        at 1 2.
      rewrite Hh, Hn. cbn [orb].
      replace (p ++ lit ".html" ++ lit "#" ++ _normalize_anchor f)
        with ((p ++ lit ".html") ++ "#" :: _normalize_anchor f)
        by now rewrite <- app_assoc.
      now rewrite (split_head_app "#" _ _ Fp).
    + rewrite !quote_free_app, Qp. cbn [andb].
      change (quote_free (lit ".html")) with true.
      change (quote_free (lit "#")) with true. cbn [andb].
      now apply forallb_normalize.
Qed.

End LinksMore.

(** X4.  The link rewrite leaves text without the opening of an [href]
    attribute exactly as it is, and the cross-document rewrite leaves
    text in which no anchor tag opens exactly as it is. *)
Theorem rewrites_keep_plain_text (s t : str) (page_url_map : dict str) :
  occurs href_open s = false -> anchor_free t = true ->
  rewrite_md_links s = s /\ rewrite_cross_page_links t page_url_map = t.
Proof.
  intros Hs Ht. split; [now apply rewrite_md_plain|now apply rewrite_cross_plain].
Qed.

Lemma rewrites_keep_plain_text_witness :
  rewrite_md_links (lit "<h1 id=t>See notes.md</h1>")
  = lit "<h1 id=t>See notes.md</h1>"
  /\ rewrite_cross_page_links (lit "<abbr>a</abbr> <b>x</b>")
                              [(lit "b.html", lit "https://wiki/b")]
     = lit "<abbr>a</abbr> <b>x</b>".
Proof.
  exact (rewrites_keep_plain_text
           (lit "<h1 id=t>See notes.md</h1>") (lit "<abbr>a</abbr> <b>x</b>")
           [(lit "b.html", lit "https://wiki/b")] eq_refl eq_refl).
Defined.

(** X5.  The two rewrites in the order [convert_file] applies them: an
    anchor tag whose target is a non-empty path (free of ['#'] and of
    double quotes, not beginning with "http") with the extension [.md],
    with or without a fragment, ends as the link to the page URL when
    the page map holds the path with [.html], and as strong text when it
    does not; the fragment is lost either way. *)
Theorem md_link_then_cross_link
        (page_url_map : dict str) (ws p f attrs inner : str) :
  0 < length ws -> forallb is_space ws = true ->
  0 < length p -> quote_free p = true -> hash_free p = true ->
  startswith (lit "http") p = false ->
  quote_free f = true -> gt_free attrs = true ->
  occurs (lit "</a>") inner = false ->
  occurs href_open (lit "<a" ++ ws) = false ->
  occurs href_open (attrs ++ lit ">" ++ inner ++ lit "</a>") = false ->
  let out := match dict_get page_url_map (p ++ lit ".html") with
             | Some url => mapped_link url inner
             | None => strong_text inner
             end in
  rewrite_cross_page_links
    (rewrite_md_links (a_tag ws (p ++ lit ".md") attrs inner)) page_url_map
  = out
  /\ rewrite_cross_page_links
       (rewrite_md_links (a_tag ws (p ++ lit ".md" ++ lit "#" ++ f) attrs inner))
       page_url_map
     = out.
Proof. apply md_then_cross. Qed.

Lemma md_link_then_cross_link_witness :
  rewrite_cross_page_links
    (rewrite_md_links
       (a_tag (lit " ") (lit "b" ++ lit ".md" ++ lit "#" ++ lit "Sec--A")
              (lit " title=t") (lit "text")))
    [(lit "b.html", lit "https://wiki/b")]
  = mapped_link (lit "https://wiki/b") (lit "text").
Proof.
  exact (proj2 (md_link_then_cross_link
                  [(lit "b.html", lit "https://wiki/b")]
                  (lit " ") (lit "b") (lit "Sec--A") (lit " title=t")
                  (lit "text")
                  (Nat.lt_0_succ 0) eq_refl (Nat.lt_0_succ 0) eq_refl eq_refl
                  eq_refl eq_refl eq_refl eq_refl eq_refl eq_refl)).
Defined.

(** ** The page map *)

Section PageMap.

Lemma str_eqb_refl a : str_eqb a a = true.
Proof. now apply str_eqb_eq. Qed.

Lemma str_eqb_neq a b : a <> b -> str_eqb a b = false.
Proof.
  intros H. destruct (str_eqb a b) eqn:E; [|reflexivity].
  now apply str_eqb_eq in E.
Qed.

Lemma dict_get_set_same {V : Type} (d : dict V) k v :
  dict_get (dict_set d k v) k = Some v.
Proof.
  induction d as [|[k' w] d IH]; cbn [dict_set dict_get].
  - now rewrite str_eqb_refl.
  - destruct (str_eqb k' k) eqn:E; cbn [dict_get]; rewrite E;
      [reflexivity|exact IH].
Qed.

Lemma dict_get_set_other {V : Type} (d : dict V) k v key :
  key <> k -> dict_get (dict_set d k v) key = dict_get d key.
Proof.
  intros N. induction d as [|[k' w] d IH]; cbn [dict_set dict_get].
  - rewrite str_eqb_neq; [reflexivity|congruence].
  - destruct (str_eqb k' k) eqn:E; cbn [dict_get].
    + apply str_eqb_eq in E. subst k'.
      rewrite str_eqb_neq; [reflexivity|congruence].
    + destruct (str_eqb k' key); [reflexivity|exact IH].
Qed.

Lemma build_other files :
  forall m key,
    (forall stem, In stem (map fst files) -> key <> stem ++ lit ".html") ->
    dict_get (build_page_url_map files m) key = dict_get m key.
Proof.
  induction files as [|[stem text] files IH]; intros m key H; [reflexivity|].
  cbn [build_page_url_map]. rewrite IH.
  - apply dict_get_set_other. apply H. now left.
  - intros s I. apply H. now right.
Qed.

Lemma distinct_notin x (l : list str) :
  existsb (str_eqb x) l = false -> ~ In x l.
Proof.
  intros E I. assert (X : existsb (str_eqb x) l = true)
    by (apply existsb_exists; exists x; split; [exact I|apply str_eqb_refl]).
  congruence.
Qed.

Lemma build_lookup files :
  forall m stem text,
    distinct (map fst files) = true -> In (stem, text) files ->
    dict_get (build_page_url_map files m) (stem ++ lit ".html")
    = Some (confluence_page_url (extract_title text)).
Proof.
  induction files as [|[s t] files IH]; intros m stem text D I;
    [destruct I|].
  cbn [map fst distinct] in D. apply andb_prop in D as [D1 D2].
  apply negb_true_iff, distinct_notin in D1.
  cbn [build_page_url_map]. destruct I as [E|I].
  - injection E as -> ->. rewrite build_other.
    + apply dict_get_set_same.
    + intros s' I' E'. apply app_inv_tail in E'. now subst s'.
  - now apply IH.
Qed.

Lemma build_entries files :
  forall m key url,
    dict_get (build_page_url_map files m) key = Some url ->
    dict_get m key = Some url
    \/ exists stem text,
        In (stem, text) files /\ key = stem ++ lit ".html"
        /\ url = confluence_page_url (extract_title text).
Proof.
  induction files as [|[s t] files IH]; intros m key url H; [now left|].
  cbn [build_page_url_map] in H. apply IH in H as [H|[stem [text [I E]]]].
  - destruct (list_eq_dec ascii_dec key (s ++ lit ".html")) as [->|N].
    + rewrite dict_get_set_same in H. injection H as <-.
      right. exists s, t. repeat split. now left.
    + rewrite dict_get_set_other in H by exact N. now left.
  - right. exists stem, text. split; [now right|exact E].
Qed.

Lemma page_url_prefix title :
  startswith url_prefix (confluence_page_url title) = true.
Proof.
  unfold confluence_page_url. cbv zeta.
  change (CONFLUENCE_BASE ++ lit "/wiki/display/" ++ CONFLUENCE_SPACE
          ++ lit "/" ++ replace (lit " ") (lit "+") (quote url_safe title))
    with (url_prefix ++ replace (lit " ") (lit "+") (quote url_safe title)).
  apply startswith_app.
Qed.

End PageMap.

(** X6.  The page map built from a directory whose files have distinct
    stems answers, for every file, the name of its page with the page
    URL of its title; it has no other entries; and every URL in it lies
    under the fixed base path. *)
Theorem build_page_url_map_entries (files : list (str * str)) :
  distinct (map fst files) = true ->
  let mapping := build_page_url_map files [] in
  (forall stem text,
      In (stem, text) files ->
      dict_get mapping (stem ++ lit ".html")
      = Some (confluence_page_url (extract_title text)))
  /\ (forall key url,
         dict_get mapping key = Some url ->
         exists stem text,
           In (stem, text) files /\ key = stem ++ lit ".html"
           /\ url = confluence_page_url (extract_title text)
           /\ startswith url_prefix url = true)
  /\ (forall key,
         (forall stem, In stem (map fst files) -> key <> stem ++ lit ".html") ->
         dict_get mapping key = None).
Proof.
  intros D. cbv zeta. repeat split.
  - intros stem text I. now apply build_lookup.
  - intros key url H.
    apply build_entries in H as [H|[stem [text [I [E1 E2]]]]];
      [discriminate|].
    exists stem, text. repeat split; try assumption.
    subst url. apply page_url_prefix.
  - intros key H. now rewrite build_other.
Qed.

Lemma build_page_url_map_entries_witness :
  dict_get
    (build_page_url_map
       [(lit "a", lit "# A/B Design"); (lit "b", lit "no heading")] [])
    (lit "a" ++ lit ".html")
  = Some (confluence_page_url (extract_title (lit "# A/B Design"))).
Proof.
  exact (proj1 (build_page_url_map_entries
                  [(lit "a", lit "# A/B Design"); (lit "b", lit "no heading")]
                  eq_refl)
               (lit "a") (lit "# A/B Design") (or_introl eq_refl)).
Defined.

(** ** Titles *)

Section Titles.

Lemma advance_cons p c a : advance p (c :: a) = advance (Some c) a.
Proof.
  unfold advance. cbn [rev]. destruct (rev a); reflexivity.
Qed.

(** Text in which no match starts is copied, whatever the pattern looks
    at behind the position. *)
Lemma scan_copy_prev r (pre rest : str) :
  forall p,
    (forall a b, pre = a ++ b -> b <> [] ->
                 match_at r (advance p a) (b ++ rest) = None) ->
    scan r 0 p (pre ++ rest) = map Copy pre ++ scan r 0 (advance p pre) rest.
Proof.
  induction pre as [|c pre IH]; intros p H; [reflexivity|].
  change ((c :: pre) ++ rest) with (c :: pre ++ rest). cbn [scan].
  change (c :: pre ++ rest) with ((c :: pre) ++ rest).
  pose proof (H [] (c :: pre) eq_refl) as H0.
  change (advance p []) with p in H0. rewrite H0 by discriminate.
  cbn [map app]. f_equal. rewrite advance_cons. apply IH.
  intros a b -> Hb. rewrite <- (advance_cons p c a).
  now apply (H (c :: a) b).
Qed.

Lemma hits_copy (pre : str) ps : hits (map Copy pre ++ ps) = hits ps.
Proof. induction pre as [|c pre IH]; [reflexivity|exact IH]. Qed.

Lemma title_lit p s :
  at_bol p && startswith (lit "#") s && head_is is_space (skipn 1 s) = false ->
  match_at re_title p s = None.
Proof.
  intros H. unfold match_at, re_title. cbn [seqs rmatch].
  destruct (at_bol p); [|reflexivity].
  destruct (startswith (lit "#") s); [|reflexivity].
  apply rep_greedy_none. exact H.
Qed.

Lemma no_heading_mark_suffix (a b : str) :
  forall p, no_heading_mark (at_bol p) (a ++ b) = true ->
            no_heading_mark (at_bol (advance p a)) b = true.
Proof.
  induction a as [|x a IH]; intros p H; [exact H|].
  change ((x :: a) ++ b) with (x :: a ++ b) in H. cbn [no_heading_mark] in H.
  apply andb_prop in H as [_ H]. rewrite advance_cons. now apply IH.
Qed.

Lemma title_pre p (pre rest : str) :
  no_heading_mark (at_bol p) pre = true -> head_is is_space rest = false ->
  forall a b, pre = a ++ b -> b <> [] ->
              match_at re_title (advance p a) (b ++ rest) = None.
Proof.
  intros N R a b -> Hb. apply title_lit.
  apply no_heading_mark_suffix in N.
  destruct b as [|c b]; [congruence|]. cbn [no_heading_mark] in N.
  apply andb_prop in N as [N _]. apply negb_true_iff in N.
  change ((c :: b) ++ rest) with (c :: b ++ rest). cbn [skipn].
  change (startswith (lit "#") (c :: b ++ rest))
    with (startswith (lit "#") (c :: b)).
  destruct b as [|d b]; [|exact N].
  cbn [app]. rewrite R. apply andb_false_r.
Qed.

Lemma title_match p (ws t post : str) :
  at_bol p = true ->
  0 < length ws -> forallb is_space ws = true ->
  0 < length t -> head_is is_space t = false ->
  forallb not_newline t = true -> at_eol post = true ->
  match_at re_title p (lit "#" ++ ws ++ t ++ post)
  = Some (lit "#" ++ ws ++ t, [(1, t)]).
Proof.
  intros B Lw Hw Lt Ht Nt E. unfold match_at, re_title. cbn [seqs rmatch].
  rewrite B. rewrite startswith_app, skipn_app_len.
  apply rep_greedy_upto; [exact Hw| |exact Lw|].
  { destruct t; [simpl in Lt; lia|exact Ht]. }
  apply rep_greedy_upto; [exact Nt| |exact Lt|].
  { destruct post as [|c post]; [reflexivity|].
    cbn [at_eol] in E. cbn [head_is]. unfold not_newline. now rewrite E. }
  rewrite E. cbn [app]. now rewrite app_nil_r.
Qed.

Lemma scan_hit_sound r t g s :
  forall n p, In (Hit t g) (scan r n p s) ->
              exists p' s', match_at r p' s' = Some (t, g).
Proof.
  induction s as [|c s IH]; intros n p I.
  - destruct n; cbn [scan] in I; [|destruct I].
    destruct (match_at r p []) as [[t' g']|] eqn:E; [|destruct I].
    destruct I as [I|[]]. injection I as -> ->. now exists p, [].
  - destruct n; cbn [scan] in I; [|now apply IH in I].
    destruct (match_at r p (c :: s)) as [[t' g']|] eqn:E.
    + destruct I as [I|I].
      * injection I as -> ->. now exists p, (c :: s).
      * destruct t' as [|x t'].
        -- destruct I as [I|I]; [discriminate|now apply IH in I].
        -- now apply IH in I.
    + destruct I as [I|I]; [discriminate|now apply IH in I].
Qed.

Lemma title_shape p s t g :
  match_at re_title p s = Some (t, g) ->
  exists t1, g = [(1, t1)] /\ forallb not_newline t1 = true.
Proof.
  unfold match_at, re_title. cbn [seqs rmatch]. intros H.
  destruct (at_bol p); [|discriminate].
  destruct (startswith (lit "#") s); [|discriminate].
  apply rep_greedy_sound in H as [ws [s1 [_ [_ [_ H]]]]].
  apply rep_greedy_sound in H as [t1 [s2 [_ [F [_ H]]]]].
  destruct (at_eol s2); [|discriminate].
  injection H as _ <-. now exists t1.
Qed.

Lemma search_In r s t g :
  re_search r s = Some (t, g) -> In (Hit t g) (scan r 0 None s).
Proof.
  unfold re_search, re_finditer. intros H. apply hits_In.
  destruct (hits (scan r 0 None s)) as [|m ms]; [discriminate|].
  injection H as ->. now left.
Qed.

End Titles.

(** X7.  Take a text that begins with lines none of which starts with
    ['#'] and white space, then has a line made of ['#'], white space
    (of any kind, a line break included) and a text that does not begin
    with white space and runs to the end of its line.  The title is that
    text with the white space at its end taken off. *)
Theorem extract_title_first_heading (pre ws t post : str) :
  no_heading_mark true pre = true -> at_bol (advance None pre) = true ->
  0 < length ws -> forallb is_space ws = true ->
  0 < length t -> head_is is_space t = false ->
  forallb not_newline t = true -> at_eol post = true ->
  extract_title (pre ++ lit "#" ++ ws ++ t ++ post) = strip is_space t.
Proof.
  intros N B Lw Hw Lt Ht Nt E. unfold extract_title, re_search, re_finditer.
  rewrite scan_copy_prev by (now apply title_pre).
  rewrite hits_copy.
  pose proof (title_match (advance None pre) ws t post B Lw Hw Lt Ht Nt E)
    as M.
  change (lit "#" ++ ws ++ t ++ post) with ("#" :: ws ++ t ++ post) in *.
  cbn [scan]. rewrite M. reflexivity.
Qed.

Lemma extract_title_first_heading_witness :
  extract_title
    ((lit "intro #1" ++ [newline; newline]) ++ lit "#" ++ lit "  "
     ++ lit "My Title  " ++ (newline :: lit "# Second"))
  = strip is_space (lit "My Title  ").
Proof.
  apply (extract_title_first_heading
           (lit "intro #1" ++ [newline; newline]) (lit "  ")
           (lit "My Title  ") (newline :: lit "# Second"));
    solve [reflexivity | simpl; lia].
Defined.

(** X8.  A text none of whose lines begins with ['#'] followed by white
    space has the title "Document": headings of a lower level and a
    ['#'] inside a line do not count. *)
Theorem extract_title_fallback (md_text : str) :
  no_heading_mark true md_text = true ->
  extract_title md_text = lit "Document".
Proof.
  intros N. unfold extract_title, re_search, re_finditer.
  rewrite <- (app_nil_r md_text).
  rewrite scan_copy_prev by (now apply (title_pre None md_text [])).
  rewrite hits_copy. cbn [scan].
  rewrite title_lit by (now rewrite andb_false_r). reflexivity.
Qed.

Lemma extract_title_fallback_witness :
  extract_title (lit "## Setup" ++ [newline] ++ lit "#tag and a # b")
  = lit "Document".
Proof.
  exact (extract_title_fallback
           (lit "## Setup" ++ [newline] ++ lit "#tag and a # b") eq_refl).
Defined.

(** X9.  Whatever the text, the title has no line break in it and no
    white space at either end. *)
Theorem extract_title_one_line (md_text : str) :
  forallb not_newline (extract_title md_text) = true
  /\ head_is is_space (extract_title md_text) = false
  /\ head_is is_space (rev (extract_title md_text)) = false.
Proof.
  unfold extract_title.
  destruct (re_search re_title md_text) as [[t g]|] eqn:E;
    [|repeat split].
  apply search_In, scan_hit_sound in E as [p [s E]].
  apply title_shape in E as [t1 [-> F]].
  cbn [group_or_empty group Nat.eqb]. repeat split.
  - unfold strip, rstrip.
    now apply forallb_rev', forallb_lstrip, forallb_rev', forallb_lstrip.
  - apply strip_head.
  - apply strip_last.
Qed.

(** ** Documents without diagrams *)

Section NoDiagram.

Lemma preprocess_plain (md_text : str) :
  occurs fence_open md_text = false ->
  preprocess_mermaid md_text = (md_text, []).
Proof.
  intros O. unfold preprocess_mermaid.
  rewrite scan_all_copy;
    [|reflexivity
     |intros a b E; apply mermaid_lit;
      exact (no_start_free fence_open md_text O a b E)].
  now rewrite sub_replacer_all_copy.
Qed.

Lemma postprocess_absent (html : str) (placeholders : dict str) :
  forallb (fun kv => negb (occurs (fst kv) html)) placeholders = true ->
  postprocess_placeholders html placeholders = html.
Proof.
  induction placeholders as [|[key block] rest IH]; [reflexivity|].
  cbn [forallb fst postprocess_placeholders].
  rewrite andb_true_iff, negb_true_iff. intros [O H].
  rewrite (replace_none (lit "<p>" ++ key ++ lit "</p>"))
    by (now apply occurs_inside).
  rewrite (replace_none key) by exact O. now apply IH.
Qed.

End NoDiagram.

(** X10.  A text without the opener of a mermaid fence goes through the
    extraction unchanged, with an empty table, and the diagram steps
    around the conversion do nothing: the result is that of the
    conversion alone, calls made and exception raised included. *)
Theorem no_fence_no_diagram_steps
        (markdown : str -> list string -> outcome str) (md_text : str) :
  occurs fence_open md_text = false ->
  preprocess_mermaid md_text = (md_text, [])
  /\ convert_diagrams markdown md_text = md_to_html markdown md_text.
Proof.
  intros O. pose proof (preprocess_plain md_text O) as P.
  split; [exact P|]. unfold convert_diagrams. rewrite P.
  destruct (md_to_html markdown md_text) as [log [body|e]]; reflexivity.
Qed.

Lemma no_fence_no_diagram_steps_witness :
  convert_diagrams paragraph_converter (lit "a ```python fence and text")
  = md_to_html paragraph_converter (lit "a ```python fence and text").
Proof.
  exact (proj2 (no_fence_no_diagram_steps
                  paragraph_converter (lit "a ```python fence and text")
                  eq_refl)).
Defined.

(** X11.  Re-insertion changes nothing in HTML in which no token of the
    table occurs, whatever the table holds. *)
Theorem postprocess_without_tokens (html : str) (placeholders : dict str) :
  forallb (fun kv => negb (occurs (fst kv) html)) placeholders = true ->
  postprocess_placeholders html placeholders = html.
Proof. apply postprocess_absent. Qed.

Lemma postprocess_without_tokens_witness :
  postprocess_placeholders
    (lit "<p>MERMAID_PLACEHOLDER_1_END</p>")
    [(placeholder_key 0, mermaid_block (lit "graph TD;"));
     (placeholder_key 10, mermaid_block (lit "graph LR;"))]
  = lit "<p>MERMAID_PLACEHOLDER_1_END</p>".
Proof.
  exact (postprocess_without_tokens
           (lit "<p>MERMAID_PLACEHOLDER_1_END</p>")
           [(placeholder_key 0, mermaid_block (lit "graph TD;"));
            (placeholder_key 10, mermaid_block (lit "graph LR;"))]
           eq_refl).
Defined.

(** ** The link checker *)

Section CheckerMore.

Lemma insert_file_In x f l : In x (insert_file f l) <-> x = f \/ In x l.
Proof.
  induction l as [|g l IH]; cbn [insert_file In].
  - intuition.
  - destruct (str_ltb (fst g) (fst f)); cbn [In]; [rewrite IH|]; intuition.
Qed.

Lemma sorted_files_In x l : In x (sorted_files l) <-> In x l.
Proof.
  unfold sorted_files. induction l as [|f l IH]; cbn [fold_right In].
  - tauto.
  - rewrite insert_file_In, IH. intuition.
Qed.

Lemma anchored_link_shape p s t g :
  match_at re_anchored_link p s = Some (t, g) ->
  exists u a,
    g = [(2, a); (1, u ++ lit ".html")]
    /\ forallb not_dquote_hash u = true /\ 1 <= length u
    /\ forallb not_dquote a = true /\ 1 <= length a.
Proof.
  unfold match_at, re_anchored_link. cbn [seqs rmatch]. intros H.
  destruct (startswith href_open s); [|discriminate].
  apply rep_greedy_sound in H as [u [s1 [_ [Fu [Lu H]]]]].
  destruct (startswith (lit ".html") s1); [|discriminate].
  destruct (startswith (lit "#") (skipn (length (lit ".html")) s1));
    [|discriminate].
  apply rep_greedy_sound in H as [a [s2 [_ [Fa [La H]]]]].
  destruct (startswith [dquote] s2); [|discriminate].
  injection H as _ <-. now exists u, a.
Qed.

Lemma page_links_shape f l : In l (page_links f) -> link_shape l = true.
Proof.
  unfold page_links, findall2, re_finditer. rewrite map_map, in_map_iff.
  intros [[t g] [<- I]]. apply hits_In, scan_hit_sound in I as [p [s M]].
  apply anchored_link_shape in M as [u [a [-> [Fu [Lu [Fa La]]]]]].
  cbn [fst snd group_or_empty group Nat.eqb link_shape].
  rewrite endswith_app, forallb_app, Fu. unfold quote_free. rewrite Fa.
  rewrite length_app.
  replace (5 <? length u + length (lit ".html")) with true
    by (symmetry; apply Nat.ltb_lt; simpl; lia).
  replace (0 <? length a) with true by (symmetry; apply Nat.ltb_lt; lia).
  reflexivity.
Qed.

Lemma forallb_filter {A : Type} (p q : A -> bool) l :
  forallb p l = true -> forallb p (filter q l) = true.
Proof.
  rewrite !forallb_forall. intros H x I. apply filter_In in I as [I _].
  now apply H.
Qed.

Lemma all_links_shape files : forallb link_shape (all_links files) = true.
Proof.
  apply forallb_forall. intros l I. unfold all_links in I.
  apply in_flat_map in I as [f [_ I]]. now apply (page_links_shape f).
Qed.

Lemma collect_other files :
  forall m name,
    ~ In name (map fst files) ->
    dict_get (collect_ids files m) name = dict_get m name.
Proof.
  induction files as [|[n c] files IH]; intros m name H; [reflexivity|].
  cbn [collect_ids]. rewrite IH.
  - apply dict_get_set_other. intros ->. apply H. now left.
  - intros I. apply H. now right.
Qed.

Lemma collect_lookup files :
  forall m name content,
    distinct (map fst files) = true -> In (name, content) files ->
    dict_get (collect_ids files m) name
    = Some (set_of_list (findall1 re_id content)).
Proof.
  induction files as [|[n c] files IH]; intros m name content D I;
    [destruct I|].
  cbn [map fst distinct] in D. apply andb_prop in D as [D1 D2].
  apply negb_true_iff, distinct_notin in D1.
  cbn [collect_ids]. destruct I as [E|I].
  - injection E as -> ->. rewrite collect_other by exact D1.
    apply dict_get_set_same.
  - now apply IH.
Qed.

Lemma link_ok_resolves files l :
  distinct (map fst files) = true ->
  link_ok (collect_ids files []) l = resolves files l.
Proof.
  intros D. destruct l as [[src tgt] anchor].
  unfold link_ok, resolves, ids_of. cbn [fst snd].
  apply eq_true_iff_eq. rewrite set_mem_In, existsb_exists. split.
  - intros I.
    destruct (in_dec (list_eq_dec ascii_dec) tgt (map fst files)) as [J|J].
    + apply in_map_iff in J as [[n c] [E J]]. cbn [fst] in E. subst n.
      rewrite (collect_lookup files [] tgt c D J) in I.
      apply (proj1 (set_of_list_In _ _)) in I.
      exists (tgt, c). split; [exact J|].
      cbn [fst snd]. rewrite str_eqb_refl. cbn [andb].
      apply existsb_exists. exists anchor. split; [exact I|].
      apply str_eqb_refl.
    + rewrite collect_other in I by exact J. destruct I.
  - intros [[n c] [J E]]. cbn [fst snd] in E.
    apply andb_prop in E as [E1 E2]. apply str_eqb_eq in E1. subst n.
    rewrite (collect_lookup files [] tgt c D J).
    apply set_of_list_In. apply existsb_exists in E2 as [y [I E]].
    apply str_eqb_eq in E. now subst y.
Qed.

End CheckerMore.

(** X12.  Every link the checker counts, OK or broken, has a target that
    is a non-empty name free of ['#'] and double quotes followed by
    [.html], and a non-empty anchor: same-page anchors and links without
    an anchor are never counted. *)
Theorem check_links_counts_anchored_page_links (files : list (str * str)) :
  forallb link_shape (ok (check_links files)) = true
  /\ forallb link_shape (broken (check_links files)) = true.
Proof.
  unfold check_links. rewrite check_files_spec. cbn [ok broken app].
  fold (all_links files).
  split; apply forallb_filter, all_links_shape.
Qed.

(** X13.  With distinct page names, a link is counted OK exactly when
    the directory has its target page and the text of that page sets the
    anchor as an [id]; every other link, a link to a page that is not
    there included, is counted broken.  Pages are looked up whatever
    their place in the directory: a link may point to a page that comes
    later. *)
Theorem check_links_resolves (files : list (str * str)) :
  distinct (map fst files) = true ->
  ok (check_links files) = filter (resolves files) (all_links files)
  /\ broken (check_links files)
     = filter (fun l => negb (resolves files l)) (all_links files).
Proof.
  intros D. unfold check_links. rewrite check_files_spec.
  cbn [ok broken app]. fold (all_links files).
  split; apply filter_ext; intros l; now rewrite link_ok_resolves.
Qed.

Lemma check_links_resolves_witness :
  broken (check_links [page_A; page_B])
  = filter (fun l => negb (resolves [page_A; page_B] l))
           (all_links [page_A; page_B]).
Proof.
  exact (proj2 (check_links_resolves [page_A; page_B] eq_refl)).
Defined.

(** ** Page URLs *)

Section PageUrlMore.

Lemma all_ascii_In c : In c all_ascii.
Proof.
  unfold all_ascii. rewrite <- (ascii_nat_embedding c).
  apply in_map, in_seq. pose proof (nat_ascii_bounded c). lia.
Qed.

Lemma comparable_app (a b x y : str) :
  a ++ x = b ++ y -> comparable a b = true.
Proof.
  intros E. unfold comparable.
  apply app_eq_app in E as [l [[-> _]|[-> _]]];
    rewrite startswith_app; [apply orb_true_r|reflexivity].
Qed.

(** The segments of two different characters are different, and neither
    begins with the other; no segment is empty. *)
Lemma slug_char_code :
  forallb
    (fun c1 =>
       negb (length (slug_char c1) =? 0)
       && forallb (fun c2 => implb (comparable (slug_char c1) (slug_char c2))
                                   (Ascii.eqb c1 c2))
                  all_ascii)
    all_ascii = true.
Proof. vm_compute. reflexivity. Qed.

Lemma slug_char_nonempty c : slug_char c <> [].
Proof.
  pose proof slug_char_code as H. rewrite forallb_forall in H.
  specialize (H c (all_ascii_In c)). apply andb_prop in H as [H _].
  intros E. rewrite E in H. discriminate.
Qed.

Lemma slug_char_prefix_free c1 c2 (x y : str) :
  slug_char c1 ++ x = slug_char c2 ++ y -> c1 = c2.
Proof.
  intros E. apply comparable_app in E.
  pose proof slug_char_code as H. rewrite forallb_forall in H.
  specialize (H c1 (all_ascii_In c1)). apply andb_prop in H as [_ H].
  rewrite forallb_forall in H. specialize (H c2 (all_ascii_In c2)).
  rewrite E in H. now apply Ascii.eqb_eq.
Qed.

Lemma slug_inj (t1 : str) :
  forall t2, flat_map slug_char t1 = flat_map slug_char t2 -> t1 = t2.
Proof.
  induction t1 as [|c1 t1 IH]; intros [|c2 t2] E; cbn [flat_map] in E.
  - reflexivity.
  - symmetry in E. apply app_eq_nil in E as [E _].
    now apply slug_char_nonempty in E.
  - apply app_eq_nil in E as [E _]. now apply slug_char_nonempty in E.
  - pose proof (slug_char_prefix_free c1 c2 _ _ E) as ->.
    apply app_inv_head in E. f_equal. now apply IH.
Qed.

Lemma page_url_shape title :
  confluence_page_url title = url_prefix ++ flat_map slug_char title.
Proof.
  unfold confluence_page_url. cbv zeta. rewrite slug_flat_map.
  now rewrite !app_assoc.
Qed.

Lemma b64_char_plain n : plain_url_char (b64_char n) = true.
Proof.
  unfold b64_char.
  destruct (nth_in_or_default (N.to_nat n) b64_alphabet "=") as [H| ->];
    [|reflexivity].
  revert H. generalize (nth (N.to_nat n) b64_alphabet "=").
  apply forallb_forall. reflexivity.
Qed.

Lemma b64_plain_length bs :
  forallb plain_url_char (urlsafe_b64encode bs) = true
  /\ length (urlsafe_b64encode bs) = 4 * ((length bs + 2) / 3).
Proof.
  assert (G : forall n (l : list byte),
             length l <= n ->
             forallb plain_url_char (urlsafe_b64encode l) = true
             /\ length (urlsafe_b64encode l) = 4 * ((length l + 2) / 3)).
  { clear bs. induction n as [|n IH]; intros bs Hle.
    - destruct bs; [now split|simpl in Hle; lia].
    - destruct bs as [|a [|b [|c bs]]];
        cbn [urlsafe_b64encode forallb app length];
        rewrite ?b64_char_plain; try (now split).
      destruct (IH bs) as [F L]; [simpl in Hle; lia|]. split; [exact F|].
      rewrite L.
      replace (S (S (S (length bs))) + 2)
        with ((length bs + 2) + 1 * 3) by lia.
      rewrite Nat.div_add by lia. lia. }
  now apply (G (length bs)).
Qed.

End PageUrlMore.

(** X14.  Two titles have the same page URL only if they are the same
    title: the segment of the URL can be read back character by
    character. *)
Theorem confluence_page_url_injective (title1 title2 : str) :
  str_eqb (confluence_page_url title1) (confluence_page_url title2)
  = str_eqb title1 title2.
Proof.
  apply eq_true_iff_eq. rewrite !str_eqb_eq, !page_url_shape. split.
  - intros E. apply app_inv_head in E. now apply slug_inj.
  - now intros ->.
Qed.

(** X15.  Whatever the diagram source, the image URL is the fixed
    address, the base64 text and the fixed query, made of letters,
    digits and [- _ = : / . ?] only, so that it stays inside the quoted
    [src] attribute of the image block; the base64 text has four
    characters for every three bytes of the source, the last group
    padded. *)
Theorem mermaid_ink_url_plain (diagram_code : str) :
  forallb plain_url_char (_mermaid_ink_url diagram_code) = true
  /\ quote_free (_mermaid_ink_url diagram_code) = true
  /\ length (_mermaid_ink_url diagram_code)
     = 38 + 4 * ((length (utf8_encode diagram_code) + 2) / 3).
Proof.
  unfold _mermaid_ink_url. cbv zeta.
  destruct (b64_plain_length (utf8_encode diagram_code)) as [F L].
  assert (P : forallb plain_url_char
                (lit "https://mermaid.ink/img/"
                 ++ urlsafe_b64encode (utf8_encode diagram_code)
                 ++ lit "?theme=neutral") = true)
    by (rewrite !forallb_app, F; reflexivity).
  repeat split.
  - exact P.
  - unfold quote_free. rewrite forallb_forall in *. intros c I.
    specialize (P c I). unfold not_dquote.
    destruct (Ascii.eqb c dquote) eqn:E; [|reflexivity].
    apply Ascii.eqb_eq in E. subst c. discriminate.
  - rewrite !length_app, L.
    change (length (lit "https://mermaid.ink/img/")) with 24.
    change (length (lit "?theme=neutral")) with 14. lia.
Qed.

(** ** The tokens of the diagrams *)

Section Tokens.

Lemma key_shape n :
  placeholder_key n = key_prefix ++ str_of_nat n ++ lit "_END".
Proof. reflexivity. Qed.

Lemma uint_digits d :
  forallb is_digit (lit (NilEmpty.string_of_uint d)) = true.
Proof. induction d; simpl; auto. Qed.

Lemma str_of_nat_digits n : forallb is_digit (str_of_nat n) = true.
Proof. apply uint_digits. Qed.

Lemma str_of_nat_inj n m : str_of_nat n = str_of_nat m -> n = m.
Proof.
  unfold str_of_nat, lit. intros E.
  apply (f_equal string_of_list_ascii) in E.
  rewrite !string_of_list_ascii_of_string in E.
  apply (f_equal NilEmpty.uint_of_string) in E.
  rewrite !NilEmpty.usu in E. injection E as E.
  now apply Unsigned.to_uint_inj.
Qed.

Lemma is_digit_facts c :
  is_digit c = true -> Ascii.eqb c "M" = false /\ Ascii.eqb c "_" = false.
Proof. destruct c as [[] [] [] [] [] [] [] []]; now split. Qed.

(** A token read at the beginning of another one is that one. *)
Lemma keys_differ n m (rest : str) :
  n <> m ->
  startswith (placeholder_key n) (placeholder_key m ++ rest) = false.
Proof.
  intros N.
  destruct (startswith (placeholder_key n) (placeholder_key m ++ rest))
    eqn:E; [exfalso|reflexivity].
  apply startswith_elim in E. rewrite !key_shape, <- !app_assoc in E.
  apply app_inv_head in E.
  change (lit "_END" ++ ?x) with ("_" :: lit "END" ++ x) in E.
  apply (split_unique is_digit) in E as [E _];
    [|apply str_of_nat_digits..|reflexivity].
  apply N. symmetry. now apply str_of_nat_inj.
Qed.

Lemma no_ME_digits (d z : str) :
  forallb is_digit d = true -> no_ME (d ++ z) = no_ME z.
Proof.
  induction d as [|c d IH]; [reflexivity|]. cbn [forallb].
  intros H. apply andb_prop in H as [H1 H2].
  change ((c :: d) ++ z) with (c :: d ++ z). cbn [no_ME begins_ME].
  rewrite (proj1 (is_digit_facts c H1)). cbn [andb negb]. now apply IH.
Qed.

Lemma no_ME_key_tail n : no_ME (tl (placeholder_key n)) = true.
Proof.
  rewrite key_shape.
  change (tl (key_prefix ++ str_of_nat n ++ lit "_END"))
    with (tl key_prefix ++ str_of_nat n ++ lit "_END").
  transitivity (no_ME (str_of_nat n ++ lit "_END")); [reflexivity|].
  now rewrite no_ME_digits by apply str_of_nat_digits.
Qed.

Lemma no_ME_suffix (s a1 a2 : str) :
  no_ME s = true -> s = a1 ++ a2 -> a2 <> [] -> begins_ME a2 = false.
Proof.
  intros H ->. induction a1 as [|c a1 IH]; intros Ha.
  - destruct a2 as [|c a2]; [congruence|]. cbn [app no_ME] in H.
    apply andb_prop in H as [H _]. now apply negb_true_iff.
  - change ((c :: a1) ++ a2) with (c :: a1 ++ a2) in H. cbn [no_ME] in H.
    apply andb_prop in H as [_ H]. now apply IH.
Qed.

Lemma begins_start (k a2 rest : str) :
  a2 <> [] -> begins_ME a2 = false ->
  startswith ("M" :: "E" :: k) (a2 ++ rest) = false.
Proof.
  intros Ha H. destruct a2 as [|c a2]; [congruence|].
  change ((c :: a2) ++ rest) with (c :: a2 ++ rest).
  cbn [startswith begins_ME] in *. rewrite (Ascii.eqb_sym "M" c).
  destruct (Ascii.eqb c "M"); [|reflexivity].
  destruct a2 as [|d a2]; [discriminate|]. cbn [app startswith andb] in *.
  rewrite (Ascii.eqb_sym "E" d). now rewrite H.
Qed.

Lemma begins_prefix (k a2 : str) :
  a2 <> [] -> begins_ME a2 = false ->
  startswith a2 ("M" :: "E" :: k) = false.
Proof.
  intros Ha H. destruct a2 as [|c a2]; [congruence|].
  cbn [startswith begins_ME] in *.
  destruct (Ascii.eqb c "M"); [|reflexivity].
  destruct a2 as [|d a2]; [discriminate|]. cbn [startswith andb] in *.
  now rewrite H.
Qed.

Lemma key_ME n :
  placeholder_key n = "M" :: "E" :: tl (tl (placeholder_key n)).
Proof. reflexivity. Qed.

Lemma key_inner n (a1 a2 : str) :
  placeholder_key n = a1 ++ a2 -> a1 <> [] -> a2 <> [] ->
  begins_ME a2 = false.
Proof.
  intros E H1 H2. destruct a1 as [|c a1]; [congruence|].
  apply (no_ME_suffix (tl (placeholder_key n)) a1 a2);
    [apply no_ME_key_tail|now rewrite E|exact H2].
Qed.

(** Inside the token of one diagram, the token of another one does not
    begin. *)
Lemma key_piece n m (rest : str) :
  n <> m ->
  forall a1 a2, placeholder_key m = a1 ++ a2 -> a2 <> [] ->
                startswith (placeholder_key n) (a2 ++ rest) = false.
Proof.
  intros N a1 a2 E Ha. destruct a1 as [|c a1].
  - simpl in E. subst a2. now apply keys_differ.
  - rewrite (key_ME n). apply begins_start; [exact Ha|].
    apply (key_inner m (c :: a1) a2 E); [discriminate|exact Ha].
Qed.

Lemma key_unbordered n : unbordered (placeholder_key n) = true.
Proof.
  unfold unbordered. apply forallb_forall. intros i Hi.
  apply in_seq in Hi. apply negb_true_iff.
  assert (L : length (skipn i (placeholder_key n))
              = length (placeholder_key n) - i) by apply length_skipn.
  assert (F : length (firstn i (placeholder_key n)) = i)
    by (apply firstn_length_le; lia).
  rewrite (key_ME n) at 2. apply begins_prefix.
  - intros E. rewrite E in L. cbn [length] in L. lia.
  - apply (key_inner n (firstn i (placeholder_key n))).
    + symmetry. apply firstn_skipn.
    + intros E. rewrite E in F. cbn [length] in F. lia.
    + intros E. rewrite E in L. cbn [length] in L. lia.
Qed.

Lemma key_chars n : forallb key_char (placeholder_key n) = true.
Proof.
  rewrite key_shape, !forallb_app. rewrite andb_true_iff. split.
  - reflexivity.
  - rewrite andb_true_iff. split; [|reflexivity].
    pose proof (str_of_nat_digits n) as H. rewrite forallb_forall in *.
    intros c I. unfold key_char. now rewrite (H c I).
Qed.

Lemma key_no_char n c : key_char c = false -> ~ In c (placeholder_key n).
Proof.
  intros H I. pose proof (key_chars n) as K. rewrite forallb_forall in K.
  rewrite (K c I) in H. discriminate.
Qed.

Lemma occurs_key_prefix n (s : str) :
  occurs key_prefix s = false -> occurs (placeholder_key n) s = false.
Proof.
  intros O. rewrite key_shape.
  now apply (occurs_inside [] key_prefix (str_of_nat n ++ lit "_END")).
Qed.

End Tokens.

(** X16.  The token of one diagram occurs in the token of another one
    only if the two are the same diagram: the token of diagram 1 is not
    part of the token of diagram 10. *)
Theorem placeholder_keys_do_not_overlap (n m : nat) :
  occurs (placeholder_key n) (placeholder_key m) = Nat.eqb n m.
Proof.
  destruct (Nat.eqb n m) eqn:E.
  - apply Nat.eqb_eq in E. subst m. apply occurs_iff.
    exists [], []. now rewrite app_nil_r.
  - apply Nat.eqb_neq in E.
    rewrite <- (app_nil_r (placeholder_key m)).
    rewrite occurs_app_copy by (now apply key_piece).
    reflexivity.
Qed.

(** ** Documents with several diagrams *)

Section Diagrams.

Lemma scan_fence (pre code rest : str) :
  occurs fence_open pre = false ->
  occurs fence_close (code ++ lit "``") = false ->
  scan re_mermaid 0 None (pre ++ fence_open ++ code ++ fence_close ++ rest)
  = map Copy pre
    ++ Hit (fence_open ++ code ++ fence_close) [(1, code)]
    :: scan re_mermaid 0 None rest.
Proof.
  intros O1 O2.
  rewrite scan_copy;
    [|reflexivity
     |intros a b E Hb; apply mermaid_lit;
      now apply (no_start_unbordered fence_open pre _ eq_refl O1 a b)].
  f_equal.
  pose proof (mermaid_match None code rest O2) as M.
  replace (fence_open ++ code ++ fence_close ++ rest)
    with ("`" :: (tl fence_open ++ code ++ fence_close) ++ rest) in *
    by (unfold fence_open; cbn [lit list_ascii_of_string app tl];
        now rewrite <- !app_assoc).
  change (fence_open ++ code ++ fence_close)
    with ("`" :: tl fence_open ++ code ++ fence_close) in *.
  apply (scan_hit re_mermaid None "`" _ rest _ eq_refl M).
Qed.

Lemma dict_set_new {V : Type} (d : dict V) k v :
  dict_get d k = None -> dict_set d k v = d ++ [(k, v)].
Proof.
  induction d as [|[k' w] d IH]; cbn [dict_get dict_set app];
    [reflexivity|].
  destruct (str_eqb k' k); [discriminate|]. intros H. now rewrite IH.
Qed.

Lemma dict_get_app_none {V : Type} (d d' : dict V) k :
  dict_get d k = None -> dict_get (d ++ d') k = dict_get d' k.
Proof.
  induction d as [|[k' w] d IH]; cbn [dict_get app]; [reflexivity|].
  destruct (str_eqb k' k); [discriminate|exact IH].
Qed.

Lemma key_neq n m : n <> m -> str_eqb (placeholder_key n) (placeholder_key m) = false.
Proof.
  intros N. apply str_eqb_neq. intros E.
  pose proof (keys_differ n m [] N) as K.
  rewrite <- E, startswith_app in K. discriminate.
Qed.

Lemma sub_fenced (tail : str) :
  occurs fence_open tail = false ->
  forall bs n tbl,
    forallb well_fenced bs = true ->
    (forall m, n <= m -> dict_get tbl (placeholder_key m) = None) ->
    sub_replacer (scan re_mermaid 0 None (fenced bs tail)) (n, tbl)
    = (tokens_for n bs tail, (n + length bs, tbl ++ key_table n bs)).
Proof.
  intros Ot. induction bs as [|[pre code] bs IH]; intros n tbl W T.
  - cbn [fenced tokens_for key_table length].
    rewrite scan_all_copy;
      [|reflexivity
       |intros a b E; apply mermaid_lit;
        exact (no_start_free fence_open tail Ot a b E)].
    now rewrite sub_replacer_all_copy, Nat.add_0_r, app_nil_r.
  - cbn [forallb] in W. apply andb_prop in W as [W1 W2].
    unfold well_fenced in W1. cbn [fst snd] in W1.
    apply andb_prop in W1 as [O1 O2].
    apply negb_true_iff in O1. apply negb_true_iff in O2.
    cbn [fenced tokens_for key_table length].
    rewrite scan_fence by assumption. rewrite sub_replacer_copy.
    cbn [sub_replacer replacer group_or_empty group Nat.eqb].
    rewrite (dict_set_new tbl) by (apply T; lia).
    rewrite IH; [|exact W2|].
    + cbn [fst snd]. f_equal. f_equal; [lia|].
      now rewrite <- app_assoc.
    + intros m Hm. rewrite dict_get_app_none by (apply T; lia).
      cbn [dict_get]. rewrite key_neq by lia. reflexivity.
Qed.

Lemma preprocess_fenced (blocks : list (str * str)) (tail : str) :
  forallb well_fenced blocks = true -> occurs fence_open tail = false ->
  preprocess_mermaid (fenced blocks tail)
  = (tokens_for 0 blocks tail, key_table 0 blocks).
Proof.
  intros W O. unfold preprocess_mermaid.
  pose proof (sub_fenced tail O blocks 0 [] W (fun m _ => eq_refl)) as H.
  unfold dict in *. now rewrite H.
Qed.

End Diagrams.

(** X17.  In a document with any number of fenced diagrams, each closed
    by the first closing fence after its opener, extraction puts the
    token numbered 0, 1, 2, ... in the order of the diagrams where each
    fence stood, leaves the text around the fences as it is, and records
    the image blocks in the table in the same order. *)
Theorem preprocess_all_fences (blocks : list (str * str)) (tail : str) :
  forallb well_fenced blocks = true -> occurs fence_open tail = false ->
  preprocess_mermaid (fenced blocks tail)
  = (tokens_for 0 blocks tail, key_table 0 blocks).
Proof. apply preprocess_fenced. Qed.

Lemma preprocess_all_fences_witness :
  preprocess_mermaid
    (fenced [(lit "one ", lit "graph TD; A-->B" ++ [newline]);
             (lit " two ", newline :: lit "graph LR; C-->D")]
            (lit " end"))
  = (lit "one MERMAID_PLACEHOLDER_0_END two MERMAID_PLACEHOLDER_1_END end",
     [(lit "MERMAID_PLACEHOLDER_0_END",
       mermaid_block (lit "graph TD; A-->B"));
      (lit "MERMAID_PLACEHOLDER_1_END",
       mermaid_block (lit "graph LR; C-->D"))]).
Proof.
  exact (preprocess_all_fences
           [(lit "one ", lit "graph TD; A-->B" ++ [newline]);
            (lit " two ", newline :: lit "graph LR; C-->D")]
           (lit " end") eq_refl eq_refl).
Defined.

(** ** Re-insertion of several diagrams *)

Section Reinsertion.

Ltac read_prefix E :=
  apply startswith_elim in E;
  unfold key_prefix, enc3 in E;
  cbn [lit list_ascii_of_string app] in E;
  injection E; intros.

(** The token text does not begin in a group followed by two more
    groups. *)
Lemma prefix_not_in_groups a b c a1 b1 c1 a2 b2 c2 rest :
  okb a1 = true -> okb b1 = true -> okb c1 = true ->
  okb a2 = true -> okb b2 = true -> okb c2 = true ->
  let s := enc3 a b c ++ enc3 a1 b1 c1 ++ enc3 a2 b2 c2 ++ rest in
  startswith key_prefix s = false
  /\ startswith key_prefix (skipn 1 s) = false
  /\ startswith key_prefix (skipn 2 s) = false
  /\ startswith key_prefix (skipn 3 s) = false.
Proof.
  intros Ha1 Hb1 Hc1 Ha2 Hb2 Hc2. cbv zeta.
  repeat split;
    match goal with
    | |- ?x = false => destruct x eqn:E; [exfalso|reflexivity]
    end; cbn [skipn enc3 app] in E; read_prefix E.
  - eapply (group_D_ b1 c1); eassumption.
  - eapply (group__first a2); eassumption.
  - eapply (group__second a2 b2); eassumption.
  - eapply (group__P b2 c2); eassumption.
Qed.

Lemma b64_text_no_prefix s : b64_text s -> occurs key_prefix s = false.
Proof.
  induction 1 as [|t Ht|a b c s Ha Hb Hc Hs IH].
  - reflexivity.
  - apply occurs_short. rewrite Ht. simpl. lia.
  - unfold enc3 at 1. cbn [app occurs]. rewrite IH, !orb_false_r.
    fold (enc3 a b c).
    assert (G : startswith key_prefix (enc3 a b c ++ s) = false
                /\ startswith key_prefix (skipn 1 (enc3 a b c ++ s)) = false
                /\ startswith key_prefix (skipn 2 (enc3 a b c ++ s)) = false
                /\ startswith key_prefix (skipn 3 (enc3 a b c ++ s)) = false).
    { inversion Hs as [E0|t Ht E0|a1 b1 c1 s1 Ha1 Hb1 Hc1 Hs1 E0].
      - repeat split; apply startswith_short; simpl; lia.
      - repeat split; apply startswith_short; cbn [enc3 app skipn length];
          rewrite Ht; simpl; lia.
      - inversion Hs1 as [E1|t Ht E1|a2 b2 c2 s2 Ha2 Hb2 Hc2 Hs2 E1].
        + repeat split; apply startswith_short; simpl; lia.
        + repeat split; apply startswith_short;
            cbn [enc3 app skipn length]; rewrite Ht; simpl; lia.
        + now apply prefix_not_in_groups. }
    destruct G as [G0 [G1 [G2 G3]]].
    cbn [enc3 app skipn] in G0, G1, G2, G3.
    now rewrite G0, G1, G2, G3.
Qed.

Lemma b64_no_prefix d :
  occurs key_prefix (urlsafe_b64encode (utf8_encode d)) = false.
Proof. apply b64_text_no_prefix, b64_encode_text, utf8_encode_ok. Qed.

(** No token begins in a text free of ['M']. *)
Lemma key_first n (a b : str) :
  forallb (fun c => negb (Ascii.eqb "M" c)) a = true ->
  forall a1 a2, a = a1 ++ a2 -> a2 <> [] ->
                startswith (placeholder_key n) (a2 ++ b) = false.
Proof. exact (no_start_first "M" (tl (placeholder_key n)) a b). Qed.

(** No token begins in a text free of the token text that is followed
    by a character foreign to tokens. *)
Lemma key_char_sep n c (a b : str) :
  occurs key_prefix a = false -> key_char c = false ->
  forall a1 a2, a = a1 ++ a2 -> a2 <> [] ->
                startswith (placeholder_key n) (a2 ++ c :: b) = false.
Proof.
  intros O H. apply no_start_char;
    [now apply occurs_key_prefix|now apply key_no_char].
Qed.

(** Nor in such a text followed by a token. *)
Lemma key_in_text n m (h rest : str) :
  occurs key_prefix h = false ->
  forall a1 a2, h = a1 ++ a2 -> a2 <> [] ->
                startswith (placeholder_key n)
                           (a2 ++ placeholder_key m ++ rest) = false.
Proof.
  intros O a1 a2 E Ha.
  destruct (startswith (placeholder_key n)
                       (a2 ++ placeholder_key m ++ rest)) eqn:S;
    [|reflexivity].
  rewrite (key_shape n) in S. apply startswith_shorter in S.
  rewrite (key_shape m), <- app_assoc in S.
  now rewrite (no_start_unbordered key_prefix h _ eq_refl O a1 a2 E Ha) in S.
Qed.

Lemma key_not_at n c (s : str) :
  key_char c = false -> startswith (placeholder_key n) (c :: s) = false.
Proof.
  intros H. rewrite (key_ME n). cbn [startswith].
  destruct (Ascii.eqb "M" c) eqn:E; [|reflexivity].
  apply Ascii.eqb_eq in E. subst c. discriminate.
Qed.

(** An image block holds no token, and none begins in it. *)
Lemma block_no_key n code (s : str) :
  occurs (placeholder_key n) (mermaid_block code ++ s)
  = occurs (placeholder_key n) s.
Proof.
  rewrite block_shape, <- !app_assoc.
  rewrite occurs_app_copy by (apply key_first; reflexivity).
  change (img_tail ++ [">"] ++ s) with ("?" :: tl img_tail ++ ">" :: s).
  rewrite occurs_app_copy
    by (apply key_char_sep; [apply b64_no_prefix|reflexivity]).
  change ("?" :: tl img_tail ++ ">" :: s) with (img_tail ++ ">" :: s).
  rewrite occurs_app_copy by (apply key_char_sep; reflexivity).
  cbn [occurs]. now rewrite key_not_at.
Qed.

Lemma text_block_no_key n (h : str) code (s : str) :
  occurs key_prefix h = false ->
  occurs (placeholder_key n) (h ++ mermaid_block code ++ s)
  = occurs (placeholder_key n) s.
Proof.
  intros O. rewrite <- (block_no_key n code s).
  apply occurs_app_copy. rewrite block_shape, <- !app_assoc.
  change (img_head ++ ?x) with ("<" :: tl img_head ++ x).
  now apply key_char_sep.
Qed.

Lemma endswith_after_block (l : str) code (h : str) :
  endswith (lit "<p>") ((l ++ mermaid_block code) ++ h)
  = endswith (lit "<p>") h.
Proof.
  unfold endswith, mermaid_block. rewrite !app_assoc.
  rewrite !rev_app_distr.
  change (rev (lit " />")) with (lit ">/ ").
  rewrite <- ?app_assoc.
  destruct (rev h) as [|x [|y [|z r]]]; reflexivity.
Qed.

(** The tokens of the later diagrams do not hold the token of an
    earlier one. *)
Lemma tokens_free n (tail : str) :
  occurs key_prefix tail = false ->
  forall its m,
    n < m -> forallb token_place its = true ->
    occurs (placeholder_key n) (html_tokens m its tail) = false.
Proof.
  intros Ot. induction its as [|[h w] its IH]; intros m Hm F.
  - now apply occurs_key_prefix.
  - cbn [forallb] in F. apply andb_prop in F as [F1 F2].
    unfold token_place in F1. cbn [fst snd] in F1.
    apply andb_prop in F1 as [O _]. apply negb_true_iff in O.
    cbn [html_tokens]. destruct w; unfold token.
    + rewrite <- !app_assoc.
      rewrite occurs_app_copy
        by (change (lit "<p>" ++ ?x) with ("<" :: lit "p>" ++ x);
            now apply key_char_sep).
      rewrite occurs_app_copy by (apply key_first; reflexivity).
      rewrite occurs_app_copy by (apply key_piece; lia).
      rewrite occurs_app_copy by (apply key_first; reflexivity).
      apply IH; [lia|exact F2].
    + rewrite occurs_app_copy by (now apply key_in_text).
      rewrite occurs_app_copy by (apply key_piece; lia).
      apply IH; [lia|exact F2].
Qed.

(** One turn of the loop on a bare token. *)
Lemma reinsert_bare (key block l r : str) :
  unbordered key = true -> key <> [] ->
  occurs key l = false -> occurs key r = false ->
  endswith (lit "<p>") l = false ->
  replace key block
          (replace (lit "<p>" ++ key ++ lit "</p>") block (l ++ key ++ r))
  = l ++ block ++ r.
Proof.
  intros U K Ol Or W.
  assert (A : occurs (lit "<p>" ++ key ++ lit "</p>") (l ++ key ++ r)
              = false).
  { destruct (occurs (lit "<p>" ++ key ++ lit "</p>") (l ++ key ++ r))
      eqn:E; [|reflexivity].
    apply occurs_iff in E as [x [y E]].
    assert (E' : l ++ key ++ r
                 = (x ++ lit "<p>") ++ key ++ (lit "</p>" ++ y))
      by (rewrite E; now rewrite <- !app_assoc).
    apply unique_occurrence in E' as [-> _]; [|exact U|exact Ol|exact Or].
    now rewrite endswith_app in W. }
  rewrite (replace_none _ block _ A).
  rewrite replace_copy by now apply no_start_unbordered.
  rewrite replace_hit by exact K.
  now rewrite (replace_none key block r Or).
Qed.

(** One turn of the loop on a token in a paragraph of its own. *)
Lemma reinsert_wrapped (key block l r : str) :
  unbordered key = true ->
  occurs key (l ++ lit "<p>") = false -> occurs key r = false ->
  occurs key (l ++ block ++ r) = false ->
  replace key block
          (replace (lit "<p>" ++ key ++ lit "</p>") block
                   (l ++ (lit "<p>" ++ key ++ lit "</p>") ++ r))
  = l ++ block ++ r.
Proof.
  intros U Ol Or Ob.
  rewrite replace_copy.
  - rewrite replace_hit by discriminate.
    rewrite (replace_none (lit "<p>" ++ key ++ lit "</p>") block r)
      by (now apply occurs_inside).
    now apply replace_none.
  - intros a1 a2 E Ha.
    destruct (startswith (lit "<p>" ++ key ++ lit "</p>")
                         (a2 ++ (lit "<p>" ++ key ++ lit "</p>") ++ r))
      eqn:S; [exfalso|reflexivity].
    apply startswith_elim in S.
    remember (skipn (length (lit "<p>" ++ key ++ lit "</p>"))
                    (a2 ++ (lit "<p>" ++ key ++ lit "</p>") ++ r)) as y.
    clear Heqy.
    assert (S' : (a2 ++ lit "<p>") ++ key ++ (lit "</p>" ++ r)
                 = lit "<p>" ++ key ++ (lit "</p>" ++ y))
      by (rewrite <- !app_assoc in *; exact S).
    assert (Oa : occurs key (a2 ++ lit "<p>") = false).
    { apply (occurs_suffix key a1). rewrite app_assoc, <- E. exact Ol. }
    apply app_eq_app in S' as [m [[E1 E2]|[E1 E2]]].
    + destruct m as [|c m].
      * rewrite app_nil_r in E1. apply (f_equal (@length ascii)) in E1.
        rewrite length_app in E1. destruct a2; [congruence|].
        simpl in E1. lia.
      * apply second_occurrence in E2 as [l' El];
          [|exact U|discriminate].
        rewrite El in E1.
        assert (X : occurs key (a2 ++ lit "<p>") = true)
          by (apply occurs_iff; exists (lit "<p>"), l'; exact E1).
        congruence.
    + apply (f_equal (@length ascii)) in E1.
      rewrite !length_app in E1. destruct a2; [congruence|].
      simpl in E1. lia.
Qed.

Lemma images_free k (tail : str) :
  occurs key_prefix tail = false ->
  forall items blocks,
    forallb token_place items = true ->
    occurs (placeholder_key k) (html_images items blocks tail) = false.
Proof.
  intros Ot. induction items as [|[h w] its IH]; intros blocks F;
    [now apply occurs_key_prefix|].
  destruct blocks as [|[pre code] bs]; [now apply occurs_key_prefix|].
  cbn [forallb] in F. apply andb_prop in F as [F1 F2].
  unfold token_place in F1. cbn [fst snd] in F1.
  apply andb_prop in F1 as [O _]. apply negb_true_iff in O.
  cbn [html_images]. rewrite text_block_no_key by exact O. now apply IH.
Qed.

Lemma reinsert (tail : str) :
  occurs key_prefix tail = false ->
  forall items blocks n (l : str),
    length items = length blocks ->
    forallb token_place items = true ->
    (forall k s, occurs (placeholder_key k) (l ++ s)
                 = occurs (placeholder_key k) s) ->
    (forall h, endswith (lit "<p>") (l ++ h) = endswith (lit "<p>") h) ->
    postprocess_placeholders (l ++ html_tokens n items tail)
                             (key_table n blocks)
    = l ++ html_images items blocks tail.
Proof.
  intros Ot. induction items as [|[h w] its IH];
    intros [|[pre code] bs] n l Len F C1 C2; try discriminate.
  - reflexivity.
  - cbn [forallb] in F. apply andb_prop in F as [F1 F2].
    unfold token_place in F1. cbn [fst snd] in F1.
    apply andb_prop in F1 as [O W]. apply negb_true_iff in O.
    cbn [html_tokens key_table html_images postprocess_placeholders].
    set (B := mermaid_block (strip is_space code)).
    set (X := html_tokens (S n) its tail).
    assert (Ox : occurs (placeholder_key n) X = false)
      by (apply tokens_free; [exact Ot|lia|exact F2]).
    assert (Oh : occurs (placeholder_key n) h = false)
      by (now apply occurs_key_prefix).
    assert (St : replace (placeholder_key n) B
                   (replace (lit "<p>" ++ placeholder_key n ++ lit "</p>") B
                            (l ++ h ++ token n w ++ X))
                 = (l ++ h ++ B) ++ X).
    { replace (l ++ h ++ token n w ++ X) with ((l ++ h) ++ token n w ++ X)
        by (now rewrite <- app_assoc).
      replace ((l ++ h ++ B) ++ X) with ((l ++ h) ++ B ++ X)
        by (now rewrite <- !app_assoc).
      destruct w; unfold token.
      - apply reinsert_wrapped; [apply key_unbordered| |exact Ox|].
        + rewrite <- app_assoc, C1.
          rewrite occurs_app_copy
            by (change (lit "<p>") with ("<" :: lit "p>");
                now apply key_char_sep).
          apply occurs_short. rewrite key_shape, length_app.
          change (length (lit "<p>")) with 3.
          change (length key_prefix) with 20. lia.
        + rewrite <- app_assoc, C1. unfold B.
          now rewrite text_block_no_key.
      - apply reinsert_bare;
          [apply key_unbordered|rewrite key_ME; discriminate
          |now rewrite C1|exact Ox|].
        rewrite C2. cbn [orb] in W. now apply negb_true_iff. }
    rewrite St. unfold X. rewrite IH.
    + now rewrite <- !app_assoc.
    + simpl in Len. lia.
    + exact F2.
    + intros k s. rewrite <- !app_assoc. rewrite C1. unfold B.
      now apply text_block_no_key.
    + intros h'. rewrite app_assoc. unfold B. apply endswith_after_block.
Qed.

Lemma reinsert_all (items : list (str * bool)) (blocks : list (str * str))
      (tail : str) :
  length items = length blocks ->
  forallb token_place items = true -> occurs key_prefix tail = false ->
  postprocess_placeholders (html_tokens 0 items tail) (key_table 0 blocks)
  = html_images items blocks tail.
Proof.
  intros Len F Ot.
  exact (reinsert tail Ot items blocks 0 [] Len F
                  (fun _ _ => eq_refl) (fun _ => eq_refl)).
Qed.

End Reinsertion.

(** X18.  Take HTML that holds the tokens of the diagrams once each, in
    their order, each in a paragraph of its own or bare (a bare one not
    right after the opening of a paragraph), the HTML around them free of
    the token text.  Re-insertion with the table of the extraction puts
    the image block of every diagram where its token stood, takes the
    paragraph of a wrapped token away, leaves the HTML around the tokens
    as it is, and leaves no token behind. *)
Theorem postprocess_all_tokens
        (items : list (str * bool)) (blocks : list (str * str))
        (tail : str) :
  length items = length blocks ->
  forallb token_place items = true -> occurs key_prefix tail = false ->
  postprocess_placeholders (html_tokens 0 items tail) (key_table 0 blocks)
  = html_images items blocks tail
  /\ forall n, occurs (placeholder_key n) (html_images items blocks tail)
               = false.
Proof.
  intros Len F Ot. split; [now apply reinsert_all|].
  intros n. now apply images_free.
Qed.

Lemma postprocess_all_tokens_witness :
  postprocess_placeholders
    (html_tokens 0 [(lit "<h1>T</h1>", true); (lit "<ul><li>", false)]
                 (lit "</li></ul>"))
    (key_table 0 [(lit "one ", lit "graph TD; A-->B");
                  (lit " two ", lit "graph LR; C-->D")])
  = lit "<h1>T</h1>" ++ mermaid_block (lit "graph TD; A-->B")
    ++ lit "<ul><li>" ++ mermaid_block (lit "graph LR; C-->D")
    ++ lit "</li></ul>".
Proof.
  exact (proj1 (postprocess_all_tokens
                  [(lit "<h1>T</h1>", true); (lit "<ul><li>", false)]
                  [(lit "one ", lit "graph TD; A-->B");
                   (lit " two ", lit "graph LR; C-->D")]
                  (lit "</li></ul>") eq_refl eq_refl eq_refl)).
Defined.



(** ** Links between the documents of a directory *)

(** X20.  With the page map built from a directory of documents with
    distinct names, a link to another document of the directory, written
    with the extension [.md] and with or without a fragment (the name
    free of ['#'] and of double quotes and not beginning with "http"),
    ends as the link to the page URL made from the title of that
    document. *)
Theorem document_link_reaches_page
        (files : list (str * str)) (stem text ws f attrs inner : str) :
  distinct (map fst files) = true -> In (stem, text) files ->
  0 < length ws -> forallb is_space ws = true ->
  0 < length stem -> quote_free stem = true -> hash_free stem = true ->
  startswith (lit "http") stem = false ->
  quote_free f = true -> gt_free attrs = true ->
  occurs (lit "</a>") inner = false ->
  occurs href_open (lit "<a" ++ ws) = false ->
  occurs href_open (attrs ++ lit ">" ++ inner ++ lit "</a>") = false ->
  let page_url_map := build_page_url_map files [] in
  let out := mapped_link (confluence_page_url (extract_title text)) inner in
  rewrite_cross_page_links
    (rewrite_md_links (a_tag ws (stem ++ lit ".md") attrs inner))
    page_url_map
  = out
  /\ rewrite_cross_page_links
       (rewrite_md_links
          (a_tag ws (stem ++ lit ".md" ++ lit "#" ++ f) attrs inner))
       page_url_map
     = out.
Proof.
  intros D I Lw Hw Lp Qp Hp Np Qf Ga Oi O1 O2. cbv zeta.
  pose proof (md_then_cross (build_page_url_map files []) ws stem f attrs
                            inner Lw Hw Lp Qp Hp Np Qf Ga Oi O1 O2) as M.
  cbv zeta in M. now rewrite (build_lookup files [] stem text D I) in M.
Qed.

Lemma document_link_reaches_page_witness :
  rewrite_cross_page_links
    (rewrite_md_links
       (a_tag (lit " ") (lit "design" ++ lit ".md" ++ lit "#" ++ lit "Goals")
              [] (lit "the design")))
    (build_page_url_map
       [(lit "index", lit "# Overview");
        (lit "design", lit "# A/B Design")] [])
  = mapped_link (confluence_page_url (extract_title (lit "# A/B Design")))
                (lit "the design").
Proof.
  exact (proj2 (document_link_reaches_page
                  [(lit "index", lit "# Overview");
                   (lit "design", lit "# A/B Design")]
                  (lit "design") (lit "# A/B Design")
                  (lit " ") (lit "Goals") [] (lit "the design")
                  eq_refl (or_intror (or_introl eq_refl))
                  (Nat.lt_0_succ 0) eq_refl (Nat.lt_0_succ 5) eq_refl eq_refl
                  eq_refl eq_refl eq_refl eq_refl eq_refl eq_refl)).
Defined.

(** ** The order of the directory listing *)

Section ListingOrder.

Lemma str_ltb_cons x y (a b : str) :
  str_ltb (x :: a) (y :: b) = true
  <-> nat_of_ascii x < nat_of_ascii y \/ (x = y /\ str_ltb a b = true).
Proof.
  cbn [str_ltb]. rewrite orb_true_iff, andb_true_iff, Nat.ltb_lt.
  now rewrite Ascii.eqb_eq.
Qed.

Lemma str_ltb_irrefl (a : str) : str_ltb a a = false.
Proof.
  induction a as [|x a IH]; [reflexivity|].
  destruct (str_ltb (x :: a) (x :: a)) eqn:E; [|reflexivity].
  apply str_ltb_cons in E as [E|[_ E]]; [lia|congruence].
Qed.

Lemma str_ltb_trans (a : str) :
  forall b c, str_ltb a b = true -> str_ltb b c = true ->
              str_ltb a c = true.
Proof.
  induction a as [|x a IH]; intros [|y b] [|z c] H1 H2;
    try discriminate; try reflexivity.
  apply str_ltb_cons in H1. apply str_ltb_cons in H2. apply str_ltb_cons.
  destruct H1 as [H1|[-> H1]], H2 as [H2|[-> H2]].
  - left. lia.
  - left. exact H1.
  - left. exact H2.
  - right. split; [reflexivity|]. now apply (IH b c).
Qed.

Lemma str_ltb_total (a : str) :
  forall b, a <> b -> str_ltb a b = true \/ str_ltb b a = true.
Proof.
  induction a as [|x a IH]; intros [|y b] N.
  - congruence.
  - now left.
  - now right.
  - rewrite !str_ltb_cons.
    destruct (Nat.lt_total (nat_of_ascii x) (nat_of_ascii y)) as [H|[H|H]].
    + left. now left.
    + assert (E : x = y)
        by (rewrite <- (ascii_nat_embedding x), H;
            apply ascii_nat_embedding).
      subst y. destruct (IH b) as [L|L]; [congruence| |].
      * left. right. now split.
      * right. right. now split.
    + right. now left.
Qed.

Lemma str_ltb_asym (a b : str) : str_ltb a b = true -> str_ltb b a = false.
Proof.
  intros H. destruct (str_ltb b a) eqn:E; [|reflexivity].
  pose proof (str_ltb_trans a b a H E) as T.
  now rewrite str_ltb_irrefl in T.
Qed.

Lemma insert_two (f g : str * str) (l : list (str * str)) :
  fst f <> fst g ->
  (if str_ltb (fst g) (fst f) then g :: f :: l else f :: g :: l)
  = (if str_ltb (fst f) (fst g) then f :: g :: l else g :: f :: l).
Proof.
  intros N. destruct (str_ltb_total (fst f) (fst g) N) as [H|H].
  - now rewrite H, (str_ltb_asym _ _ H).
  - now rewrite H, (str_ltb_asym _ _ H).
Qed.

Lemma str_ltb_le_lt (f h g : str) :
  str_ltb h f = false -> str_ltb h g = true -> str_ltb f g = true.
Proof.
  intros H1 H2. destruct (list_eq_dec ascii_dec f h) as [->|N];
    [exact H2|].
  destruct (str_ltb_total f h N) as [H|H]; [|congruence].
  now apply (str_ltb_trans f h g).
Qed.

(** Two files with different names can be put in place in either
    order. *)
Lemma insert_comm (f g : str * str) (l : list (str * str)) :
  fst f <> fst g ->
  insert_file f (insert_file g l) = insert_file g (insert_file f l).
Proof.
  intros N. induction l as [|h l IH]; cbn [insert_file].
  - now apply insert_two.
  - destruct (str_ltb (fst h) (fst g)) eqn:Hg,
             (str_ltb (fst h) (fst f)) eqn:Hf; cbn [insert_file].
    + rewrite Hg, Hf. now rewrite IH.
    + rewrite Hf, (str_ltb_le_lt _ _ _ Hf Hg). cbn [insert_file].
      now rewrite Hg.
    + rewrite Hg, (str_ltb_le_lt _ _ _ Hg Hf). cbn [insert_file].
      now rewrite Hf.
    + rewrite Hg, Hf. now apply insert_two.
Qed.

Lemma distinct_NoDup (l : list str) : distinct l = true <-> NoDup l.
Proof.
  induction l as [|x l IH]; cbn [distinct].
  - split; [constructor|reflexivity].
  - rewrite andb_true_iff, negb_true_iff, IH. split.
    + intros [H1 H2]. constructor; [now apply distinct_notin|exact H2].
    + intros H. inversion H as [|y l' H1 H2]. subst. split; [|exact H2].
      destruct (existsb (str_eqb x) l) eqn:E; [|reflexivity].
      apply existsb_exists in E as [y [I E]].
      apply str_eqb_eq in E. now subst y.
Qed.

Lemma sorted_files_perm (l l' : list (str * str)) :
  Permutation l l' -> NoDup (map fst l) ->
  sorted_files l = sorted_files l'.
Proof.
  unfold sorted_files.
  induction 1 as [|x l l' P IH|x y l|l l' l'' P1 IH1 P2 IH2]; intros D.
  - reflexivity.
  - cbn [fold_right]. rewrite IH; [reflexivity|].
    now inversion D.
  - cbn [fold_right]. apply insert_comm.
    cbn [map] in D. inversion D as [|a b H1 H2]. subst.
    intros E. apply H1. left. now symmetry.
  - rewrite IH1 by exact D. apply IH2.
    apply (Permutation_NoDup (Permutation_map fst P1) D).
Qed.

Lemma existsb_perm {A : Type} (p : A -> bool) (l l' : list A) :
  Permutation l l' -> existsb p l = existsb p l'.
Proof.
  intros P. apply eq_true_iff_eq. rewrite !existsb_exists.
  split; intros [x [I H]]; exists x; split; try exact H.
  - now apply (Permutation_in x P).
  - now apply (Permutation_in x (Permutation_sym P)).
Qed.

Lemma ids_perm (files files' : list (str * str)) (name : str) :
  Permutation files files' -> distinct (map fst files) = true ->
  distinct (map fst files') = true ->
  ids_of (collect_ids files []) name = ids_of (collect_ids files' []) name.
Proof.
  intros P D D'. unfold ids_of.
  destruct (in_dec (list_eq_dec ascii_dec) name (map fst files)) as [J|J].
  - apply in_map_iff in J as [[n c] [E J]]. cbn [fst] in E. subst n.
    rewrite (collect_lookup files [] name c D J).
    now rewrite (collect_lookup files' [] name c D'
                                (Permutation_in _ P J)).
  - rewrite (collect_other files [] name J).
    rewrite (collect_other files' [] name); [reflexivity|].
    intros I. apply J.
    apply (Permutation_in name (Permutation_sym (Permutation_map fst P)) I).
Qed.

Lemma listing_order (files files' : list (str * str)) :
  Permutation files files' -> distinct (map fst files) = true ->
  check_links files = check_links files' /\ report files = report files'.
Proof.
  intros P D.
  assert (N : NoDup (map fst files)) by now apply distinct_NoDup.
  assert (D' : distinct (map fst files') = true)
    by (apply distinct_NoDup;
        apply (Permutation_NoDup (Permutation_map fst P) N)).
  assert (A : all_links files = all_links files')
    by (unfold all_links; now rewrite (sorted_files_perm files files' P N)).
  assert (C : check_links files = check_links files').
  { unfold check_links. rewrite !check_files_spec.
    fold (all_links files). fold (all_links files'). rewrite <- A.
    f_equal; f_equal; apply filter_ext; intros l;
      rewrite !link_ok_resolves by assumption; unfold resolves;
      now rewrite (existsb_perm _ files files' P). }
  split; [exact C|]. unfold report. rewrite <- C.
  f_equal. destruct (broken (check_links files)) as [|b bs]; [reflexivity|].
  f_equal. apply flat_map_ext. intros [[src tgt] anchor].
  unfold broken_lines. now rewrite (ids_perm files files' tgt P D D').
Qed.

End ListingOrder.

(** X21.  With distinct page names, the counts, the two lists and the
    printed report do not depend on the order in which the directory
    lists the pages: the pages are checked in the order of their
    names. *)
Theorem check_links_any_listing_order (files files' : list (str * str)) :
  Permutation files files' -> distinct (map fst files) = true ->
  check_links files = check_links files' /\ report files = report files'.
Proof. apply listing_order. Qed.

Lemma check_links_any_listing_order_witness :
  report [page_A; page_B] = report [page_B; page_A].
Proof.
  exact (proj2 (check_links_any_listing_order
                  [page_A; page_B] [page_B; page_A]
                  (perm_swap page_B page_A []) eq_refl)).
Defined.

(** ** Pages without diagrams and links *)

Section PlainPages.

Lemma scan_hit_suffix r t g (s : str) :
  forall n p, In (Hit t g) (scan r n p s) ->
              exists p' a s', s = a ++ s' /\ match_at r p' s' = Some (t, g).
Proof.
  induction s as [|c s IH]; intros n p I.
  - destruct n; cbn [scan] in I; [|destruct I].
    destruct (match_at r p []) as [[t' g']|] eqn:E; [|destruct I].
    destruct I as [I|[]]. injection I as -> ->. now exists p, [], [].
  - assert (Next : forall n' p', In (Hit t g) (scan r n' p' s) ->
                     exists p'' a s',
                       c :: s = a ++ s' /\ match_at r p'' s' = Some (t, g)).
    { intros n' p' J. destruct (IH n' p' J) as [p'' [a [s' [-> M]]]].
      now exists p'', (c :: a), s'. }
    destruct n; cbn [scan] in I; [|now apply Next in I].
    destruct (match_at r p (c :: s)) as [[t' g']|] eqn:E.
    + destruct I as [I|I].
      * injection I as -> ->. now exists p, [], (c :: s).
      * destruct t' as [|x t'].
        -- destruct I as [I|I]; [discriminate|now apply Next in I].
        -- now apply Next in I.
    + destruct I as [I|I]; [discriminate|now apply Next in I].
Qed.

Lemma a_tag_has_href p (s t : str) g :
  match_at re_a_tag p s = Some (t, g) -> occurs href_open s = true.
Proof.
  unfold match_at, re_a_tag. cbn [seqs rmatch]. intros H.
  destruct (startswith (lit "<a") s) eqn:E; [|discriminate].
  apply startswith_elim in E.
  apply rep_greedy_sound in H as [ws [s1 [E1 [_ [_ H]]]]].
  destruct (startswith href_open s1) eqn:E2; [|discriminate].
  apply startswith_elim in E2. apply occurs_iff.
  exists (lit "<a" ++ ws), (skipn (length href_open) s1).
  rewrite E, E1, E2 at 1. now rewrite <- !app_assoc.
Qed.

Lemma cross_no_href (html : str) (page_url_map : dict str) :
  occurs href_open html = false ->
  rewrite_cross_page_links html page_url_map = html.
Proof.
  intros O. apply re_sub_unchanged. intros t g I. exfalso.
  apply hits_In, scan_hit_suffix in I as [p [a [s' [E M]]]].
  apply a_tag_has_href in M. subst html.
  apply occurs_suffix in O. congruence.
Qed.

End PlainPages.

(** X22.  For a document without a mermaid fence whose converted HTML
    has no [href] attribute, the conversion of the page comes down to
    the converter: the body of the page is the HTML the converter
    returned, unchanged, the title is the one [extract_title] reads, and
    the only calls made are those of [md_to_html] on the text of the
    document. *)
Theorem convert_text_plain_page
        (markdown : str -> list string -> outcome str)
        (md_text html : str) (page_url_map : dict str) :
  occurs fence_open md_text = false ->
  snd (md_to_html markdown md_text) = Ok html ->
  occurs href_open html = false ->
  convert_text markdown md_text page_url_map
  = (fst (md_to_html markdown md_text), Ok (extract_title md_text, html)).
Proof.
  intros O C H. unfold convert_text, convert_diagrams.
  rewrite preprocess_plain by exact O.
  destruct (md_to_html markdown md_text) as [log o].
  cbn [fst snd] in *. subst o. cbn [postprocess_placeholders].
  now rewrite rewrite_md_plain, cross_no_href.
Qed.

Lemma convert_text_plain_page_witness :
  snd (convert_text paragraph_converter
                    (lit "# Notes" ++ [newline] ++ lit "see <a> and b.md")
                    [(lit "b.html", lit "https://wiki/b")])
  = Ok (lit "Notes",
        lit "<p># Notes" ++ [newline] ++ lit "see <a> and b.md</p>").
Proof.
  exact (f_equal snd
           (convert_text_plain_page
              paragraph_converter
              (lit "# Notes" ++ [newline] ++ lit "see <a> and b.md")
              (lit "<p># Notes" ++ [newline] ++ lit "see <a> and b.md</p>")
              [(lit "b.html", lit "https://wiki/b")]
              eq_refl eq_refl eq_refl)).
Defined.

(** ** The hints of the report *)

Section Hints.

Lemma firstn_In {A : Type} (x : A) n (l : list A) :
  In x (firstn n l) -> In x l.
Proof.
  intros I. rewrite <- (firstn_skipn n l). apply in_or_app. now left.
Qed.

Lemma broken_not_ok (files : list (str * str)) (l : link) :
  In l (broken (check_links files)) ->
  ~ In (snd l) (ids_of (collect_ids files []) (snd (fst l))).
Proof.
  unfold check_links. rewrite check_files_spec. cbn [broken app].
  intros I. apply filter_In in I as [_ I]. apply negb_true_iff in I.
  unfold link_ok in I. intros J. apply set_mem_In in J. congruence.
Qed.

Lemma hint_of_link ids (l : link) token close :
  In (Close token close) (broken_lines ids l) ->
  token = split_head "-" (snd l)
  /\ 1 <= length close <= 3
  /\ forall x, In x close ->
               In x (ids_of ids (snd (fst l))) /\ startswith token x = true.
Proof.
  destruct l as [[src tgt] anchor]. unfold broken_lines. cbn [fst snd].
  set (c := firstn 3 (filter (startswith (split_head "-" anchor))
                             (ids_of ids tgt))).
  intros [I|I]; [discriminate|].
  assert (L : length c <= 3) by apply firstn_le_length.
  destruct c as [|y c'] eqn:E; [destruct I|].
  destruct I as [I|[]]. injection I as <- <-.
  split; [reflexivity|]. split; [simpl in *; lia|].
  intros x Hx. rewrite <- E in Hx. apply firstn_In, filter_In in Hx.
  exact Hx.
Qed.

Lemma hints (files : list (str * str)) token close :
  In (Close token close) (report files) ->
  exists src tgt anchor,
    In (src, tgt, anchor) (broken (check_links files))
    /\ token = split_head "-" anchor
    /\ 1 <= length close <= 3
    /\ forall x, In x close ->
                 In x (ids_of (collect_ids files []) tgt)
                 /\ startswith token x = true
                 /\ x <> anchor.
Proof.
  unfold report. intros I. apply in_app_or in I as [I|I].
  { destruct I as [I|[I|[I|[]]]]; discriminate. }
  destruct (broken (check_links files)) as [|b bs] eqn:B.
  { destruct I as [I|[]]. discriminate. }
  destruct I as [I|I]; [discriminate|].
  apply in_flat_map in I as [[[src tgt] anchor] [J I]].
  apply hint_of_link in I as [E [L H]]. cbn [fst snd] in *.
  exists src, tgt, anchor. repeat split; try assumption; try lia.
  - now apply H.
  - now apply H.
  - intros ->. rewrite <- B in J.
    apply (broken_not_ok files (src, tgt, anchor) J). cbn [fst snd].
    now apply H.
Qed.

End Hints.

(** X23.  Every hint line of the report belongs to a broken link: it is
    headed by the part of the anchor before its first hyphen and lists
    between one and three ids, each of them an id of the target page
    that starts with that part, none of them the anchor itself. *)
Theorem report_hints (files : list (str * str)) (token : str)
        (close : list str) :
  In (Close token close) (report files) ->
  exists src tgt anchor,
    In (src, tgt, anchor) (broken (check_links files))
    /\ token = split_head "-" anchor
    /\ 1 <= length close <= 3
    /\ forall x, In x close ->
                 In x (ids_of (collect_ids files []) tgt)
                 /\ startswith token x = true
                 /\ x <> anchor.
Proof. apply hints. Qed.

Lemma report_hints_witness :
  let page :=
    (lit "A.html",
     lit "<a " ++ href_open ++ lit "B.html#other-x" ++ [dquote]
     ++ lit ">see B</a>") in
  exists src tgt anchor,
    In (src, tgt, anchor) (broken (check_links [page; page_B]))
    /\ lit "other" = split_head "-" anchor
    /\ 1 <= length [lit "other-id"] <= 3
    /\ forall x, In x [lit "other-id"] ->
                 In x (ids_of (collect_ids [page; page_B] []) tgt)
                 /\ startswith (lit "other") x = true
                 /\ x <> anchor.
Proof.
  intros page.
  exact (report_hints
           [page; page_B] (lit "other") [lit "other-id"]
           (or_intror (or_intror (or_intror (or_intror
              (or_intror (or_introl eq_refl))))))).
Defined.
